(** * Retrieval pipeline of the document search service

    A shallow embedding of the chunker ([DocumentProcessor]), the two-tier
    embedding cache ([EmbeddingCache]), the vector-store front end
    ([VectorStoreService.search_similar]), the request-limit validation
    ([validate_search_limits]) and the search orchestration with its
    ranking stage ([SearchService]), together with the properties of the
    retrieval specification that concern them.  Around these: the paths
    from a document to its chunks ([process_document]) and from the chunks
    to the index ([index_document_chunks_batch]), the batch and similarity
    functions of [EmbeddingService], [clear_cache], and the rate limiter
    ([RateLimiter], [check_rate_limit]).

    Conventions.  A Python [str] is a list of Unicode code points; Python
    [int]s are [Z]; Python [float]s are idealised as rationals [Q]; a [dict]
    used as a map is a [gmap]; a [dict] whose insertion order is observable is
    an association list; a [for] loop is a left fold over the list it walks. *)

From Stdlib Require Import ZArith QArith Lia Lqa List String Ascii Bool Sorted Permutation DecimalNat.
From stdpp Require Import base tactics option list gmap strings.

(** ** Python strings *)

Module PyStr.

(** A character is a Unicode code point. *)
Abbreviation char := N (only parsing).
Abbreviation str := (list N) (only parsing).

(** Literals: the code points of an ASCII string. *)
Definition py (s : string) : str :=
  List.map N_of_ascii (list_ascii_of_string s).

Definition SP : char := 32%N.

(** [len(s)] *)
Definition len (s : str) : Z := Z.of_nat (length s).

(** Truthiness of a string: [if s] holds for non-empty strings. *)
Definition truthy (s : str) : bool :=
  match s with [] => false | _ :: _ => true end.

(** The characters [str.isspace], [str.split], [str.strip] and the regular
    expression class [\s] treat as white space (CPython's
    [_PyUnicode_IsWhitespace]). *)
Definition is_space (c : char) : bool :=
  ((9 <=? c) && (c <=? 13) || (28 <=? c) && (c <=? 32)
   || (c =? 133) || (c =? 160) || (c =? 5760)
   || (8192 <=? c) && (c <=? 8202)
   || (c =? 8232) || (c =? 8233) || (c =? 8239) || (c =? 8287)
   || (c =? 12288))%N.

Fixpoint lstrip (s : str) : str :=
  match s with
  | [] => []
  | c :: s' => if is_space c then lstrip s' else s
  end.

Definition rstrip (s : str) : str := rev (lstrip (rev s)).

(** [s.strip()] *)
Definition strip (s : str) : str := rstrip (lstrip s).

(** [s.split()]: the maximal runs of non-space characters, in order.
    [cur] holds the word being read, reversed. *)
Fixpoint split_go (cur : str) (s : str) : list str :=
  match s with
  | [] => if truthy cur then [rev cur] else []
  | c :: s' =>
      if is_space c
      then (if truthy cur then rev cur :: split_go [] s' else split_go [] s')
      else split_go (c :: cur) s'
  end.

Definition split (s : str) : list str := split_go [] s.

(** [sep.join(l)] for a one-character separator. *)
Fixpoint join (sep : char) (l : list str) : str :=
  match l with
  | [] => []
  | [w] => w
  | w :: l' => w ++ sep :: join sep l'
  end.

(** [l[j:]] for an integer [j] of either sign. *)
Definition slice_from {A} (j : Z) (l : list A) : list A :=
  let n := Z.of_nat (length l) in
  let start := if (j <? 0)%Z then Z.max 0 (n + j) else Z.min j n in
  drop (Z.to_nat start) l.

(** A word: non-empty and free of white space, so that [split] cannot cut
    it. *)
Definition single_word (s : str) : Prop :=
  s ≠ [] ∧ Forall (λ c, is_space c = false) s.

Definition all_space (s : str) : Prop := Forall (λ c, is_space c = true) s.

(** [re.sub(r'[class]{min,}', repl, s)]: every maximal run of at least [min]
    characters of the class is replaced by [repl]; shorter runs stay.
    [run] holds the run being read, reversed. *)
Definition flush_run (min : nat) (repl : str) (run : str) : str :=
  if (min <=? length run)%nat then repl else rev run.

Fixpoint sub_runs_go (cls : char → bool) (min : nat) (repl : str)
    (run : str) (s : str) : str :=
  match s with
  | [] => flush_run min repl run
  | c :: s' =>
      if cls c then sub_runs_go cls min repl (c :: run) s'
      else flush_run min repl run ++ c :: sub_runs_go cls min repl [] s'
  end.

Definition sub_runs (cls : char → bool) (min : nat) (repl : str) (s : str) : str :=
  sub_runs_go cls min repl [] s.

(** Total length of the words of [l], each counted with one separator. *)
Fixpoint spaced_length (l : list str) : Z :=
  match l with
  | [] => 0%Z
  | w :: l' => (len w + 1 + spaced_length l')%Z
  end.

End PyStr.

(** ** The chunker: [DocumentProcessor.clean_text] and
    [DocumentProcessor.split_into_chunks] *)

Module Chunker.
Import PyStr.
Local Open Scope Z_scope.

(** *** [re.split(r'(?<=[.!?])\s+', text)] *)

(** The look-behind class [[.!?]]. *)
Definition is_terminal (c : char) : bool :=
  ((c =? 46) || (c =? 33) || (c =? 63))%N.

(** Scanner state: either inside a piece, remembering whether the previous
    character is sentence-terminal, or inside a separator (a run of white
    space that follows a terminal character). *)
Inductive scan_mode := InPiece (after_terminal : bool) | InSeparator.

(** [cur] holds the piece being read, reversed.  A separator starts at a
    white-space character that directly follows a terminal character and
    extends over the whole run of white space; the text before the first
    separator, between separators and after the last one are the pieces (the
    last piece is empty when the text ends in a separator). *)
Fixpoint split_sentences_go (mode : scan_mode) (cur : str) (s : str) : list str :=
  match s with
  | [] => [rev cur]
  | c :: s' =>
      match mode with
      | InPiece after_terminal =>
          if is_space c && after_terminal
          then rev cur :: split_sentences_go InSeparator [] s'
          else split_sentences_go (InPiece (is_terminal c)) (c :: cur) s'
      | InSeparator =>
          if is_space c
          then split_sentences_go InSeparator [] s'
          else split_sentences_go (InPiece (is_terminal c)) [c] s'
      end
  end.

Definition split_sentences (text : str) : list str :=
  split_sentences_go (InPiece false) [] text.

(** *** [clean_text] *)

Section Cleaning.

(** [str.isalnum] per character: the alphanumeric code points of the Unicode
    database, which the regular expression class [\w] consults. *)
Variable is_alnum : char → bool.

(** [\w] *)
Definition is_word_char (c : char) : bool := is_alnum c || (c =? 95)%N.

(** The punctuation the second substitution keeps: full stop, comma,
    exclamation and question mark, semicolon, colon, hyphen, round and square
    brackets, and the double and single quote. *)
Definition kept_punctuation : list char :=
  [46; 44; 33; 63; 59; 58; 45; 40; 41; 91; 93; 34; 39]%N.

(** The negated class of the second substitution: neither a word character,
    nor white space, nor kept punctuation. *)
Definition is_stripped (c : char) : bool :=
  negb (is_word_char c || is_space c || existsb (N.eqb c) kept_punctuation).

Definition is_dot (c : char) : bool := (c =? 46)%N.
Definition is_bang_or_question (c : char) : bool := ((c =? 33) || (c =? 63))%N.

Definition clean_text (text : str) : str :=
  let text := sub_runs is_space 1 [SP] text in
  let text := sub_runs is_stripped 1 [SP] text in
  let text := sub_runs is_dot 2 [46%N] text in
  let text := sub_runs is_bang_or_question 2 [33%N] text in
  strip text.

End Cleaning.

(** *** [split_into_chunks] *)

Section Splitting.

(** [self.chunk_size] and [self.chunk_overlap], from the settings. *)
Variables chunk_size chunk_overlap : Z.

(** [cur + SP + piece if cur else piece] *)
Definition extend (cur piece : str) : str :=
  if truthy cur then cur ++ SP :: piece else piece.

(** [len(cur + SP + piece) <= self.chunk_size] *)
Definition fits (cur piece : str) : bool :=
  len (cur ++ SP :: piece) <=? chunk_size.

(** [if cur: chunks.append(cur.strip())] *)
Definition flush (chunks : list str) (cur : str) : list str :=
  if truthy cur then chunks ++ [strip cur] else chunks.

(** Body of the inner loop, over the words of an over-long sentence. *)
Definition word_step (st : list str * str) (word : str) : list str * str :=
  let '(chunks, word_chunk) := st in
  if fits word_chunk word
  then (chunks, extend word_chunk word)
  else (flush chunks word_chunk, word).

(** Body of the outer loop, over the sentences. *)
Definition sentence_step (st : list str * str) (sentence : str) : list str * str :=
  let '(chunks, current_chunk) := st in
  if fits current_chunk sentence
  then (chunks, extend current_chunk sentence)
  else
    let chunks := flush chunks current_chunk in
    if len sentence <=? chunk_size
    then (chunks, sentence)
    else fold_left word_step (split sentence) (chunks, []).

(** The segments before the overlap is added. *)
Definition base_chunks (text : str) : list str :=
  let '(chunks, current_chunk) :=
    fold_left sentence_step (split_sentences text) ([], []) in
  flush chunks current_chunk.

(** [SP.join(chunks[i-1].split()[-self.chunk_overlap//10:])]: unary minus
    binds tighter than [//], so the slice starts at [(-chunk_overlap) // 10]. *)
Definition overlap_text (prev : str) : str :=
  join SP (slice_from ((- chunk_overlap) / 10) (split prev)).

(** Body of the overlap loop, at index [i]. *)
Definition with_overlap (chunks : list str) (i : nat) (chunk : str) : str :=
  if (0 <? Z.of_nat i) && (0 <? chunk_overlap)
  then overlap_text (default [] (chunks !! (i - 1)%nat)) ++ SP :: chunk
  else chunk.

Definition add_overlap (chunks : list str) : list str :=
  imap (with_overlap chunks) chunks.

(** The [metadata] argument is not used by the method and is left out. *)
Definition split_into_chunks (text : str) : list str :=
  if negb (truthy text) || (len text <? chunk_size)
  then (if truthy text then [text] else [])
  else add_overlap (base_chunks text).

(** Specification vocabulary.  A segment respects the size bound when it has
    at most [chunk_size] characters or is a single word, which the chunker
    cannot split, longer than that. *)
Definition within_bound (seg : str) : Prop :=
  len seg <= chunk_size ∨ (single_word seg ∧ chunk_size < len seg).

(** The loop invariant of both accumulation loops, on the state made of the
    segments emitted so far and the running buffer. *)
Definition state_bounded (st : list str * str) : Prop :=
  Forall within_bound (fst st) ∧ within_bound (snd st).

(** The size bound on everything [split_into_chunks] returns. *)
Definition size_bound_holds (text : str) : Prop :=
  ∀ seg, seg ∈ split_into_chunks text → within_bound seg.

(** The segments as they are before the overlap loop, on either path of
    [split_into_chunks]. *)
Definition chunks_before_overlap (text : str) : list str :=
  if negb (truthy text) || (len text <? chunk_size)
  then (if truthy text then [text] else [])
  else base_chunks text.

(** What the overlap loop puts in front of the segment at index [i]. *)
Definition overlap_prefix (chunks : list str) (i : nat) : str :=
  if (0 <? Z.of_nat i) && (0 <? chunk_overlap)
  then overlap_text (default [] (chunks !! (i - 1)%nat)) ++ [SP]
  else [].

End Splitting.

(** The text path of [process_document]: extraction yields [text]; nothing is
    produced for an empty extraction, otherwise the text is cleaned and then
    chunked. *)
Definition chunk_document (is_alnum : char → bool) (chunk_size chunk_overlap : Z)
    (text : str) : list str :=
  if negb (truthy text) then []
  else split_into_chunks chunk_size chunk_overlap (clean_text is_alnum text).

(** The second edge case as the specification states it, on the text as it
    is extracted: non-empty and shorter than [chunk_size], it gives exactly
    one segment, the cleaned text. *)
Definition short_text_gives_one_segment (is_alnum : char → bool)
    (chunk_size chunk_overlap : Z) (text : str) : Prop :=
  text ≠ [] → (len text < chunk_size)%Z →
  chunk_document is_alnum chunk_size chunk_overlap text
  = [clean_text is_alnum text].

(** ASCII letters and digits, the alphanumeric characters below 128. *)
Definition ascii_alnum (c : char) : bool :=
  ((48 <=? c) && (c <=? 57) || (65 <=? c) && (c <=? 90)
   || (97 <=? c) && (c <=? 122))%N.

(** Sample input: two sentences of 61 characters each. *)
Definition two_sentences : str :=
  repeat 97%N 60 ++ py ". " ++ repeat 98%N 60 ++ py ".".

End Chunker.


(** ** Values, exceptions and effects *)

Module Runtime.
Import PyStr.

(** The scalar and string values that appear in payloads and metadata. *)
Inductive pyval :=
  | PNone
  | PBool (b : bool)
  | PInt (z : Z)
  | PFloat (q : Q)
  | PStr (s : str)
  | PStrList (l : list str).

(** An embedding: a one-dimensional array of floats. *)
Abbreviation vector := (list Q) (only parsing).

(** [np.zeros(n)] *)
Definition zeros (n : Z) : vector := repeat 0%Q (Z.to_nat n).

(** The exceptions the modelled code raises or receives from its
    collaborators. *)
Inductive exn :=
  | UnpicklingError
  | OSError
  | ProviderError
  | RuntimeError
  | ConnectionError
  | SearchQueryError
  | EmbeddingUnavailable
  | ValidationError.

(** The outcome of a call: a value or a raised exception. *)
Inductive result (A : Type) :=
  | Return (a : A)
  | Raise (e : exn).
Arguments Return {A} a.
Arguments Raise {A} e.

(** Computations over a mutable state [S] that may raise.  The state changes
    made before an exception is raised stay. *)
Definition M (S A : Type) : Type := S → result A * S.

#[global] Instance M_ret {S} : MRet (M S) := λ A a s, (Return a, s).

#[global] Instance M_bind {S} : MBind (M S) := λ A B f m s,
  match m s with
  | (Return a, s') => f a s'
  | (Raise e, s') => (Raise e, s')
  end.

Definition raise {S A} (e : exn) : M S A := λ s, (Raise e, s).
Definition get_state {S} : M S S := λ s, (Return s, s).
Definition gets {S A} (f : S → A) : M S A := λ s, (Return (f s), s).
Definition modify {S} (f : S → S) : M S unit := λ s, (Return tt, f s).

(** An outcome of a collaborator, lifted into the computation. *)
Definition lift {S A} (r : result A) : M S A := λ s, (r, s).

(** [try: body  except Exception: handler] *)
Definition try_except {S A} (body : M S A) (handler : exn → M S A) : M S A :=
  λ s, match body s with
       | (Return a, s') => (Return a, s')
       | (Raise e, s') => handler e s'
       end.

(** Python's two-argument [min] and [max] keep the first argument unless the
    second is strictly smaller, respectively larger. *)
Definition py_min (a b : Q) : Q := if Qle_bool a b then a else b.
Definition py_max (a b : Q) : Q := if Qle_bool b a then a else b.

End Runtime.

(** ** The embedding cache: [EmbeddingCache] *)

Module EmbeddingCache.
Import PyStr Runtime.

(** A file of the cache directory: the pickle of an embedding, which
    [pickle.load] reads back as it was dumped, or bytes that [pickle.load]
    rejects. *)
Inductive file :=
  | Pickle (embedding : vector)
  | Corrupt.

Definition pickle_load (f : file) : result vector :=
  match f with
  | Pickle embedding => Return embedding
  | Corrupt => Raise UnpicklingError
  end.

(** How the write of [put] ends: the file is written; [open] fails and the
    directory stays as it was; or [open] creates or truncates the file and
    [pickle.dump] fails, which leaves a file that does not load. *)
Inductive write_outcome := Written | OpenFailed | DumpFailed.

(** The cache object: the memory tier, its capacity, and the cache directory
    (file name without the extension to content), with the names under which
    [unlink] fails: a directory of that name, or an entry of a directory that
    does not allow removal. *)
Record cache_state := {
  memory_cache : gmap str vector;
  max_memory_items : nat;
  disk : gmap str file;
  unremovable : gset str
}.

(** [EmbeddingCache(cache_dir)] over an existing directory all of whose
    entries can be removed. *)
Definition new_cache (dir : gmap str file) : cache_state :=
  {| memory_cache := ∅; max_memory_items := 1000; disk := dir;
     unremovable := ∅ |}.

Definition set_memory (f : gmap str vector → gmap str vector) (c : cache_state) : cache_state :=
  {| memory_cache := f (memory_cache c);
     max_memory_items := max_memory_items c;
     disk := disk c;
     unremovable := unremovable c |}.

Definition set_disk (f : gmap str file → gmap str file) (c : cache_state) : cache_state :=
  {| memory_cache := memory_cache c;
     max_memory_items := max_memory_items c;
     disk := f (disk c);
     unremovable := unremovable c |}.

(** [cache_file.unlink()]: the entry is removed, or an [OSError] is raised
    and the directory stays as it was. *)
Definition unlink (text_hash : str) : M cache_state unit :=
  c ← get_state;
  if bool_decide (text_hash ∈ unremovable c)
  then raise OSError
  else modify (set_disk (delete text_hash)).

(** [if len(self.memory_cache) < self.max_memory_items:
       self.memory_cache[text_hash] = embedding] *)
Definition remember (text_hash : str) (embedding : vector) : M cache_state unit :=
  c ← get_state;
  if (size (memory_cache c) <? max_memory_items c)%nat
  then modify (set_memory <[text_hash := embedding]>)
  else mret tt.

Section Operations.

(** [_get_text_hash]: the SHA-256 hex digest of the UTF-8 encoding. *)
Variable text_hash_of : str → str.

(** [get].  The memory tier is asked first.  On a miss the file is read when
    it exists: a file that loads is promoted when the memory tier has room and
    returned; a failure to load is caught, the file is unlinked and the lookup
    ends as a miss.  The [unlink] stands in the handler, outside any [try]:
    when it fails, its exception leaves [get]. *)
Definition get (text : str) : M cache_state (option vector) :=
  let text_hash := text_hash_of text in
  c ← get_state;
  match memory_cache c !! text_hash with
  | Some embedding => mret (Some embedding)
  | None =>
      match disk c !! text_hash with
      | Some cache_file =>
          try_except
            (embedding ← lift (pickle_load cache_file);
             remember text_hash embedding;;
             mret (Some embedding))
            (λ _, unlink text_hash;; mret None)
      | None => mret None
      end
  end.

(** The write of [put], with the exception it may raise. *)
Definition write_file (w : write_outcome) (text_hash : str) (embedding : vector)
    : M cache_state unit :=
  match w with
  | Written => modify (set_disk <[text_hash := Pickle embedding]>)
  | OpenFailed => raise OSError
  | DumpFailed => modify (set_disk <[text_hash := Corrupt]>);; raise OSError
  end.

(** [put]: store in the memory tier when it has room, then write the file; a
    failed write is logged and swallowed. *)
Definition put (w : write_outcome) (text : str) (embedding : vector)
    : M cache_state unit :=
  let text_hash := text_hash_of text in
  remember text_hash embedding;;
  try_except (write_file w text_hash embedding) (λ _, mret tt).

(** The value a [get] returns, and the cache after it. *)
Definition get_value (text : str) (c : cache_state) : result (option vector) :=
  fst (get text c).
Definition after_get (text : str) (c : cache_state) : cache_state :=
  snd (get text c).
Definition after_put (w : write_outcome) (text : str) (embedding : vector)
    (c : cache_state) : cache_state :=
  snd (put w text embedding c).

(** The calls a client can make, and the cache after a sequence of them. *)
Inductive call :=
  | Get (text : str)
  | Put (w : write_outcome) (text : str) (embedding : vector).

Definition after_call (c : cache_state) (o : call) : cache_state :=
  match o with
  | Get text => after_get text c
  | Put w text embedding => after_put w text embedding c
  end.

Definition after_calls (calls : list call) (c : cache_state) : cache_state :=
  fold_left after_call calls c.

(** The call stores under the fingerprint [h]. *)
Definition puts_to (h : str) (o : call) : Prop :=
  match o with
  | Get _ => False
  | Put _ text _ => text_hash_of text = h
  end.

(** The lookup invariant behind cache correctness: the tiers agree that the
    fingerprint [h] stands for [v]. *)
Definition serves (h : str) (v : vector) (c : cache_state) : Prop :=
  memory_cache c !! h = Some v
  ∨ (memory_cache c !! h = None ∧ disk c !! h = Some (Pickle v)).

(** Nothing is stored under the fingerprint [h]. *)
Definition absent (h : str) (c : cache_state) : Prop :=
  memory_cache c !! h = None ∧ disk c !! h = None.

(** Cache correctness as the specification states it, for one cache, text and
    vector: whatever the write does, [get] after [put] returns the vector. *)
Definition put_then_get_returns (c : cache_state) (w : write_outcome)
    (text : str) (v : vector) : Prop :=
  get_value text (after_put w text v c) = Return (Some v).

End Operations.

(** An injective stand-in for the digest, for examples: the text itself. *)
Definition plain_fingerprint (text : str) : str := text.

(** A cache whose memory tier is full: [hello world] was stored first, then
    999 other texts. *)
Definition filler_entries : list call :=
  List.map (λ i, Put Written [N.of_nat i] [inject_Z (Z.of_nat i)]) (seq 1000 999).

Definition full_cache : cache_state :=
  after_calls plain_fingerprint
    (Put Written (py "hello world") [1 # 10; 2 # 10; 3 # 10] :: filler_entries)
    (new_cache ∅).

(** The same, with a text that is not [hello world] stored first. *)
Definition full_cache_without : cache_state :=
  after_calls plain_fingerprint
    (Put Written (py "other") [1 # 10; 2 # 10; 3 # 10] :: filler_entries)
    (new_cache ∅).

(** A cache directory in which the name for [hello world] is taken by an
    entry that neither loads nor can be removed, such as a directory of that
    name. *)
Definition cache_with_unremovable_entry : cache_state :=
  {| memory_cache := ∅; max_memory_items := 1000;
     disk := {[ py "hello world" := Corrupt ]};
     unremovable := {[ py "hello world" ]} |}.

End EmbeddingCache.

(** ** Settings, results and the collaborators *)

Module Model.
Import PyStr Runtime EmbeddingCache.

(** The fields of [Settings] the modelled code reads. *)
Record settings := {
  max_chunk_size : Z;
  chunk_overlap : Z;
  embedding_dimension : Z;
  default_limit : Z;
  similarity_threshold : Q
}.

(** The defaults of [Settings]. *)
Definition default_settings : settings :=
  {| max_chunk_size := 1000;
     chunk_overlap := 200;
     embedding_dimension := 384;
     default_limit := 10;
     similarity_threshold := 5 # 10 |}.

(** [SearchResult], a dataclass. *)
Record SearchResult := {
  chunk_id : str;
  text : str;
  score : Q;
  source_file : str;
  metadata : gmap str pyval
}.

(** [s.split('/')[-1]]: what follows the last slash. *)
Fixpoint after_last_slash_go (cur : str) (s : str) : str :=
  match s with
  | [] => rev cur
  | c :: s' =>
      if (c =? 47)%N then after_last_slash_go [] s'
      else after_last_slash_go (c :: cur) s'
  end.

Definition after_last_slash (s : str) : str := after_last_slash_go [] s.

(** The constructor with [__post_init__]: the score is clamped to the unit
    interval and [file_name] is derived from the source file when the
    metadata lacks it. *)
Definition new_SearchResult (chunk_id text : str) (score : Q) (source_file : str)
    (metadata : gmap str pyval) : SearchResult :=
  {| chunk_id := chunk_id;
     text := text;
     score := py_max 0 (py_min 1 score);
     source_file := source_file;
     metadata :=
       match metadata !! py "file_name" with
       | None =>
           if truthy source_file
           then <[py "file_name" := PStr (after_last_slash source_file)]> metadata
           else metadata
       | Some _ => metadata
       end |}.

Definition set_score (q : Q) (r : SearchResult) : SearchResult :=
  {| chunk_id := chunk_id r; text := text r; score := q;
     source_file := source_file r; metadata := metadata r |}.

Definition set_metadata (key : str) (v : pyval) (r : SearchResult) : SearchResult :=
  {| chunk_id := chunk_id r; text := text r; score := score r;
     source_file := source_file r; metadata := <[key := v]> (metadata r) |}.

(** A scored point of the vector index, with its payload. *)
Record hit := {
  hit_score : Q;
  payload : gmap str pyval
}.

(** The values a metadata filter may hold: a string, a boolean, an integer,
    a float, a dictionary with a [range] entry whose bounds are numbers or
    missing, a dictionary with a [range] entry of any other shape, or a value
    of any other kind. *)
Inductive filter_value :=
  | FString (s : str)
  | FBool (b : bool)
  | FInt (z : Z)
  | FFloat (q : Q)
  | FRange (gte lte : option Q)
  | FBadRange
  | FOther.

(** The [filters] argument: [None] or a dictionary, in insertion order. *)
Abbreviation filters := (option (list (str * filter_value))) (only parsing).

(** Truthiness of [filters]: a non-empty dictionary. *)
Definition filters_truthy (f : filters) : bool :=
  match f with
  | Some (_ :: _) => true
  | _ => false
  end.

(** The conditions of the index's filter grammar.  [MatchValue] holds a
    string, a boolean or an integer, nothing else. *)
Inductive condition :=
  | MatchString (key : str) (value : str)
  | MatchBoolean (key : str) (value : bool)
  | MatchInteger (key : str) (value : Z)
  | InRange (key : str) (gte lte : option Q).

(** The services outside the modelled code, as one call of it meets them. *)
Record environment := {
  (** [hashlib.sha256(text.encode('utf-8')).hexdigest()] *)
  sha256_hex : str → str;
  (** [str.lower] *)
  lower : str → str;
  (** [SentenceTransformer(model_name, device)] *)
  load_transformer : result unit;
  (** [model.encode([text], ...)[0]] *)
  transformer_encode : str → result vector;
  (** how the cache file write of [EmbeddingCache.put] ends *)
  cache_write : write_outcome;
  (** [QdrantClient(host, port, ...)], the constructor *)
  qdrant_connect : result unit;
  (** [client.get_collections()], the check made after it *)
  qdrant_get_collections : result unit;
  (** [client.search(collection, vector, filter, limit, score_threshold)] *)
  qdrant_search : vector → option (list condition) → Z → Q → result (list hit);
  (** [time.time()] at the look-up and at the store of the query cache *)
  time_at_lookup : Q;
  time_at_store : Q
}.

(** The calls made to the collaborators, as a log. *)
Inductive event :=
  | LoadedTransformer
  | Encoded (text : str)
  | Connected
  | Searched (query_vector : vector) (query_filter : option (list condition))
      (limit : Z) (score_threshold : Q).

(** The signature of a cached query.  The code formats the three parts into
    one string, separated by colons; the last two parts never contain a
    colon, so the string determines the triple. *)
Abbreviation cache_key := (str * option Z * option Q)%type (only parsing).

(** The mutable state of the service objects. *)
Record system := {
  embedding_cache : cache_state;
  model_loaded : bool;
  client_connected : bool;
  query_cache : list (cache_key * (list SearchResult * Q));
  events : list event
}.

Definition set_embedding_cache (f : cache_state → cache_state) (s : system) : system :=
  {| embedding_cache := f (embedding_cache s); model_loaded := model_loaded s;
     client_connected := client_connected s; query_cache := query_cache s;
     events := events s |}.

Definition set_model_loaded (b : bool) (s : system) : system :=
  {| embedding_cache := embedding_cache s; model_loaded := b;
     client_connected := client_connected s; query_cache := query_cache s;
     events := events s |}.

Definition set_client_connected (b : bool) (s : system) : system :=
  {| embedding_cache := embedding_cache s; model_loaded := model_loaded s;
     client_connected := b; query_cache := query_cache s;
     events := events s |}.

Definition set_query_cache
    (f : list (cache_key * (list SearchResult * Q)) → list (cache_key * (list SearchResult * Q)))
    (s : system) : system :=
  {| embedding_cache := embedding_cache s; model_loaded := model_loaded s;
     client_connected := client_connected s; query_cache := f (query_cache s);
     events := events s |}.

Definition log (e : event) : M system unit :=
  modify (λ s,
    {| embedding_cache := embedding_cache s; model_loaded := model_loaded s;
       client_connected := client_connected s; query_cache := query_cache s;
       events := events s ++ [e] |}).

(** A computation on the embedding cache, run on the cache of the system. *)
Definition on_embedding_cache {A} (m : M cache_state A) : M system A :=
  λ s, let '(r, c) := m (embedding_cache s) in
       (r, set_embedding_cache (λ _, c) s).

(** The state with its query cache replaced. *)
Definition with_query_cache (qc : list (cache_key * (list SearchResult * Q)))
    (s : system) : system :=
  set_query_cache (λ _, qc) s.

(** The computation neither reads nor writes the query cache: run on a state
    with another query cache, it does the same and leaves that query cache
    in place. *)
Definition frames_query_cache {A} (m : M system A) : Prop :=
  ∀ qc s, m (with_query_cache qc s)
          = (fst (m s), with_query_cache qc (snd (m s))).

(** The state at start-up, over a cache directory. *)
Definition initial_system (dir : gmap str file) : system :=
  {| embedding_cache := new_cache dir; model_loaded := false;
     client_connected := false; query_cache := []; events := [] |}.

End Model.

(** ** [EmbeddingService.encode_single] *)

Module EmbeddingService.
Import PyStr Runtime EmbeddingCache Model.

Section Service.
Variable cfg : settings.
Variable env : environment.

(** A call of the provider, logged. *)
Definition encode_with_model (text : str) : M system vector :=
  log (Encoded text);; lift (transformer_encode env text).

(** [_load_model]: nothing to do once the model is set; otherwise the model
    is constructed, set, and tried on a test sentence; any failure is raised
    again as a [RuntimeError]. *)
Definition load_model : M system unit :=
  gets model_loaded ≫= λ loaded : bool,
  if loaded then mret tt
  else
    try_except
      (log LoadedTransformer;;
       lift (load_transformer env);;
       modify (set_model_loaded true);;
       encode_with_model (py "test");;
       mret tt)
      (λ _, raise RuntimeError).

(** The model is loaded, or it can be: the constructor and the test
    sentence both succeed. *)
Definition model_ready (s : system) : Prop :=
  model_loaded s = true
  ∨ (load_transformer env = Return tt
     ∧ ∃ v, transformer_encode env (py "test") = Return v).

(** The calls that loading makes when the model is not loaded yet. *)
Definition loading_events (s : system) : list event :=
  if model_loaded s then [] else [LoadedTransformer; Encoded (py "test")].

(** [encode_single].  Blank text gives the zero vector.  Otherwise the cache
    is asked; on a miss the model is loaded, outside the [try], and the
    provider is called inside it: a vector it returns is stored in the cache
    and returned, and any exception is replaced by the zero vector. *)
Definition encode_single (text : str) (use_cache : bool) : M system vector :=
  if negb (truthy text) || negb (truthy (strip text))
  then mret (zeros (embedding_dimension cfg))
  else
    let normalized_text := strip text in
    cached_embedding ←
      (if use_cache
       then on_embedding_cache (get (sha256_hex env) normalized_text)
       else mret None);
    match cached_embedding with
    | Some embedding => mret embedding
    | None =>
        load_model;;
        try_except
          (embedding ← encode_with_model normalized_text;
           (if use_cache
            then on_embedding_cache
                   (put (sha256_hex env) (cache_write env) normalized_text embedding)
            else mret tt);;
           mret embedding)
          (λ _, mret (zeros (embedding_dimension cfg)))
    end.

End Service.
End EmbeddingService.

(** ** [VectorStoreService.search_similar] *)

Module VectorStore.
Import PyStr Runtime EmbeddingCache Model.

(** Truthiness of the optional arguments: [None] and zero are falsy. *)
Definition limit_truthy (limit : option Z) : bool :=
  match limit with
  | Some z => negb (z =? 0)%Z
  | None => false
  end.

Definition threshold_truthy (score_threshold : option Q) : bool :=
  match score_threshold with
  | Some q => negb (Qeq_bool q 0)
  | None => false
  end.

Section Store.
Variable cfg : settings.
Variable env : environment.

(** [limit or settings.default_limit] *)
Definition effective_limit (limit : option Z) : Z :=
  if limit_truthy limit then default 0%Z limit else default_limit cfg.

(** [score_threshold or settings.similarity_threshold] *)
Definition effective_threshold (score_threshold : option Q) : Q :=
  if threshold_truthy score_threshold then default 0%Q score_threshold
  else similarity_threshold cfg.

(** [_get_client]: the client is made on first use.  [self.client] is
    assigned as soon as the constructor returns, before the check with
    [get_collections]; a failure of either is raised as a [ConnectionError],
    and after a failed check the client stays assigned, so that the next call
    returns it unchecked.  [client_connected] says that [self.client] is
    set. *)
Definition get_client : M system unit :=
  gets client_connected ≫= λ connected : bool,
  if connected then mret tt
  else
    try_except
      (log Connected;;
       lift (qdrant_connect env);;
       modify (set_client_connected true);;
       lift (qdrant_get_collections env))
      (λ _, raise ConnectionError).

(** The condition made of one filter entry.  A string, a boolean and an
    integer go into a [MatchValue]; a float goes there as well, and
    [MatchValue] rejects it with a validation error.  A dictionary with a
    [range] entry goes into a [Range], which rejects bounds that are not
    numbers.  A value of any other kind gives no condition. *)
Definition condition_of (entry : str * filter_value) : result (list condition) :=
  match entry.2 with
  | FString s => Return [MatchString entry.1 s]
  | FBool b => Return [MatchBoolean entry.1 b]
  | FInt z => Return [MatchInteger entry.1 z]
  | FFloat _ => Raise ValidationError
  | FRange gte lte => Return [InRange entry.1 gte lte]
  | FBadRange => Raise ValidationError
  | FOther => Return []
  end.

(** The loop over [filters.items()]: the conditions in order, or the first
    exception. *)
Fixpoint conditions_of (entries : list (str * filter_value)) : result (list condition) :=
  match entries with
  | [] => Return []
  | entry :: entries' =>
      match condition_of entry with
      | Raise e => Raise e
      | Return conditions =>
          match conditions_of entries' with
          | Raise e => Raise e
          | Return rest => Return (conditions ++ rest)
          end
      end
  end.

Definition qdrant_filter_of (f : filters) : result (option (list condition)) :=
  if filters_truthy f
  then match conditions_of (default [] f) with
       | Raise e => Raise e
       | Return [] => Return None
       | Return conditions => Return (Some conditions)
       end
  else Return None.

(** [payload.get(key, fallback)] for the keys that hold strings; payloads
    written by the indexing path hold strings there, and any other value is
    read as the fallback. *)
Definition payload_string (p : gmap str pyval) (key : str) (fallback : str) : str :=
  match p !! key with
  | Some (PStr s) => s
  | _ => fallback
  end.

Definition result_of_hit (h : hit) : SearchResult :=
  new_SearchResult
    (payload_string (payload h) (py "chunk_id") (py "unknown"))
    (payload_string (payload h) (py "text") [])
    (hit_score h)
    (payload_string (payload h) (py "source_file") [])
    (delete (py "text") (delete (py "chunk_id") (delete (py "source_file") (payload h)))).

(** [search_similar].  The defaults replace falsy arguments; the limit and
    the threshold then go to the index as they are.  Any exception, from the
    connection, from the making of the filter or from the index, is caught
    and gives the empty list. *)
Definition search_similar (query_embedding : vector) (limit : option Z)
    (score_threshold : option Q) (f : filters) : M system (list SearchResult) :=
  let limit := effective_limit limit in
  let score_threshold := effective_threshold score_threshold in
  try_except
    (get_client;;
     lift (qdrant_filter_of f) ≫= λ qdrant_filter : option (list condition),
     log (Searched query_embedding qdrant_filter limit score_threshold);;
     search_results ←
       lift (qdrant_search env query_embedding qdrant_filter limit score_threshold);
     mret (List.map result_of_hit search_results))
    (λ _, mret []).

End Store.
End VectorStore.

(** ** Request validation: [validate_search_limits] *)

Module Limits.
Import PyStr Runtime Model.

(** [HTTPException(status_code, detail)] *)
Record http_exception := {
  status_code : Z;
  detail : string
}.

(** The dictionary [validate_search_limits] returns. *)
Record validated_params := {
  limit : Z;
  score_threshold : Q
}.

Definition validate_search_limits (cfg : settings)
    (limit : option Z) (score_threshold : option Q)
    : http_exception + validated_params :=
  match
    match limit with
    | Some limit =>
        if (limit <=? 0)%Z
        then inl {| status_code := 400; detail := "Limit must be greater than 0" |}
        else if (100 <? limit)%Z
        then inl {| status_code := 400; detail := "Limit cannot exceed 100 results" |}
        else inr limit
    | None => inr (default_limit cfg)
    end
  with
  | inl e => inl e
  | inr validated_limit =>
      match score_threshold with
      | Some score_threshold =>
          if negb (Qle_bool 0 score_threshold && Qle_bool score_threshold 1)
          then inl {| status_code := 400;
                      detail := "Score threshold must be between 0.0 and 1.0" |}
          else inr {| limit := validated_limit; score_threshold := score_threshold |}
      | None =>
          inr {| limit := validated_limit;
                 score_threshold := similarity_threshold cfg |}
      end
  end.

End Limits.

(** ** The ranking stage: [SearchService._post_process_results] *)

Module Ranker.
Import PyStr Runtime Model.

(** [set(s.split())], as the list of distinct words in order of first
    occurrence; the code only takes sizes and intersections of these sets. *)
Definition word_set (s : str) : list str := remove_dups (split s).

(** [sorted(l, key=lambda r: r.score, reverse=True)]: a stable sort by
    descending score.  [insert_by_score r l] puts [r], which comes before
    the elements of [l] in the input, in front of the first element whose
    score is not larger. *)
Fixpoint insert_by_score (r : SearchResult) (l : list SearchResult) : list SearchResult :=
  match l with
  | [] => [r]
  | r' :: l' =>
      if Qle_bool (score r') (score r) then r :: r' :: l'
      else r' :: insert_by_score r l'
  end.

Definition sort_by_score (l : list SearchResult) : list SearchResult :=
  foldr insert_by_score [] l.

(** The diversity penalty: the score times 0.8, and the flag. *)
Definition penalize (r : SearchResult) : SearchResult :=
  set_metadata (py "diversity_penalty") (PBool true)
    (set_score (score r * (8 # 10)) r).

(** [max(1, len(results) // 3)] *)
Definition max_per_file_of (results : list SearchResult) : Z :=
  Z.max 1 (Z.of_nat (length results) / 3).

(** Body of the diversity loop, on the counts per file and the output list. *)
Definition diversity_step (max_per_file : Z)
    (st : gmap str Z * list SearchResult) (result : SearchResult)
    : gmap str Z * list SearchResult :=
  let '(file_counts, diverse_results) := st in
  let file_key := source_file result in
  let current_count := default 0%Z (file_counts !! file_key) in
  if (current_count <? max_per_file)%Z
  then (<[file_key := (current_count + 1)%Z]> file_counts,
        diverse_results ++ [result])
  else (file_counts, diverse_results ++ [penalize result]).

(** The diversity loop over the candidates sorted by score. *)
Definition diversity_pass (max_per_file : Z) (sorted : list SearchResult)
    : list SearchResult :=
  snd (fold_left (diversity_step max_per_file) sorted (∅, [])).

Section Enhance.
Variable env : environment.

(** The first loop: a copy of the result with the keyword boost and the
    length normalisation applied, and the metadata for debugging. *)
Definition enhance (query_words : list str) (result : SearchResult) : SearchResult :=
  let enhanced := new_SearchResult (chunk_id result) (text result) (score result)
                    (source_file result) (metadata result) in
  let text_words := word_set (lower env (text result)) in
  let common_words := List.filter (λ w, bool_decide (w ∈ text_words)) query_words in
  let enhanced :=
    if negb (Nat.eqb (length common_words) 0)
    then
      let keyword_boost :=
        py_min (1 # 10)
          (inject_Z (Z.of_nat (length common_words))
           / inject_Z (Z.of_nat (length query_words)) * (1 # 10)) in
      set_metadata (py "keyword_boost") (PFloat keyword_boost)
        (set_metadata (py "keyword_matches") (PStrList common_words)
           (set_score (py_min 1 (score enhanced + keyword_boost)) enhanced))
    else enhanced in
  let text_length := Z.of_nat (length (split (text result))) in
  let enhanced :=
    if (text_length <? 10)%Z then set_score (score enhanced * (9 # 10)) enhanced
    else if (500 <? text_length)%Z then set_score (score enhanced * (95 # 100)) enhanced
    else enhanced in
  set_metadata (py "text_length_words") (PInt text_length)
    (set_metadata (py "original_score") (PFloat (score result)) enhanced).

(** The candidates as they enter the diversity loop: enhanced, then sorted. *)
Definition ranked_candidates (results : list SearchResult) (query : str)
    : list SearchResult :=
  sort_by_score (List.map (enhance (word_set (lower env query))) results).

Definition post_process_results (results : list SearchResult) (query : str)
    : list SearchResult :=
  match results with
  | [] => results
  | _ :: _ =>
      sort_by_score
        (diversity_pass (max_per_file_of results) (ranked_candidates results query))
  end.

End Enhance.

(** Specification vocabulary. *)

(** The result carries the diversity flag. *)
Definition flagged (r : SearchResult) : bool :=
  match metadata r !! py "diversity_penalty" with
  | Some (PBool true) => true
  | _ => false
  end.

(** [count_source file l]: how many results of [l] come from [file]. *)
Definition from_source (file : str) (r : SearchResult) : bool :=
  bool_decide (source_file r = file).

Definition count_source (file : str) (l : list SearchResult) : nat :=
  length (List.filter (from_source file) l).

(** [count_unflagged file l]: how many results of [l] come from [file] and do
    not carry the flag. *)
Definition count_unflagged (file : str) (l : list SearchResult) : nat :=
  length (List.filter (λ r, from_source file r && negb (flagged r)) l).

(** What the diversity loop makes of the candidate [r] that has [earlier]
    candidates before it: it is kept as it is while its file has fewer than
    [max_per_file] candidates before it, and penalised otherwise. *)
Definition diversified (max_per_file : Z) (earlier : list SearchResult)
    (r : SearchResult) : SearchResult :=
  if (Z.of_nat (count_source (source_file r) earlier) <? max_per_file)%Z
  then r else penalize r.

(** The diversity rule applied along a list, [earlier] being what came
    before it. *)
Fixpoint diversify (max_per_file : Z) (earlier l : list SearchResult)
    : list SearchResult :=
  match l with
  | [] => []
  | r :: l' =>
      diversified max_per_file earlier r
      :: diversify max_per_file (earlier ++ [r]) l'
  end.

(** The counts of the loop agree with the candidates seen so far: a file's
    count is the number of its candidates, capped at [max_per_file]. *)
Definition counts_agree (max_per_file : Z) (file_counts : gmap str Z)
    (earlier : list SearchResult) : Prop :=
  ∀ file, default 0%Z (file_counts !! file)
          = Z.min max_per_file (Z.of_nat (count_source file earlier)).

(** The list is in non-increasing order of score. *)
Definition descending (l : list SearchResult) : Prop :=
  Sorted (λ a b, (score b <= score a)%Q) l.

End Ranker.

(** ** The orchestration: [SearchService.search] *)

Module SearchService.
Import PyStr Runtime EmbeddingCache Model.

(** The [message] of a failed search: the literals [Empty query provided]
    and [Failed to process query], and [Search failed:] followed by the text
    of the exception caught. *)
Inductive message :=
  | EmptyQueryProvided
  | FailedToProcessQuery
  | SearchFailed (e : exn).

(** The dictionary [search] returns, without the timing statistics. *)
Record response := {
  success : bool;
  message_of : option message;
  query_of : option str;
  results : list SearchResult;
  cached : option bool
}.

Definition failure (m : message) : response :=
  {| success := false; message_of := Some m; query_of := None;
     results := []; cached := None |}.

(** [self.cache_ttl], in seconds. *)
Definition cache_ttl : Q := 300.

(** *** The query cache, a dictionary in insertion order *)

Definition key_eqb (a b : cache_key) : bool :=
  bool_decide (a.1.1 = b.1.1)
  && bool_decide (a.1.2 = b.1.2)
  && match a.2, b.2 with
     | Some x, Some y => Qeq_bool x y
     | None, None => true
     | _, _ => false
     end.

(** [self.query_cache[key]], when [key in self.query_cache]. *)
Fixpoint cache_lookup (key : cache_key)
    (qc : list (cache_key * (list SearchResult * Q)))
    : option (list SearchResult * Q) :=
  match qc with
  | [] => None
  | (k, v) :: qc' => if key_eqb key k then Some v else cache_lookup key qc'
  end.

(** [self.query_cache[key] = v]: an existing key keeps its place. *)
Fixpoint cache_assign (key : cache_key) (v : list SearchResult * Q)
    (qc : list (cache_key * (list SearchResult * Q)))
    : list (cache_key * (list SearchResult * Q)) :=
  match qc with
  | [] => [(key, v)]
  | (k, v') :: qc' =>
      if key_eqb key k then (k, v) :: qc' else (k, v') :: cache_assign key v qc'
  end.

(** [min(self.query_cache.keys(), key=lambda k: self.query_cache[k][1])]:
    the first key with the smallest time stamp. *)
Fixpoint oldest_key (best : cache_key * (list SearchResult * Q))
    (qc : list (cache_key * (list SearchResult * Q))) : cache_key :=
  match qc with
  | [] => best.1
  | e :: qc' =>
      if Qle_bool (best.2.2) (e.2.2) then oldest_key best qc' else oldest_key e qc'
  end.

(** [del self.query_cache[key]] *)
Fixpoint cache_delete (key : cache_key)
    (qc : list (cache_key * (list SearchResult * Q)))
    : list (cache_key * (list SearchResult * Q)) :=
  match qc with
  | [] => []
  | (k, v) :: qc' => if key_eqb key k then qc' else (k, v) :: cache_delete key qc'
  end.

(** The store at the end of [search], with the eviction of the oldest entry
    once there are more than 100. *)
Definition cache_store (key : cache_key) (processed_results : list SearchResult)
    (now : Q) (qc : list (cache_key * (list SearchResult * Q)))
    : list (cache_key * (list SearchResult * Q)) :=
  let qc := cache_assign key (processed_results, now) qc in
  if (100 <? length qc)%nat
  then match qc with
       | [] => qc
       | e :: qc' => cache_delete (oldest_key e qc') qc
       end
  else qc.

(** The look-up at the start of [search]: an entry younger than the time to
    live. *)
Definition fresh_entry (key : cache_key) (now : Q)
    (qc : list (cache_key * (list SearchResult * Q))) : option (list SearchResult) :=
  match cache_lookup key qc with
  | Some (cached_results, cache_time) =>
      if Qle_bool cache_ttl (now - cache_time) then None else Some cached_results
  | None => None
  end.

Section Service.
Variable cfg : settings.
Variable env : environment.

(** The body of the [try] in [search]. *)
Definition search_body (query : str) (limit : option Z)
    (score_threshold : option Q) (f : filters) : M system response :=
  if negb (truthy query) || negb (truthy (strip query))
  then mret (failure EmptyQueryProvided)
  else
    let normalized_query := strip query in
    let cache_key :=
      if negb (filters_truthy f)
      then Some (normalized_query, limit, score_threshold)
      else None in
    cache_hit ←
      match cache_key with
      | Some key =>
          gets (λ s : system, fresh_entry key (time_at_lookup env) (query_cache s))
      | None => mret None
      end;
    match cache_hit with
    | Some cached_results =>
        mret {| success := true; message_of := None;
                query_of := Some normalized_query;
                results := cached_results; cached := Some true |}
    | None =>
        query_embedding ← EmbeddingService.encode_single cfg env normalized_query true;
        if Nat.eqb (length query_embedding) 0
        then mret (failure FailedToProcessQuery)
        else
          search_results ←
            VectorStore.search_similar cfg env query_embedding limit score_threshold f;
          let processed_results :=
            Ranker.post_process_results env search_results normalized_query in
          match cache_key, processed_results with
          | Some key, _ :: _ =>
              modify (set_query_cache
                        (cache_store key processed_results (time_at_store env)))
          | _, _ => mret tt
          end;;
          mret {| success := true; message_of := None;
                  query_of := Some normalized_query;
                  results := processed_results; cached := Some false |}
    end.

(** [search]: whatever the body raises is caught and reported as a failed
    search. *)
Definition search (query : str) (limit : option Z)
    (score_threshold : option Q) (f : filters) : M system response :=
  try_except (search_body query limit score_threshold f)
    (λ e, mret (failure (SearchFailed e))).

End Service.

(** Specification vocabulary. *)

(** Query validation as the specification states it: the call ends in a
    raised query error. *)
Definition raises_query_error (cfg : settings) (env : environment)
    (query : str) (s : system) : Prop :=
  fst (search cfg env query None None None s) = Raise SearchQueryError.

(** Embedding failure as the specification states it: the call ends in a
    raised embedding error and returns no results. *)
Definition raises_embedding_unavailable (cfg : settings) (env : environment)
    (query : str) (s : system) : Prop :=
  fst (search cfg env query None None None s) = Raise EmbeddingUnavailable.

(** Clamping of the limit as the specification states it: the call succeeds
    and returns at most 100 results. *)
Definition limit_is_clamped (cfg : settings) (env : environment)
    (query : str) (limit : Z) (s : system) : Prop :=
  ∃ resp, fst (search cfg env query (Some limit) None None s) = Return resp
          ∧ success resp = true
          ∧ (length (results resp) <= 100)%nat.

(** The number of results of an outcome. *)
Definition result_count (r : result response) : nat :=
  match r with
  | Return resp => length (results resp)
  | Raise _ => 0
  end.

End SearchService.

(** ** Sample collaborators and inputs *)

Module Samples.
Import PyStr Runtime EmbeddingCache Model.

(** Lower case of the ASCII letters. *)
Definition ascii_lower (s : str) : str :=
  List.map (λ c, if ((65 <=? c) && (c <=? 90))%N then (c + 32)%N else c) s.

(** A stored point: its score against any query, and its payload. *)
Definition sample_hit (i : nat) : hit :=
  {| hit_score := inject_Z (1000 - Z.of_nat i) / 1000;
     payload :=
       {[ py "chunk_id" := PStr (py "doc_" ++ [N.of_nat i]);
          py "text" := PStr (py "the quick brown fox jumps over the lazy dog again and again");
          py "source_file" := PStr (py "docs/file_" ++ [N.of_nat i]);
          py "chunk_index" := PInt (Z.of_nat i) ]} |}.

Definition sample_points : list hit := List.map sample_hit (seq 0 150).

(** An index that answers every query with its first [limit] points that
    reach the threshold. *)
Definition sample_index (query_vector : vector) (query_filter : option (list condition))
    (limit : Z) (score_threshold : Q) : result (list hit) :=
  Return (take (Z.to_nat limit)
            (List.filter (λ h, Qle_bool score_threshold (hit_score h)) sample_points)).

(** A provider that embeds every text as the same unit vector. *)
Definition sample_env : environment :=
  {| sha256_hex := plain_fingerprint;
     lower := ascii_lower;
     load_transformer := Return tt;
     transformer_encode := λ _, Return [1; 0; 0]%Q;
     cache_write := Written;
     qdrant_connect := Return tt;
     qdrant_get_collections := Return tt;
     qdrant_search := sample_index;
     time_at_lookup := 1000;
     time_at_store := 1001 |}.

(** A provider that loads, passes its test sentence and raises on every
    other text. *)
Definition failing_provider_env : environment :=
  {| sha256_hex := plain_fingerprint;
     lower := ascii_lower;
     load_transformer := Return tt;
     transformer_encode :=
       λ text, if bool_decide (text = py "test") then Return [1; 0; 0]%Q
               else Raise ProviderError;
     cache_write := Written;
     qdrant_connect := Return tt;
     qdrant_get_collections := Return tt;
     qdrant_search := sample_index;
     time_at_lookup := 1000;
     time_at_store := 1001 |}.

(** The service after start-up, warmed up: model loaded, client connected. *)
Definition warm_system : system :=
  set_client_connected true (set_model_loaded true (initial_system ∅)).

(** The warm service over a cache directory that holds the embedding of
    [hello world]. *)
Definition system_with_cached_entry : system :=
  set_embedding_cache
    (λ _, new_cache {[ py "hello world" := Pickle [1 # 10; 2 # 10; 3 # 10] ]})
    warm_system.

(** The warm service over a cache directory in which the name for
    [hello world] neither loads nor can be removed. *)
Definition system_with_unremovable_entry : system :=
  set_embedding_cache (λ _, cache_with_unremovable_entry) warm_system.

(** A metadata filter on the file name. *)
Definition sample_filters : filters :=
  Some [(py "file_name", FString (py "report.docx"))].

(** Ten candidates from one source file, with scores 0.50 to 0.95. *)
Definition ten_from_one_source : list SearchResult :=
  List.map
    (λ i, new_SearchResult (py "report_" ++ [N.of_nat i])
            (py "minutes of the quarterly planning meeting held in the main office last week")
            (inject_Z (50 + 5 * Z.of_nat i) / 100)
            (py "docs/report.docx") ∅)
    (seq 0 10).

End Samples.

(** ** More of the document processor: words, chunk objects *)

Module Documents.
Import PyStr Chunker.
Local Open Scope Z_scope.

(** The words of the previous segment that the overlap loop repeats in front
    of the segment at index [i]. *)
Definition overlap_words (chunk_overlap : Z) (chunks : list str) (i : nat) : list str :=
  if (0 <? Z.of_nat i) && (0 <? chunk_overlap)
  then slice_from ((- chunk_overlap) / 10) (split (default [] (chunks !! (i - 1)%nat)))
  else [].

(** The words held by the state of an accumulation loop: those of the
    segments emitted so far, then those of the running buffer. *)
Definition words_of_state (st : list str * str) : list str :=
  concat (List.map split (fst st)) ++ split (snd st).

(** No two neighbours of [s] are both in the class. *)
Fixpoint no_adjacent (cls : char → bool) (s : str) : Prop :=
  match s with
  | [] => True
  | c :: s' =>
      match s' with
      | [] => True
      | d :: _ => (cls c && cls d = false) ∧ no_adjacent cls s'
      end
  end.

(** The string neither starts nor ends with white space. *)
Definition trimmed (s : str) : Prop :=
  match s with
  | [] => True
  | c :: _ => is_space c = false ∧ is_space (List.last s c) = false
  end.

End Documents.

(** ** The query cache across calls *)

Module QueryCache.
Import PyStr Runtime EmbeddingCache Model SearchService.

(** The call stored its results: it carried no filters, computed its answer
    and the answer is not empty. *)
Definition stores (f : filters) (resp : response) : bool :=
  negb (filters_truthy f)
  && bool_decide (cached resp = Some false)
  && match results resp with [] => false | _ :: _ => true end.

(** No entry carries a time stamp later than [now]. *)
Definition stamped_by (now : Q)
    (qc : list (cache_key * (list SearchResult * Q))) : Prop :=
  Forall (λ e, Qle e.2.2 now) qc.

(** The response of a call answered from the query cache. *)
Definition served_from_cache (query : str) (cached_results : list SearchResult)
    : response :=
  {| success := true; message_of := None; query_of := Some (strip query);
     results := cached_results; cached := Some true |}.

End QueryCache.

(** ** What ranking makes of a result *)

Module Ranking.
Import PyStr Runtime Model.
Local Open Scope Q_scope.

(** The score as [SearchResult.__post_init__] leaves it:
    [max(0.0, min(1.0, score))]. *)
Definition unit_score (q : Q) : Q := py_max 0 (py_min 1 q).

(** [r'] is the result [r] after ranking: the same chunk, text and source
    file, the score of [r] recorded as [original_score], and a score in the
    unit interval that is at least 0.72 times and at most 0.1 above the
    score of [r] as the constructor clamps it. *)
Definition ranked_from (r r' : SearchResult) : Prop :=
  chunk_id r' = chunk_id r
  ∧ text r' = text r
  ∧ source_file r' = source_file r
  ∧ metadata r' !! py "original_score" = Some (PFloat (score r))
  ∧ 0 <= score r' ∧ score r' <= 1
  ∧ (72 # 100) * unit_score (score r) <= score r'
  ∧ score r' <= unit_score (score r) + (1 # 10).

End Ranking.

(** ** What [search_similar] hands back *)

Module StoreShape.
Import PyStr Runtime Model.
Local Open Scope Q_scope.

(** The filter values [search_similar] turns into a condition: strings,
    numbers and dictionaries with a [range] entry. *)
Definition supported (v : filter_value) : bool :=
  match v with
  | FOther => false
  | _ => true
  end.

(** A result as [search_similar] builds it: the score in the unit interval,
    the three payload keys that became fields absent from the metadata, and
    the file name in the metadata whenever the source file is not empty. *)
Definition well_formed (r : SearchResult) : Prop :=
  0 <= score r ∧ score r <= 1
  ∧ metadata r !! py "text" = None
  ∧ metadata r !! py "chunk_id" = None
  ∧ metadata r !! py "source_file" = None
  ∧ (source_file r ≠ [] → is_Some (metadata r !! py "file_name")).

End StoreShape.

(** ** Rate limiting: [RateLimiter] and [check_rate_limit] *)

Module RateLimiter.
Import PyStr Runtime.
Local Open Scope Z_scope.

(** The dictionary kept for a client. *)
Record client_data := {
  requests : Z;
  window_start : Q
}.

(** The limiter object. *)
Record limiter := {
  max_requests : Z;
  window_seconds : Z;
  clients : gmap str client_data
}.

(** [RateLimiter(max_requests, window_seconds)] *)
Definition new_limiter (max_requests window_seconds : Z) : limiter :=
  {| max_requests := max_requests; window_seconds := window_seconds;
     clients := ∅ |}.

(** The module-level limiter. *)
Definition rate_limiter : limiter := new_limiter 100 60.

Definition set_client (client_id : str) (d : client_data) (l : limiter) : limiter :=
  {| max_requests := max_requests l; window_seconds := window_seconds l;
     clients := <[client_id := d]> (clients l) |}.

(** [is_allowed], with [time.time()] as [now].  A client not seen before is
    entered with one request and allowed.  A request later than the window
    after its start opens a new window and is allowed.  Within the window the
    request is refused once the count has reached the maximum, and counted
    and allowed otherwise. *)
Definition is_allowed (now : Q) (client_id : str) (l : limiter) : bool * limiter :=
  match clients l !! client_id with
  | None =>
      (true, set_client client_id {| requests := 1; window_start := now |} l)
  | Some data =>
      if negb (Qle_bool (now - window_start data) (inject_Z (window_seconds l)))
      then (true, set_client client_id {| requests := 1; window_start := now |} l)
      else if max_requests l <=? requests data
      then (false, l)
      else (true, set_client client_id
                    {| requests := requests data + 1;
                       window_start := window_start data |} l)
  end.

(** [get_remaining] *)
Definition get_remaining (client_id : str) (l : limiter) : Z :=
  match clients l !! client_id with
  | None => max_requests l
  | Some data => Z.max 0 (max_requests l - requests data)
  end.

(** The [HTTPException] of [check_rate_limit]: the status and the numbers
    its headers report. *)
Record too_many_requests := {
  status_code : Z;
  retry_after : Z;
  rate_limit_limit : Z;
  rate_limit_remaining : Z
}.

(** [check_rate_limit] for the client address [client_id]: nothing on an
    allowed request, the exception on a refused one. *)
Definition check_rate_limit (now : Q) (client_id : str) (l : limiter)
    : option too_many_requests * limiter :=
  let '(allowed, l') := is_allowed now client_id l in
  if negb allowed
  then (Some {| status_code := 429;
                retry_after := window_seconds l';
                rate_limit_limit := max_requests l';
                rate_limit_remaining := get_remaining client_id l' |}, l')
  else (None, l').

(** A sequence of requests, each with its time and client: the decisions. *)
Fixpoint decisions (calls : list (Q * str)) (l : limiter) : list (str * bool) :=
  match calls with
  | [] => []
  | (now, client_id) :: calls' =>
      let '(allowed, l') := is_allowed now client_id l in
      (client_id, allowed) :: decisions calls' l'
  end.

(** How many requests of the client were made, and how many were allowed. *)
Definition made_by (client_id : str) (calls : list (Q * str)) : nat :=
  length (List.filter (λ call, bool_decide (call.2 = client_id)) calls).

Definition allowed_to (client_id : str) (ds : list (str * bool)) : nat :=
  length (List.filter (λ d, bool_decide (d.1 = client_id) && d.2) ds).

(** The time of the first request of the client. *)
Fixpoint first_request (client_id : str) (calls : list (Q * str)) : option Q :=
  match calls with
  | [] => None
  | (now, c) :: calls' =>
      if bool_decide (c = client_id) then Some now
      else first_request client_id calls'
  end.

(** Every request of the client comes no later than the window after [t0]. *)
Definition within_window (window : Z) (t0 : Q) (client_id : str)
    (calls : list (Q * str)) : Prop :=
  Forall (λ call, call.2 = client_id → Qle (call.1 - t0) (inject_Z window)) calls.

(** The requests of the client all fall in the window its first request
    opens. *)
Definition in_one_window (window : Z) (client_id : str)
    (calls : list (Q * str)) : Prop :=
  match first_request client_id calls with
  | None => True
  | Some t0 => within_window window t0 client_id calls
  end.

End RateLimiter.

(** ** Documents into chunks: [DocumentProcessor.process_document] *)

Module Processor.
Import PyStr Runtime Chunker.

(** The decimal digits of a number, as characters. *)
Fixpoint digits (u : Decimal.uint) : str :=
  match u with
  | Decimal.Nil => []
  | Decimal.D0 u => 48%N :: digits u
  | Decimal.D1 u => 49%N :: digits u
  | Decimal.D2 u => 50%N :: digits u
  | Decimal.D3 u => 51%N :: digits u
  | Decimal.D4 u => 52%N :: digits u
  | Decimal.D5 u => 53%N :: digits u
  | Decimal.D6 u => 54%N :: digits u
  | Decimal.D7 u => 55%N :: digits u
  | Decimal.D8 u => 56%N :: digits u
  | Decimal.D9 u => 57%N :: digits u
  end.

(** The format [{i:04d}] of an index: decimal, padded with zeros on the
    left to four characters. *)
Definition format_04d (i : nat) : str :=
  let d := digits (Nat.to_uint i) in
  repeat 48%N (4 - length d) ++ d.

(** The chunk id: the stem of the file, an underscore and the index. *)
Definition chunk_id_of (stem : str) (i : nat) : str :=
  stem ++ [95%N] ++ format_04d i.

(** The number a string of digits stands for. *)
Definition digit_value (s : str) : nat :=
  fold_left (λ acc c, (10 * acc + (N.to_nat c - 48))%nat) s 0%nat.

(** [DocumentChunk] *)
Record DocumentChunk := {
  text : str;
  chunk_id : str;
  source_file : str;
  page_number : option Z;
  chunk_index : nat;
  metadata : gmap str pyval;
  word_count : nat;
  char_count : Z;
  created_at : str
}.

(** The constructor, called as [process_document] calls it and at the time
    [now]; the counts are taken from the text. *)
Definition new_DocumentChunk (now : str) (text chunk_id source_file : str)
    (chunk_index : nat) (metadata : gmap str pyval) : DocumentChunk :=
  {| text := text; chunk_id := chunk_id; source_file := source_file;
     page_number := None; chunk_index := chunk_index; metadata := metadata;
     word_count := length (split text); char_count := len text;
     created_at := now |}.

(** A path as the code reads it: its text, its last component, and the stem
    and the suffix of that component. *)
Record file := {
  path : str;
  name : str;
  stem : str;
  suffix : str
}.

(** The outcomes of a list of steps: the first exception, or all values. *)
Fixpoint collect {A} (l : list (result A)) : result (list A) :=
  match l with
  | [] => Return []
  | Raise e :: _ => Raise e
  | Return a :: l' =>
      match collect l' with
      | Return rest => Return (a :: rest)
      | Raise e => Raise e
      end
  end.

Section Process.

(** [str.isalnum] and [str.lower]; the configured chunk size and overlap. *)
Variable is_alnum : char → bool.
Variable lower : str → str.
Variables chunk_size chunk_overlap : Z.

(** The extractors, which return the text and the document metadata and
    answer a file they cannot read with the empty text. *)
Variable extract_text_from_docx : file → str * gmap str pyval.
Variable extract_text_from_pdf : file → str * gmap str pyval.
Variable extract_text_from_txt : file → str * gmap str pyval.

(** [file_path.stat()], read as the size and the modification time in ISO
    format, or an exception; the file is taken not to change during the
    call.  The time [datetime.now().isoformat()]. *)
Variable stat : file → result (Z * str).
Variable now : str.

(** One pass of the loop that builds the chunk objects. *)
Definition chunk_of (f : file) (doc_metadata : gmap str pyval)
    (i : nat) (chunk_text : str) : result DocumentChunk :=
  match stat f with
  | Raise e => Raise e
  | Return (st_size, file_modified) =>
      let chunk_metadata :=
        <[py "file_modified" := PStr file_modified]>
          (<[py "file_size" := PInt st_size]>
             (<[py "file_path" := PStr (path f)]>
                (<[py "file_name" := PStr (name f)]> doc_metadata))) in
      Return (new_DocumentChunk now chunk_text (chunk_id_of (stem f) i)
                (path f) i chunk_metadata)
  end.

(** The text and metadata of a file, by its extension in lower case; none
    for the legacy [.doc] format and for any other extension. *)
Definition extracted (f : file) : option (str * gmap str pyval) :=
  let file_extension := lower (suffix f) in
  if bool_decide (file_extension = py ".docx") then Some (extract_text_from_docx f)
  else if bool_decide (file_extension = py ".pdf") then Some (extract_text_from_pdf f)
  else if bool_decide (file_extension = py ".txt") then Some (extract_text_from_txt f)
  else None.

(** [process_document] *)
Definition process_document (f : file) : result (list DocumentChunk) :=
  match extracted f with
  | None => Return []
  | Some (text, doc_metadata) =>
      if negb (truthy text) then Return []
      else
        let cleaned_text := clean_text is_alnum text in
        let text_chunks := split_into_chunks chunk_size chunk_overlap cleaned_text in
        collect (imap (chunk_of f doc_metadata) text_chunks)
  end.

(** [process_all_documents] over the documents discovered: the chunks of
    every document, a document that fails being skipped. *)
Definition process_all_documents (documents : list file) : list DocumentChunk :=
  concat (List.map (λ doc_path,
                      match process_document doc_path with
                      | Return chunks => chunks
                      | Raise _ => []
                      end) documents).

End Process.

End Processor.

(** ** [EmbeddingService.encode_batch] *)

Module EmbeddingBatch.
Import PyStr Runtime EmbeddingCache Model EmbeddingService.

(** A loop that threads an accumulator through a computation. *)
Fixpoint foldM {S A B} (f : A → B → M S A) (l : list B) (a : A) : M S A :=
  match l with
  | [] => mret a
  | b :: l' => f a b ≫= foldM f l'
  end.

(** The three lists the cache loop builds. *)
Record lookup_state := {
  embeddings : list (option vector);
  texts_to_compute : list str;
  indices_to_compute : list nat
}.

(** The lists agree: there is a text for every index to compute, and the
    indices to compute are the places of the placeholders. *)
Definition consistent (ls : lookup_state) : Prop :=
  length (texts_to_compute ls) = length (indices_to_compute ls)
  ∧ ∀ i, i ∈ indices_to_compute ls ↔ embeddings ls !! i = Some None.

(** The list [embeddings] beside the state of the services, for the part of
    the function that assigns to it in place. *)
Abbreviation locals := (list (option vector)) (only parsing).

Definition on_system {A} (m : M system A) : M (system * locals) A :=
  λ st, let '(r, s') := m st.1 in (r, (s', st.2)).

Definition with_locals (m : M (system * locals) unit) (e : locals)
    : M system (list (option vector)) :=
  λ s, let '(r, st) := m (s, e) in
       (match r with
        | Return _ => Return st.2
        | Raise x => Raise x
        end, st.1).

(** [embeddings[i] = v]: an index out of range raises [IndexError], shown
    here as a [RuntimeError]; the handler that catches it does not look at
    the exception. *)
Definition assign (i : nat) (v : vector) : M (system * locals) unit :=
  gets (λ st : system * locals, length st.2) ≫= λ n : nat,
  if (i <? n)%nat
  then modify (λ st : system * locals, (st.1, <[i := Some v]> st.2))
  else raise RuntimeError.

Section Batch.
Variable cfg : settings.
Variable env : environment.

(** [self.model.encode(texts_to_compute, ...)], the vectors in order. *)
Variable encode_many : list str → result (list vector).

(** The cache loop, one text. *)
Definition check_cache_step (acc : lookup_state) (it : nat * str)
    : M system lookup_state :=
  on_embedding_cache (get (sha256_hex env) it.2) ≫= λ cached_embedding,
  match cached_embedding with
  | Some embedding =>
      mret {| embeddings := embeddings acc ++ [Some embedding];
              texts_to_compute := texts_to_compute acc;
              indices_to_compute := indices_to_compute acc |}
  | None =>
      mret {| embeddings := embeddings acc ++ [None];
              texts_to_compute := texts_to_compute acc ++ [it.2];
              indices_to_compute := indices_to_compute acc ++ [it.1] |}
  end.

Definition check_cache (normalized_texts : list str) : M system lookup_state :=
  foldM check_cache_step (imap pair normalized_texts)
    {| embeddings := []; texts_to_compute := []; indices_to_compute := [] |}.

(** The loop that places the computed vectors, one pass: [i] counts the
    passes, [it.2] is the pair of [zip(computed_embeddings,
    indices_to_compute)]. *)
Definition store_step (use_cache : bool) (texts : list str) (_ : unit)
    (it : nat * (vector * nat)) : M (system * locals) unit :=
  assign it.2.2 it.2.1;;
  if use_cache
  then match texts !! it.1 with
       | Some text =>
           on_system (on_embedding_cache
                        (put (sha256_hex env) (cache_write env) text it.2.1))
       | None => raise RuntimeError
       end
  else mret tt.

(** The handler, one index: a placeholder there becomes the zero vector.
    An index out of range raises as in [assign]. *)
Definition fill_step (_ : unit) (i : nat) : M (system * locals) unit :=
  gets (λ st : system * locals, st.2 !! i) ≫= λ entry : option (option vector),
  match entry with
  | None => raise RuntimeError
  | Some None =>
      modify (λ st : system * locals,
                (st.1, <[i := Some (zeros (embedding_dimension cfg))]> st.2))
  | Some (Some _) => mret tt
  end.

(** The [try] statement. *)
Definition compute_missing (use_cache : bool) (ls : lookup_state)
    : M (system * locals) unit :=
  try_except
    (on_system (lift (encode_many (texts_to_compute ls))) ≫= λ computed_embeddings,
     foldM (store_step use_cache (texts_to_compute ls))
       (imap pair (zip computed_embeddings (indices_to_compute ls))) tt)
    (λ _, foldM fill_step (indices_to_compute ls) tt).

(** [encode_batch].  The model is loaded outside the [try], so a model that
    cannot be loaded makes the call raise. *)
Definition encode_batch (texts : list str) (use_cache : bool)
    : M system (list (option vector)) :=
  match texts with
  | [] => mret []
  | _ :: _ =>
      let normalized_texts := List.map strip texts in
      (if use_cache
       then check_cache normalized_texts
       else mret {| embeddings := repeat None (length texts);
                    texts_to_compute := normalized_texts;
                    indices_to_compute := seq 0 (length texts) |}) ≫= λ ls,
      match texts_to_compute ls with
      | _ :: _ =>
          load_model env;;
          with_locals (compute_missing use_cache ls) (embeddings ls)
      | [] => mret (embeddings ls)
      end
  end.

End Batch.

End EmbeddingBatch.

(** ** [SearchService.clear_cache] *)

Module Maintenance.
Import PyStr Runtime EmbeddingCache Model.

(** The dictionary [clear_cache] returns: the flag and, on success, the
    numbers under [cleared_items]. *)
Record cleared := {
  success : bool;
  cleared_query_cache : option nat;
  cleared_embedding_cache : option nat
}.

(** [clear_cache]: the query cache and the memory tier of the embedding
    cache are emptied, and their sizes before that are reported. *)
Definition clear_cache : M system cleared :=
  try_except
    (gets (λ s : system, length (query_cache s)) ≫= λ query_cache_size : nat,
     modify (set_query_cache (λ _, []));;
     gets (λ s : system, size (memory_cache (embedding_cache s)))
       ≫= λ embedding_cache_size : nat,
     modify (set_embedding_cache (set_memory (λ _, ∅)));;
     mret {| success := true;
             cleared_query_cache := Some query_cache_size;
             cleared_embedding_cache := Some embedding_cache_size |})
    (λ _, mret {| success := false; cleared_query_cache := None;
                  cleared_embedding_cache := None |}).

End Maintenance.

(** ** [compute_similarity] and [find_most_similar] *)

Module Similarity.
Import PyStr Runtime.
Local Open Scope Q_scope.

(** [np.dot] of two one-dimensional arrays of the same length. *)
Fixpoint dot (a b : vector) : Q :=
  match a, b with
  | x :: a', y :: b' => x * y + dot a' b'
  | _, _ => 0
  end.

(** [np.clip(x, -1.0, 1.0)] *)
Definition clip (x : Q) : Q :=
  if Qle_bool x (-1) then -1 else if Qle_bool 1 x then 1 else x.

(** [compute_similarity]: the clipped dot product; arrays of different
    lengths make [np.dot] raise, which the function answers with 0.0. *)
Definition compute_similarity (embedding1 embedding2 : vector) : Q :=
  if Nat.eqb (length embedding1) (length embedding2)
  then clip (dot embedding1 embedding2)
  else 0.

(** [list.sort(key=lambda x: x[1], reverse=True)]: a stable sort by
    descending similarity. *)
Fixpoint insert_by_similarity (p : nat * Q) (l : list (nat * Q)) : list (nat * Q) :=
  match l with
  | [] => [p]
  | p' :: l' =>
      if Qle_bool p'.2 p.2 then p :: p' :: l'
      else p' :: insert_by_similarity p l'
  end.

Definition sort_by_similarity (l : list (nat * Q)) : list (nat * Q) :=
  foldr insert_by_similarity [] l.

(** The slice [l[:k]]: the first [k] elements, or all but the last [-k] when
    [k] is negative. *)
Definition slice_to {A} (k : Z) (l : list A) : list A :=
  if (0 <=? k)%Z then take (Z.to_nat k) l
  else take (length l - Z.to_nat (- k)) l.

(** The pairs of index and similarity, before they are sorted. *)
Definition similarities (query_embedding : vector)
    (candidate_embeddings : list vector) : list (nat * Q) :=
  imap (λ i candidate, (i, compute_similarity query_embedding candidate))
    candidate_embeddings.

(** [find_most_similar] *)
Definition find_most_similar (query_embedding : vector)
    (candidate_embeddings : list vector) (top_k : Z) : list (nat * Q) :=
  match candidate_embeddings with
  | [] => []
  | _ :: _ =>
      slice_to top_k
        (sort_by_similarity (similarities query_embedding candidate_embeddings))
  end.

End Similarity.

(** ** Sample documents *)

Module SampleDocuments.
Import PyStr Runtime Chunker Processor.

(** Two files with the same stem, in different formats. *)
Definition report_txt : file :=
  {| path := py "docs/report.txt"; name := py "report.txt";
     stem := py "report"; suffix := py ".txt" |}.

Definition report_pdf : file :=
  {| path := py "docs/report.pdf"; name := py "report.pdf";
     stem := py "report"; suffix := py ".pdf" |}.

Definition notes_txt : file :=
  {| path := py "docs/notes.TXT"; name := py "notes.TXT";
     stem := py "notes"; suffix := py ".TXT" |}.

(** Extractors that read the same two sentences from every file, and a file
    status that is always available. *)
Definition sample_extract (f : file) : str * gmap str pyval := (two_sentences, ∅).

Definition sample_stat (f : file) : result (Z * str) :=
  Return (123%Z, py "2024-01-01T00:00:00").

(** The processor with chunk size 100 and overlap 15 over these. *)
Definition sample_process_document : file → result (list DocumentChunk) :=
  process_document ascii_alnum Samples.ascii_lower 100 15
    sample_extract sample_extract sample_extract sample_stat
    (py "2024-01-02T00:00:00").

Definition sample_process_all_documents : list file → list DocumentChunk :=
  process_all_documents ascii_alnum Samples.ascii_lower 100 15
    sample_extract sample_extract sample_extract sample_stat
    (py "2024-01-02T00:00:00").

End SampleDocuments.

(** ** The ranges [validate_search_limits] accepts *)

Module LimitRanges.
Import PyStr Runtime Model.

(** A limit that is given lies between 1 and 100. *)
Definition limit_in_range (limit : option Z) : Prop :=
  match limit with
  | Some limit => (1 <= limit <= 100)%Z
  | None => True
  end.

(** A threshold that is given lies between 0 and 1. *)
Definition threshold_in_range (score_threshold : option Q) : Prop :=
  match score_threshold with
  | Some score_threshold => (0 <= score_threshold)%Q ∧ (score_threshold <= 1)%Q
  | None => True
  end.

End LimitRanges.

(** ** Indexing: [VectorStoreService.index_document_chunks_batch] *)

Module Indexing.
Import PyStr Runtime Model VectorStore.

(** [PointStruct(id, vector, payload)] *)
Record point := {
  point_id : str;
  point_vector : vector;
  point_payload : gmap str pyval
}.

(** The payload of a chunk: the fields of the chunk, then the chunk's
    metadata unpacked over them, so that a metadata key wins over a field of
    the same name. *)
Definition payload_of (chunk : Processor.DocumentChunk) : gmap str pyval :=
  Processor.metadata chunk
  ∪ <[py "text" := PStr (Processor.text chunk)]>
      (<[py "chunk_id" := PStr (Processor.chunk_id chunk)]>
         (<[py "source_file" := PStr (Processor.source_file chunk)]>
            (<[py "chunk_index" := PInt (Z.of_nat (Processor.chunk_index chunk))]>
               (<[py "word_count" := PInt (Z.of_nat (Processor.word_count chunk))]>
                  (<[py "char_count" := PInt (Processor.char_count chunk)]>
                     (<[py "created_at" := PStr (Processor.created_at chunk)]> ∅)))))).

(** The [ValueError] raised for lists of different lengths. *)
Inductive value_error := ValueError.

(** [range(0, stop, step)] for a positive step. *)
Definition range_step (stop step : nat) : list nat :=
  List.map (λ k, k * step)%nat (seq 0 ((stop + step - 1) / step)).

Section Index.
Variable env : environment.

(** [str(uuid.uuid5(uuid.NAMESPACE_DNS, chunk_id))] *)
Variable uuid5 : str → str.

(** [client.upsert(collection_name, points, wait=True)]: whether the status
    returned is [completed], or an exception. *)
Variable upsert : list point → result bool.

Definition point_of (chunk : Processor.DocumentChunk) (embedding : vector) : point :=
  {| point_id := uuid5 (Processor.chunk_id chunk);
     point_vector := embedding;
     point_payload := payload_of chunk |}.

(** The points of the batch that starts at [i]. *)
Definition batch_points (chunks : list Processor.DocumentChunk)
    (embeddings : list vector) (batch_size i : nat) : list point :=
  zip_with point_of (take batch_size (drop i chunks))
    (take batch_size (drop i embeddings)).

(** One pass of the loop: the batch is counted when the insert completes; a
    failure of the insert is logged and the loop goes on. *)
Definition index_batch (chunks : list Processor.DocumentChunk)
    (embeddings : list vector) (batch_size : nat)
    (indexed_count : Z) (i : nat) : M system Z :=
  let points := batch_points chunks embeddings batch_size i in
  try_except
    (lift (upsert points) ≫= λ completed : bool,
     if completed then mret (indexed_count + Z.of_nat (length points))%Z
     else mret indexed_count)
    (λ _, mret indexed_count).

(** [index_document_chunks_batch].  The lengths are compared outside the
    [try].  Inside it only the connection and [range], which rejects a step
    of zero, can raise before the loop starts, and nothing can raise in the
    loop outside the inner [try]; so the handler returns the count 0. *)
Definition index_document_chunks_batch (chunks : list Processor.DocumentChunk)
    (embeddings : list vector) (batch_size : Z) : M system (value_error + Z) :=
  if negb (Nat.eqb (length chunks) (length embeddings))
  then mret (inl ValueError)
  else
    try_except
      (get_client env;;
       if (batch_size =? 0)%Z then raise RuntimeError
       else
         let starts :=
           if (0 <? batch_size)%Z
           then range_step (length chunks) (Z.to_nat batch_size)
           else [] in
         EmbeddingBatch.foldM
           (index_batch chunks embeddings (Z.to_nat batch_size)) starts 0%Z
           ≫= λ indexed_count : Z, mret (inr indexed_count))
      (λ _, mret (inr 0%Z)).

End Index.

End Indexing.

(** * Properties *)

(** ** Strings *)

Module PyStrFacts.
Import PyStr.
Local Open Scope Z_scope.

Lemma len_app (s t : str) : len (s ++ t) = len s + len t.
Proof. unfold len. rewrite length_app. lia. Qed.

Lemma len_cons (c : char) (s : str) : len (c :: s) = 1 + len s.
Proof. unfold len. simpl. lia. Qed.

Lemma len_nonneg (s : str) : 0 <= len s.
Proof. unfold len. lia. Qed.

Lemma truthy_true (s : str) : truthy s = true ↔ s ≠ [].
Proof. destruct s; simpl; split; congruence. Qed.

Lemma truthy_false (s : str) : truthy s = false ↔ s = [].
Proof. destruct s; simpl; split; congruence. Qed.

Lemma lstrip_length (s : str) : (length (lstrip s) <= length s)%nat.
Proof.
  induction s as [|c s IH]; simpl; [lia|].
  destruct (is_space c); simpl; lia.
Qed.

Lemma strip_length (s : str) : len (strip s) <= len s.
Proof.
  unfold strip, rstrip, len.
  rewrite length_rev.
  pose proof (lstrip_length (rev (lstrip s))) as H1.
  rewrite length_rev in H1.
  pose proof (lstrip_length s). lia.
Qed.

Lemma lstrip_head_nonspace (c : char) (s : str) :
  is_space c = false → lstrip (c :: s) = c :: s.
Proof. intros H. simpl. now rewrite H. Qed.

Lemma lstrip_all_space (s : str) : all_space s → lstrip s = [].
Proof.
  induction 1 as [|c s Hc _ IH]; simpl; [done|]. now rewrite Hc.
Qed.

Lemma strip_all_space (s : str) : all_space s → strip s = [].
Proof. intros H. unfold strip. now rewrite (lstrip_all_space s H). Qed.

Lemma lstrip_lstrip (s : str) : lstrip (lstrip s) = lstrip s.
Proof.
  induction s as [|c s IH]; simpl; [done|].
  destruct (is_space c) eqn:Hc; [done|]. simpl. now rewrite Hc.
Qed.

Lemma lstrip_snoc_nonspace (s : str) (c : char) :
  is_space c = false → lstrip (s ++ [c]) = lstrip s ++ [c].
Proof.
  intros Hc. induction s as [|d s IH]; simpl; [now rewrite Hc|].
  now destruct (is_space d).
Qed.

Lemma rstrip_cons_nonspace (c : char) (s : str) :
  is_space c = false → rstrip (c :: s) = c :: rstrip s.
Proof.
  intros Hc. unfold rstrip. simpl.
  rewrite (lstrip_snoc_nonspace _ _ Hc), rev_app_distr. reflexivity.
Qed.

Lemma rstrip_rstrip (s : str) : rstrip (rstrip s) = rstrip s.
Proof. unfold rstrip. now rewrite rev_involutive, lstrip_lstrip. Qed.

Lemma lstrip_head (s : str) (c : char) (t : str) :
  lstrip s = c :: t → is_space c = false.
Proof.
  induction s as [|d s IH]; simpl; [done|].
  destruct (is_space d) eqn:Hd; [done|]. now intros [= <- _].
Qed.

(** Stripping a stripped string changes nothing. *)
Lemma strip_strip (s : str) : strip (strip s) = strip s.
Proof.
  unfold strip. destruct (lstrip s) as [|c t] eqn:Hl; [reflexivity|].
  pose proof (lstrip_head s c t Hl) as Hc.
  rewrite (rstrip_cons_nonspace c t Hc).
  rewrite (lstrip_head_nonspace c _ Hc).
  rewrite (rstrip_cons_nonspace c _ Hc).
  now rewrite rstrip_rstrip.
Qed.

Lemma strip_single_word (s : str) : single_word s → strip s = s.
Proof.
  intros [Hne Hall]. unfold strip, rstrip.
  destruct s as [|c s]; [done|].
  rewrite lstrip_head_nonspace by (now inversion Hall).
  destruct (rev (c :: s)) as [|d r] eqn:Hr.
  - apply (f_equal (@length _)) in Hr. rewrite length_rev in Hr. done.
  - assert (Hd : is_space d = false).
    { assert (Hin : In d (c :: s)).
      { apply in_rev. rewrite Hr. now left. }
      rewrite List.Forall_forall in Hall. now apply Hall. }
    rewrite lstrip_head_nonspace by done.
    rewrite <- Hr. apply rev_involutive.
Qed.

Lemma single_word_rev (cur : str) :
  truthy cur = true → Forall (λ c, is_space c = false) cur →
  single_word (rev cur).
Proof.
  intros Ht Hall. split.
  - intros Hnil. apply (f_equal (@length _)) in Hnil.
    rewrite length_rev in Hnil. destruct cur; done.
  - now apply Forall_rev.
Qed.

(** Every word [split] returns is non-empty and free of white space. *)
Lemma split_go_words (cur s : str) :
  Forall (λ c, is_space c = false) cur →
  Forall single_word (split_go cur s).
Proof.
  revert cur. induction s as [|c s IH]; intros cur Hcur; simpl.
  - destruct (truthy cur) eqn:Ht; [|constructor].
    constructor; [now apply single_word_rev|constructor].
  - destruct (is_space c) eqn:Hc.
    + destruct (truthy cur) eqn:Ht; [|apply IH; constructor].
      constructor; [now apply single_word_rev|apply IH; constructor].
    + apply IH. now constructor.
Qed.

Lemma split_words (s : str) : Forall single_word (split s).
Proof. apply split_go_words. constructor. Qed.

(** [join] and [split] never lengthen a string. *)

Lemma spaced_length_nonneg (l : list str) : 0 <= spaced_length l.
Proof.
  induction l as [|w l IH]; simpl; [lia|]. pose proof (len_nonneg w). lia.
Qed.

Lemma len_join (l : list str) : len (join SP l) <= spaced_length l.
Proof.
  induction l as [|w l IH]; [simpl; unfold len; simpl; lia|].
  destruct l as [|w' l].
  - simpl. lia.
  - change (join SP (w :: w' :: l)) with (w ++ SP :: join SP (w' :: l)).
    rewrite len_app, len_cons.
    change (spaced_length (w :: w' :: l))
      with (len w + 1 + spaced_length (w' :: l)).
    lia.
Qed.

Lemma len_join_strict (l : list str) :
  l ≠ [] → len (join SP l) + 1 <= spaced_length l.
Proof.
  induction l as [|w l IH]; [done|]. intros _.
  destruct l as [|w' l].
  - simpl. lia.
  - change (join SP (w :: w' :: l)) with (w ++ SP :: join SP (w' :: l)).
    rewrite len_app, len_cons.
    change (spaced_length (w :: w' :: l))
      with (len w + 1 + spaced_length (w' :: l)).
    specialize (IH ltac:(done)). lia.
Qed.

Lemma spaced_length_drop (n : nat) (l : list str) :
  spaced_length (drop n l) <= spaced_length l.
Proof.
  revert n. induction l as [|w l IH]; intros [|n]; simpl; try lia.
  specialize (IH n). pose proof (len_nonneg w). lia.
Qed.

Lemma spaced_length_split_go (cur s : str) :
  spaced_length (split_go cur s) <= len cur + len s + 1.
Proof.
  assert (Hrev : ∀ r : str, len (rev r) = len r).
  { intros r. unfold len. now rewrite length_rev. }
  revert cur. induction s as [|c s IH]; intros cur.
  - cbn [split_go]. destruct (truthy cur); cbn [spaced_length].
    + rewrite Hrev. change (len []) with 0. lia.
    + pose proof (len_nonneg cur). change (len []) with 0. lia.
  - cbn [split_go]. rewrite len_cons. destruct (is_space c).
    + specialize (IH []). change (len []) with 0 in IH.
      destruct (truthy cur); cbn [spaced_length].
      * rewrite Hrev. lia.
      * pose proof (len_nonneg cur). lia.
    + specialize (IH (c :: cur)). rewrite len_cons in IH. lia.
Qed.

(** The last words of a string, joined by single spaces, are no longer than
    the string. *)
Lemma len_join_slice_split (j : Z) (s : str) :
  len (join SP (slice_from j (split s))) <= len s.
Proof.
  unfold slice_from.
  set (n := Z.to_nat _).
  destruct (drop n (split s)) as [|w l] eqn:Hd.
  - simpl. apply len_nonneg.
  - pose proof (len_join_strict (w :: l) ltac:(done)) as H1.
    pose proof (spaced_length_drop n (split s)) as H2. rewrite Hd in H2.
    pose proof (spaced_length_split_go [] s) as H3.
    unfold split in H2. change (len []) with 0 in H3. lia.
Qed.

End PyStrFacts.

(** ** The chunker *)

Module ChunkerFacts.
Import PyStr PyStrFacts Chunker.
Local Open Scope Z_scope.

(** A loop invariant holds after a [for] loop when it holds before it and
    every iteration keeps it. *)
Lemma fold_left_invariant {A B} (P : A → Prop) (f : A → B → A) (l : list B) (a : A) :
  P a → (∀ st x, In x l → P st → P (f st x)) → P (fold_left f l a).
Proof.
  revert a. induction l as [|x l IH]; intros a Ha Hstep; simpl; [done|].
  apply IH.
  - apply Hstep; [now left|done].
  - intros st y Hy. apply Hstep. now right.
Qed.

Section Bound.
Variables chunk_size chunk_overlap : Z.
Hypothesis size_nonneg : 0 <= chunk_size.

Local Abbreviation within_bound := (within_bound chunk_size).
Local Abbreviation word_step := (word_step chunk_size).
Local Abbreviation sentence_step := (sentence_step chunk_size).
Local Abbreviation state_bounded := (state_bounded chunk_size).

Lemma within_bound_nil : within_bound [].
Proof. left. exact size_nonneg. Qed.

Lemma within_bound_strip (s : str) : within_bound s → within_bound (strip s).
Proof.
  intros [Hle | [Hw Hgt]].
  - left. pose proof (strip_length s). lia.
  - right. now rewrite (strip_single_word s Hw).
Qed.

Lemma flush_bounded (chunks : list str) (cur : str) :
  Forall within_bound chunks → within_bound cur →
  Forall within_bound (flush chunks cur).
Proof.
  intros Hc Hcur. unfold flush. destruct (truthy cur); [|done].
  apply Forall_app. split; [done|].
  constructor; [now apply within_bound_strip|constructor].
Qed.

(** A buffer that was extended passed the length test. *)
Lemma extend_bounded (cur piece : str) :
  fits chunk_size cur piece = true → within_bound (extend cur piece).
Proof.
  unfold fits, extend. intros Hfit. apply Z.leb_le in Hfit.
  left. destruct (truthy cur); [done|].
  rewrite len_app, len_cons in Hfit. pose proof (len_nonneg cur). lia.
Qed.

Lemma word_step_bounded (st : list str * str) (word : str) :
  single_word word → state_bounded st → state_bounded (word_step st word).
Proof.
  destruct st as [chunks word_chunk]. intros Hw [Hc Hb]; simpl in *.
  unfold Chunker.word_step.
  destruct (fits chunk_size word_chunk word) eqn:Hfit; split; simpl.
  - done.
  - now apply extend_bounded.
  - now apply flush_bounded.
  - destruct (Z_le_gt_dec (len word) chunk_size); [now left|right].
    split; [done|lia].
Qed.

Lemma sentence_step_bounded (st : list str * str) (sentence : str) :
  state_bounded st → state_bounded (sentence_step st sentence).
Proof.
  destruct st as [chunks current_chunk]. intros [Hc Hb]; simpl in *.
  unfold Chunker.sentence_step.
  destruct (fits chunk_size current_chunk sentence) eqn:Hfit.
  - split; simpl; [done|now apply extend_bounded].
  - destruct (len sentence <=? chunk_size) eqn:Hlen.
    + split; simpl; [now apply flush_bounded|].
      left. now apply Z.leb_le.
    + apply fold_left_invariant.
      * split; simpl; [now apply flush_bounded|apply within_bound_nil].
      * intros st word Hin Hst. apply word_step_bounded; [|done].
        pose proof (split_words sentence) as Hws.
        rewrite List.Forall_forall in Hws. now apply Hws.
Qed.

(** Before the overlap is added every segment respects the size bound. *)
Lemma base_chunks_bounded (text : str) :
  Forall within_bound (base_chunks chunk_size text).
Proof.
  unfold base_chunks.
  assert (Hinv : state_bounded
    (fold_left sentence_step (split_sentences text) ([], []))).
  { apply fold_left_invariant.
    - split; simpl; [constructor|apply within_bound_nil].
    - intros st s _ Hst. now apply sentence_step_bounded. }
  destruct (fold_left _ _ _) as [chunks current_chunk].
  destruct Hinv as [Hc Hb]. now apply flush_bounded.
Qed.

Lemma chunks_before_overlap_bounded (text : str) :
  Forall within_bound (chunks_before_overlap chunk_size text).
Proof.
  unfold chunks_before_overlap.
  destruct (negb (truthy text) || (len text <? chunk_size)) eqn:Hshort.
  - destruct (truthy text) eqn:Ht; [|constructor].
    constructor; [|constructor]. left.
    simpl in Hshort. apply Z.ltb_lt in Hshort. lia.
  - apply base_chunks_bounded.
Qed.

(** The overlap loop puts [overlap_prefix] in front of each segment. *)
Lemma with_overlap_prefix (chunks : list str) (i : nat) (chunk : str) :
  with_overlap chunk_overlap chunks i chunk
  = overlap_prefix chunk_overlap chunks i ++ chunk.
Proof.
  unfold with_overlap, overlap_prefix.
  destruct ((0 <? Z.of_nat i) && (0 <? chunk_overlap)); [|done].
  now rewrite <- app_assoc.
Qed.

Lemma split_into_chunks_prefixed (text : str) :
  split_into_chunks chunk_size chunk_overlap text
  = imap (λ i base,
            overlap_prefix chunk_overlap (chunks_before_overlap chunk_size text) i
            ++ base)
         (chunks_before_overlap chunk_size text).
Proof.
  unfold split_into_chunks, chunks_before_overlap.
  destruct (negb (truthy text) || (len text <? chunk_size)).
  - destruct (truthy text); reflexivity.
  - unfold add_overlap. apply imap_ext. intros i base _.
    apply with_overlap_prefix.
Qed.

Lemma overlap_prefix_first (chunks : list str) :
  overlap_prefix chunk_overlap chunks 0 = [].
Proof. reflexivity. Qed.

Lemma overlap_prefix_length (chunks : list str) (i : nat) (prev : str) :
  chunks !! i = Some prev →
  len (overlap_prefix chunk_overlap chunks (S i)) <= len prev + 1.
Proof.
  intros Hprev. unfold overlap_prefix.
  destruct ((0 <? Z.of_nat (S i)) && (0 <? chunk_overlap)).
  - replace (S i - 1)%nat with i by lia. rewrite Hprev. simpl.
    rewrite len_app. unfold overlap_text.
    pose proof (len_join_slice_split (- chunk_overlap / 10) prev).
    change (len [SP]) with 1. lia.
  - pose proof (len_nonneg prev). change (len []) with 0. lia.
Qed.

End Bound.

(** C1, as the code has it.  For valid parameters, the segments respect the
    size bound before the overlap loop runs: each has at most [chunk_size]
    characters or is a single word longer than that.  The returned segments
    are these with the overlap prefix in front.  The prefix of the first
    segment is empty, so the bound holds for it; the prefix of a later segment
    is at most one character longer than the segment before it, and nothing
    trims the result back to [chunk_size]: a later segment has at most the
    length of its predecessor, one, and its own length before the overlap. *)
Theorem chunk_size_bound_before_overlap
    (chunk_size chunk_overlap : Z) (text : str) :
  100 <= chunk_size → chunk_overlap < chunk_size →
  let bases := chunks_before_overlap chunk_size text in
  Forall (within_bound chunk_size) bases
  ∧ split_into_chunks chunk_size chunk_overlap text
    = imap (λ i base, overlap_prefix chunk_overlap bases i ++ base) bases
  ∧ overlap_prefix chunk_overlap bases 0 = []
  ∧ (∀ i prev, bases !! i = Some prev →
       len (overlap_prefix chunk_overlap bases (S i)) <= len prev + 1)
  ∧ (∀ seg, split_into_chunks chunk_size chunk_overlap text !! 0%nat = Some seg →
       within_bound chunk_size seg)
  ∧ (∀ i prev base seg,
       bases !! i = Some prev → bases !! S i = Some base →
       split_into_chunks chunk_size chunk_overlap text !! S i = Some seg →
       len seg <= len prev + 1 + len base).
Proof.
  intros Hsize Hoverlap bases.
  assert (Hb : Forall (within_bound chunk_size) bases)
    by (apply chunks_before_overlap_bounded; lia).
  repeat split.
  - exact Hb.
  - apply split_into_chunks_prefixed.
  - intros i prev. apply overlap_prefix_length.
  - intros seg. rewrite split_into_chunks_prefixed.
    rewrite list_lookup_imap. fold bases.
    destruct (bases !! 0%nat) as [base|] eqn:Hbase; simpl; [|done].
    intros [= <-].
    rewrite Forall_lookup in Hb. now apply (Hb 0%nat).
  - intros i prev base seg Hprev Hbase.
    rewrite split_into_chunks_prefixed, list_lookup_imap. fold bases.
    rewrite Hbase. simpl. intros [= <-].
    rewrite len_app.
    pose proof (overlap_prefix_length chunk_overlap bases i prev Hprev). lia.
Qed.

Lemma chunk_size_bound_before_overlap_witness :
  let bases := chunks_before_overlap 100 two_sentences in
  Forall (within_bound 100) bases
  ∧ split_into_chunks 100 10 two_sentences
    = imap (λ i base, overlap_prefix 10 bases i ++ base) bases
  ∧ overlap_prefix 10 bases 0 = []
  ∧ (∀ i prev, bases !! i = Some prev →
       len (overlap_prefix 10 bases (S i)) <= len prev + 1)
  ∧ (∀ seg, split_into_chunks 100 10 two_sentences !! 0%nat = Some seg →
       within_bound 100 seg)
  ∧ (∀ i prev base seg,
       bases !! i = Some prev → bases !! S i = Some base →
       split_into_chunks 100 10 two_sentences !! S i = Some seg →
       len seg <= len prev + 1 + len base).
Proof.
  apply (chunk_size_bound_before_overlap 100 10 two_sentences); lia.
Defined.

(** C1, as stated, fails: with [chunk_size = 100] and [chunk_overlap = 10] the
    second segment of a text of two 61-character sentences is the first
    sentence, a space and the second sentence: 123 characters in two words. *)
Lemma chunk_size_bound_fails_with_overlap :
  100 <= 100 ∧ 10 < 100 ∧ ¬ size_bound_holds 100 10 two_sentences.
Proof.
  split; [lia|]. split; [lia|]. intros Hbound.
  assert (Hseg : split_into_chunks 100 10 two_sentences !! 1%nat
                 = Some (repeat 97%N 60 ++ py ". " ++ repeat 98%N 60 ++ py "."))
    by (vm_compute; reflexivity).
  apply list_elem_of_lookup_2 in Hseg. apply Hbound in Hseg.
  destruct Hseg as [Hle | [[_ Hword] _]].
  - vm_compute in Hle. now apply Hle.
  - rewrite List.Forall_forall in Hword.
    specialize (Hword 32%N). 
    assert (Hin : In 32%N (repeat 97%N 60 ++ py ". " ++ repeat 98%N 60 ++ py ".")).
    { apply in_or_app. right. apply in_or_app. left. vm_compute. tauto. }
    specialize (Hword Hin). vm_compute in Hword. discriminate.
Qed.

End ChunkerFacts.

(** ** Cleaning and the edge cases of chunking *)

Module CleaningFacts.
Import PyStr PyStrFacts Chunker.
Local Open Scope Z_scope.

(** A substitution whose replacement is no longer than the shortest run it
    replaces never lengthens the text. *)
Lemma flush_run_length (min : nat) (repl run : str) :
  (length repl <= min)%nat →
  (length (flush_run min repl run) <= length run)%nat.
Proof.
  intros Hrepl. unfold flush_run.
  destruct (min <=? length run)%nat eqn:Hmin.
  - apply Nat.leb_le in Hmin. lia.
  - now rewrite length_rev.
Qed.

Lemma sub_runs_go_length (cls : char → bool) (min : nat) (repl run s : str) :
  (length repl <= min)%nat →
  (length (sub_runs_go cls min repl run s) <= length run + length s)%nat.
Proof.
  intros Hrepl. revert run. induction s as [|c s IH]; intros run; simpl.
  - pose proof (flush_run_length min repl run Hrepl). lia.
  - destruct (cls c).
    + specialize (IH (c :: run)). simpl in IH. lia.
    + rewrite length_app. simpl.
      pose proof (flush_run_length min repl run Hrepl).
      specialize (IH []). simpl in IH. lia.
Qed.

Lemma sub_runs_length (cls : char → bool) (min : nat) (repl s : str) :
  (length repl <= min)%nat → len (sub_runs cls min repl s) <= len s.
Proof.
  intros Hrepl. unfold sub_runs, len.
  pose proof (sub_runs_go_length cls min repl [] s Hrepl) as H.
  simpl in H. lia.
Qed.

(** A text made of class characters only is one run. *)
Lemma sub_runs_go_one_run (cls : char → bool) (min : nat) (repl run s : str) :
  Forall (λ c, cls c = true) s →
  sub_runs_go cls min repl run s = flush_run min repl (rev s ++ run).
Proof.
  intros Hall. revert run.
  induction Hall as [|c s Hc _ IH]; intros run; simpl; [done|].
  rewrite Hc, IH. now rewrite <- app_assoc.
Qed.

Section Cleaning.
Variable is_alnum : char → bool.

Lemma is_stripped_space (c : char) :
  is_space c = true → is_stripped is_alnum c = false.
Proof.
  intros Hc. unfold is_stripped. rewrite Hc.
  now rewrite orb_true_r.
Qed.

(** Cleaning never lengthens the text. *)
Lemma clean_text_length (text : str) :
  len (clean_text is_alnum text) <= len text.
Proof.
  unfold clean_text.
  etransitivity; [apply strip_length|].
  etransitivity; [apply sub_runs_length; simpl; lia|].
  etransitivity; [apply sub_runs_length; simpl; lia|].
  etransitivity; [apply sub_runs_length; simpl; lia|].
  apply sub_runs_length; simpl; lia.
Qed.

(** White space alone is cleaned away. *)
Lemma clean_text_all_space (text : str) :
  all_space text → clean_text is_alnum text = [].
Proof.
  intros Hall. unfold clean_text.
  unfold sub_runs at 4. rewrite (sub_runs_go_one_run _ _ _ _ _ Hall).
  rewrite app_nil_r. unfold flush_run at 1. rewrite length_rev.
  destruct text as [|c text]; [reflexivity|].
  change (1 <=? length (c :: text))%nat with true. cbv iota.
  unfold sub_runs at 3. cbn [sub_runs_go].
  rewrite (is_stripped_space SP) by reflexivity.
  reflexivity.
Qed.

End Cleaning.

(** A non-empty text shorter than [chunk_size] is returned as it is. *)
Lemma split_into_chunks_short (chunk_size chunk_overlap : Z) (text : str) :
  text ≠ [] → len text < chunk_size →
  split_into_chunks chunk_size chunk_overlap text = [text].
Proof.
  intros Hne Hlen. unfold split_into_chunks.
  apply truthy_true in Hne. rewrite Hne.
  apply Z.ltb_lt in Hlen. now rewrite Hlen.
Qed.

Lemma split_into_chunks_empty (chunk_size chunk_overlap : Z) :
  split_into_chunks chunk_size chunk_overlap [] = [].
Proof. reflexivity. Qed.

(** C9.  Chunking a text that is empty or white space only yields no segment,
    and so does chunking any text that cleaning empties, such as one made of
    symbols that cleaning removes.  When the cleaned text, which is what the
    chunker receives, is non-empty and shorter than [chunk_size], chunking
    yields exactly one segment, equal to the cleaned text; and cleaning never
    lengthens a text, so this holds for every text shorter than [chunk_size]
    that cleaning does not empty. *)
Theorem chunk_edge_cases
    (is_alnum : char → bool) (chunk_size chunk_overlap : Z) (text : str) :
  (all_space text → chunk_document is_alnum chunk_size chunk_overlap text = [])
  ∧ (clean_text is_alnum text = [] →
     chunk_document is_alnum chunk_size chunk_overlap text = [])
  ∧ (clean_text is_alnum text ≠ [] →
     len (clean_text is_alnum text) < chunk_size →
     chunk_document is_alnum chunk_size chunk_overlap text
     = [clean_text is_alnum text])
  ∧ (text ≠ [] → len text < chunk_size →
     split_into_chunks chunk_size chunk_overlap text = [text])
  ∧ len (clean_text is_alnum text) <= len text
  ∧ (len text < chunk_size → clean_text is_alnum text ≠ [] →
     chunk_document is_alnum chunk_size chunk_overlap text
     = [clean_text is_alnum text]).
Proof.
  assert (Hone : clean_text is_alnum text ≠ [] →
                 len (clean_text is_alnum text) < chunk_size →
                 chunk_document is_alnum chunk_size chunk_overlap text
                 = [clean_text is_alnum text]).
  { intros Hne Hlen. unfold chunk_document.
    destruct (truthy text) eqn:Ht; simpl.
    - now apply split_into_chunks_short.
    - apply truthy_false in Ht. subst text. now destruct Hne. }
  repeat split.
  - intros Hall. unfold chunk_document.
    destruct (negb (truthy text)); [done|].
    now rewrite (clean_text_all_space is_alnum text Hall).
  - intros Hempty. unfold chunk_document. rewrite Hempty.
    now destruct (negb (truthy text)).
  - exact Hone.
  - apply split_into_chunks_short.
  - apply clean_text_length.
  - intros Hlen Hne. apply Hone; [done|].
    pose proof (clean_text_length is_alnum text). lia.
Qed.

Lemma chunk_edge_cases_witness :
  chunk_document ascii_alnum 100 10 (py "   ") = []
  ∧ chunk_document ascii_alnum 100 10 (py "@@ ## @@") = []
  ∧ chunk_document ascii_alnum 100 10 (py " Hello,   world!! ")
    = [py "Hello, world!"].
Proof.
  split; [|split].
  - apply (chunk_edge_cases ascii_alnum 100 10 (py "   ")).
    vm_compute. repeat constructor.
  - apply (proj1 (proj2 (chunk_edge_cases ascii_alnum 100 10 (py "@@ ## @@")))).
    vm_compute. reflexivity.
  - apply (chunk_edge_cases ascii_alnum 100 10 (py " Hello,   world!! "));
      vm_compute; first [discriminate | reflexivity].
Defined.

(** C9, as stated, fails on a text that cleaning empties: the one-character
    text made of an at sign is non-empty and shorter than [chunk_size], and
    chunking it yields no segment.  Without the cleaning, white space alone
    is returned as a segment. *)
Lemma symbols_only_text_gives_no_segment :
  ¬ short_text_gives_one_segment ascii_alnum 100 10 (py "@")
  ∧ chunk_document ascii_alnum 100 10 (py "@") = []
  ∧ split_into_chunks 100 10 (py "   ") = [py "   "].
Proof.
  split; [|split; reflexivity].
  intros H. specialize (H ltac:(discriminate) ltac:(reflexivity)).
  vm_compute in H. discriminate H.
Qed.

End CleaningFacts.

(** ** The embedding cache *)

Module EmbeddingCacheFacts.
Import PyStr Runtime EmbeddingCache.

Ltac run_cache :=
  unfold get_value, after_get, after_put, get, put, write_file, remember,
    unlink, try_except, lift, modify, get_state, raise, mbind, M_bind, mret,
    M_ret in *;
  simpl in *.

Section Facts.
Variable text_hash_of : str → str.

Local Abbreviation get := (get text_hash_of).
Local Abbreviation put := (put text_hash_of).
Local Abbreviation get_value := (get_value text_hash_of).
Local Abbreviation after_get := (after_get text_hash_of).
Local Abbreviation after_put := (after_put text_hash_of).
Local Abbreviation after_call := (after_call text_hash_of).
Local Abbreviation after_calls := (after_calls text_hash_of).
Local Abbreviation puts_to := (puts_to text_hash_of).

(** [get] raises only from the [unlink] of its handler: on a memory miss,
    at a file that does not load and cannot be removed; the cache is then as
    it was. *)
Lemma get_raises (text : str) (c : cache_state) (e : exn) :
  get_value text c = Raise e →
  e = OSError
  ∧ memory_cache c !! text_hash_of text = None
  ∧ disk c !! text_hash_of text = Some Corrupt
  ∧ text_hash_of text ∈ unremovable c
  ∧ after_get text c = c.
Proof.
  run_cache.
  destruct (memory_cache c !! text_hash_of text); [discriminate|].
  destruct (disk c !! text_hash_of text) as [[embedding|]|]; simpl;
    [|..|discriminate].
  - destruct (size (memory_cache c) <? max_memory_items c)%nat; discriminate.
  - case_bool_decide as Hin; simpl; [|discriminate].
    intros [= <-]. done.
Qed.

(** Where every file that does not load can be removed, [get] returns. *)
Lemma get_returns (text : str) (c : cache_state) :
  text_hash_of text ∉ unremovable c →
  ∃ r, get_value text c = Return r.
Proof.
  intros Hout. destruct (get_value text c) as [r|e] eqn:Hget; [eauto|].
  apply get_raises in Hget as (_ & _ & _ & Hin & _). done.
Qed.

(** [put] never raises: a failed write is caught. *)
Lemma put_returns (w : write_outcome) (text : str) (v : vector) (c : cache_state) :
  ∃ c', put w text v c = (Return tt, c').
Proof.
  run_cache.
  destruct (size (memory_cache c) <? max_memory_items c)%nat; destruct w;
    simpl; eauto.
Qed.

(** A memory hit leaves the cache alone. *)
Lemma get_memory_hit (text : str) (c : cache_state) (v : vector) :
  memory_cache c !! text_hash_of text = Some v →
  get text c = (Return (Some v), c).
Proof. intros H. run_cache. now rewrite H. Qed.

Lemma get_corrupt (text : str) (c : cache_state) :
  memory_cache c !! text_hash_of text = None →
  disk c !! text_hash_of text = Some Corrupt →
  text_hash_of text ∉ unremovable c →
  get text c = (Return None, set_disk (delete (text_hash_of text)) c).
Proof.
  intros Hm Hd Hout. run_cache. rewrite Hm, Hd. simpl.
  now rewrite bool_decide_eq_false_2.
Qed.

Lemma get_unremovable (text : str) (c : cache_state) :
  memory_cache c !! text_hash_of text = None →
  disk c !! text_hash_of text = Some Corrupt →
  text_hash_of text ∈ unremovable c →
  get text c = (Raise OSError, c).
Proof.
  intros Hm Hd Hin. run_cache. rewrite Hm, Hd. simpl.
  now rewrite bool_decide_eq_true_2.
Qed.

(** What [put] does to the two tiers. *)
Lemma after_put_memory (w : write_outcome) (text : str) (v : vector) (c : cache_state) :
  memory_cache (after_put w text v c)
  = if (size (memory_cache c) <? max_memory_items c)%nat
    then <[text_hash_of text := v]> (memory_cache c)
    else memory_cache c.
Proof.
  run_cache.
  destruct (size (memory_cache c) <? max_memory_items c)%nat; destruct w; reflexivity.
Qed.

Lemma after_put_disk (w : write_outcome) (text : str) (v : vector) (c : cache_state) :
  disk (after_put w text v c)
  = match w with
    | Written => <[text_hash_of text := Pickle v]> (disk c)
    | OpenFailed => disk c
    | DumpFailed => <[text_hash_of text := Corrupt]> (disk c)
    end.
Proof.
  run_cache.
  destruct (size (memory_cache c) <? max_memory_items c)%nat; destruct w; reflexivity.
Qed.

(** What [get] does to the two tiers on other fingerprints. *)
Lemma after_get_memory_other (text : str) (c : cache_state) (h : str) :
  text_hash_of text ≠ h →
  memory_cache (after_get text c) !! h = memory_cache c !! h.
Proof.
  intros Hne. run_cache.
  destruct (memory_cache c !! text_hash_of text); [done|].
  destruct (disk c !! text_hash_of text) as [[embedding|]|]; simpl;
    [|case_bool_decide; done|done].
  destruct (size (memory_cache c) <? max_memory_items c)%nat; simpl; [|done].
  now rewrite lookup_insert_ne.
Qed.

Lemma after_get_disk_other (text : str) (c : cache_state) (h : str) :
  text_hash_of text ≠ h →
  disk (after_get text c) !! h = disk c !! h.
Proof.
  intros Hne. run_cache.
  destruct (memory_cache c !! text_hash_of text); [done|].
  destruct (disk c !! text_hash_of text) as [[embedding|]|]; simpl; [|..|done].
  - destruct (size (memory_cache c) <? max_memory_items c)%nat; done.
  - case_bool_decide; simpl; [done|]. now rewrite lookup_delete_ne.
Qed.

(** The value of a [get], read off the two tiers. *)
Lemma get_value_lookup (text : str) (c : cache_state) :
  get_value text c
  = match memory_cache c !! text_hash_of text with
    | Some embedding => Return (Some embedding)
    | None =>
        match disk c !! text_hash_of text with
        | Some (Pickle embedding) => Return (Some embedding)
        | Some Corrupt =>
            if bool_decide (text_hash_of text ∈ unremovable c)
            then Raise OSError else Return None
        | None => Return None
        end
    end.
Proof.
  run_cache.
  destruct (memory_cache c !! text_hash_of text); [done|].
  destruct (disk c !! text_hash_of text) as [[embedding|]|]; simpl; [|..|done].
  - destruct (size (memory_cache c) <? max_memory_items c)%nat; done.
  - case_bool_decide; done.
Qed.

Lemma after_get_unremovable (text : str) (c : cache_state) :
  unremovable (after_get text c) = unremovable c.
Proof.
  run_cache.
  destruct (memory_cache c !! text_hash_of text); [done|].
  destruct (disk c !! text_hash_of text) as [[embedding|]|]; simpl; [|..|done].
  - destruct (size (memory_cache c) <? max_memory_items c)%nat; done.
  - case_bool_decide; done.
Qed.

(** A [get] does not change what a later [get] returns, of the same text or
    of another. *)
Lemma get_value_after_get (text text' : str) (c : cache_state) :
  get_value text' (after_get text c) = get_value text' c.
Proof.
  rewrite !get_value_lookup, after_get_unremovable.
  destruct (decide (text_hash_of text = text_hash_of text')) as [Heq | Hne].
  - rewrite <- Heq. run_cache.
    destruct (memory_cache c !! text_hash_of text) eqn:Hm; simpl;
      [now rewrite Hm|].
    destruct (disk c !! text_hash_of text) as [[embedding|]|] eqn:Hd; simpl.
    + destruct (size (memory_cache c) <? max_memory_items c)%nat; simpl.
      * now rewrite lookup_insert_eq.
      * now rewrite Hm, Hd.
    + case_bool_decide as Hin; simpl.
      * now rewrite Hm, Hd.
      * now rewrite Hm, lookup_delete_eq.
    + now rewrite Hm, Hd.
  - rewrite (after_get_memory_other text c _ Hne).
    now rewrite (after_get_disk_other text c _ Hne).
Qed.

(** *** The invariant [serves] *)

Lemma serves_get (text : str) (v : vector) (c : cache_state) :
  serves (text_hash_of text) v c → get_value text c = Return (Some v).
Proof.
  intros [Hm | [Hm Hd]]; run_cache; rewrite Hm; [done|].
  rewrite Hd. simpl.
  destruct (size (memory_cache c) <? max_memory_items c)%nat; reflexivity.
Qed.

Lemma serves_after_get (h : str) (v : vector) (text : str) (c : cache_state) :
  serves h v c → serves h v (after_get text c).
Proof.
  intros Hs. destruct (decide (text_hash_of text = h)) as [<- | Hne].
  - destruct Hs as [Hm | [Hm Hd]]; run_cache; rewrite Hm.
    + now left.
    + rewrite Hd. simpl.
      destruct (size (memory_cache c) <? max_memory_items c)%nat; simpl.
      * left. apply lookup_insert_eq.
      * now right.
  - unfold serves.
    rewrite (after_get_memory_other text c h Hne).
    now rewrite (after_get_disk_other text c h Hne).
Qed.

Lemma serves_after_put_other (h : str) (v : vector)
    (w : write_outcome) (text : str) (v' : vector) (c : cache_state) :
  text_hash_of text ≠ h → serves h v c → serves h v (after_put w text v' c).
Proof.
  intros Hne Hs. unfold serves.
  rewrite after_put_memory, after_put_disk.
  assert (Hmem : (if (size (memory_cache c) <? max_memory_items c)%nat
                  then <[text_hash_of text := v']> (memory_cache c)
                  else memory_cache c) !! h = memory_cache c !! h).
  { destruct (_ <? _)%nat; [now rewrite lookup_insert_ne|done]. }
  assert (Hdisk : match w with
                  | Written => <[text_hash_of text := Pickle v']> (disk c)
                  | OpenFailed => disk c
                  | DumpFailed => <[text_hash_of text := Corrupt]> (disk c)
                  end !! h = disk c !! h).
  { destruct w; [now rewrite lookup_insert_ne|done|now rewrite lookup_insert_ne]. }
  rewrite Hmem, Hdisk. exact Hs.
Qed.

Lemma serves_after_calls (h : str) (v : vector) (calls : list call) (c : cache_state) :
  Forall (λ o, ¬ puts_to h o) calls →
  serves h v c → serves h v (after_calls calls c).
Proof.
  intros Hcalls. revert c.
  induction Hcalls as [|o calls Ho _ IH]; intros c Hs; [done|].
  apply IH. destruct o as [text | w text v']; simpl.
  - now apply serves_after_get.
  - apply serves_after_put_other; [|done]. exact Ho.
Qed.

(** A [put] makes the cache serve the vector when the memory tier has room,
    or when the fingerprint is not in the memory tier and the file is
    written. *)
Lemma put_serves (w : write_outcome) (text : str) (v : vector) (c : cache_state) :
  (size (memory_cache c) < max_memory_items c
   ∨ (memory_cache c !! text_hash_of text = None ∧ w = Written)) →
  serves (text_hash_of text) v (after_put w text v c).
Proof.
  intros Hcond. unfold serves. rewrite after_put_memory, after_put_disk.
  destruct (size (memory_cache c) <? max_memory_items c)%nat eqn:Hroom.
  - left. apply lookup_insert_eq.
  - right. destruct Hcond as [Hlt | [Hm ->]].
    + apply Nat.ltb_ge in Hroom. lia.
    + split; [done|apply lookup_insert_eq].
Qed.

(** Once the memory tier is full, [put] does not touch it: an older vector
    under the same fingerprint stays and is what [get] returns; and a new
    fingerprint whose file cannot be opened is stored nowhere.  Both hold for
    every digest function. *)
Lemma full_memory_keeps_older_vector (w : write_outcome) (text : str)
    (v0 v : vector) (c : cache_state) :
  max_memory_items c <= size (memory_cache c) →
  memory_cache c !! text_hash_of text = Some v0 →
  get_value text (after_put w text v c) = Return (Some v0).
Proof.
  intros Hfull Hold. apply serves_get. left.
  rewrite after_put_memory.
  replace (size (memory_cache c) <? max_memory_items c)%nat with false
    by (symmetry; apply Nat.ltb_ge; lia).
  exact Hold.
Qed.

Lemma full_memory_failed_write_stores_nothing (text : str) (v : vector)
    (c : cache_state) :
  max_memory_items c <= size (memory_cache c) →
  absent (text_hash_of text) c →
  get_value text (after_put OpenFailed text v c) = Return None.
Proof.
  intros Hfull [Hm Hd]. run_cache.
  replace (size (memory_cache c) <? max_memory_items c)%nat with false
    by (symmetry; apply Nat.ltb_ge; lia).
  simpl. now rewrite Hm, Hd.
Qed.

(** *** Fingerprints that were never stored *)

Lemma absent_after_call (h : str) (o : call) (c : cache_state) :
  ¬ puts_to h o → absent h c → absent h (after_call c o).
Proof.
  intros Ho [Hm Hd]. destruct o as [text | w text v]; simpl in *.
  - destruct (decide (text_hash_of text = h)) as [<- | Hne].
    + run_cache. rewrite Hm, Hd. simpl. done.
    + split.
      * now rewrite (after_get_memory_other text c h Hne).
      * now rewrite (after_get_disk_other text c h Hne).
  - split.
    + rewrite after_put_memory.
      destruct (_ <? _)%nat; [now rewrite lookup_insert_ne|done].
    + rewrite after_put_disk.
      destruct w; [now rewrite lookup_insert_ne|done|now rewrite lookup_insert_ne].
Qed.

Lemma absent_after_calls (h : str) (calls : list call) (c : cache_state) :
  Forall (λ o, ¬ puts_to h o) calls →
  absent h c → absent h (after_calls calls c).
Proof.
  intros Hcalls. revert c.
  induction Hcalls as [|o calls Ho _ IH]; intros c Ha; [done|].
  apply IH. now apply absent_after_call.
Qed.

Lemma absent_get (text : str) (c : cache_state) :
  absent (text_hash_of text) c → get_value text c = Return None.
Proof. intros [Hm Hd]. run_cache. now rewrite Hm, Hd. Qed.

End Facts.






End EmbeddingCacheFacts.

(** ** The ranking stage *)

Module RankerFacts.
Import PyStr Runtime Model Ranker.

(** *** Sorting *)

Lemma insert_by_score_perm (r : SearchResult) (l : list SearchResult) :
  Permutation (insert_by_score r l) (r :: l).
Proof.
  induction l as [|r' l IH]; simpl; [done|].
  destruct (Qle_bool (score r') (score r)); [done|].
  rewrite IH. apply perm_swap.
Qed.

Lemma sort_by_score_perm (l : list SearchResult) :
  Permutation (sort_by_score l) l.
Proof.
  induction l as [|r l IH]; simpl; [done|].
  rewrite insert_by_score_perm. now constructor.
Qed.

Lemma insert_by_score_descending (r : SearchResult) (l : list SearchResult) :
  descending l → descending (insert_by_score r l).
Proof.
  unfold descending. induction 1 as [|r' l Hl IH Hhd]; simpl.
  - repeat constructor.
  - destruct (Qle_bool (score r') (score r)) eqn:Hle.
    + apply Qle_bool_iff in Hle. repeat constructor; done.
    + assert (Hlt : (score r < score r')%Q).
      { apply Qnot_le_lt. intros H. apply Qle_bool_iff in H. congruence. }
      constructor; [done|].
      destruct l as [|r'' l]; simpl in *.
      * constructor. now apply Qlt_le_weak.
      * destruct (Qle_bool (score r'') (score r)).
        -- constructor. now apply Qlt_le_weak.
        -- constructor. now inversion Hhd.
Qed.

Lemma sort_by_score_descending (l : list SearchResult) :
  descending (sort_by_score l).
Proof.
  induction l as [|r l IH]; simpl; [constructor|].
  now apply insert_by_score_descending.
Qed.

Lemma filter_length_perm {A} (f : A → bool) (l l' : list A) :
  Permutation l l' → length (List.filter f l) = length (List.filter f l').
Proof.
  induction 1 as [|x l l' _ IH|x y l|l l' l'' _ IH1 _ IH2]; simpl.
  - done.
  - destruct (f x); simpl; congruence.
  - destruct (f x), (f y); reflexivity.
  - congruence.
Qed.

(** *** The penalty *)

Lemma penalize_score (r : SearchResult) : score (penalize r) = (score r * (8 # 10))%Q.
Proof. reflexivity. Qed.

Lemma penalize_source (r : SearchResult) : source_file (penalize r) = source_file r.
Proof. reflexivity. Qed.

Lemma penalize_flagged (r : SearchResult) : flagged (penalize r) = true.
Proof.
  unfold flagged, penalize, set_metadata. simpl.
  now rewrite lookup_insert_eq.
Qed.

Lemma diversified_source (m : Z) (earlier : list SearchResult) (r : SearchResult) :
  source_file (diversified m earlier r) = source_file r.
Proof. unfold diversified. now destruct (_ <? _)%Z. Qed.

(** *** The diversity loop *)

Lemma count_source_snoc (file : str) (earlier : list SearchResult) (r : SearchResult) :
  count_source file (earlier ++ [r])
  = (count_source file earlier + if from_source file r then 1 else 0)%nat.
Proof.
  unfold count_source. rewrite List.filter_app, length_app. simpl.
  now destruct (from_source file r).
Qed.

Lemma diversity_step_agrees (m : Z) (file_counts : gmap str Z)
    (out earlier : list SearchResult) (r : SearchResult) :
  counts_agree m file_counts earlier →
  ∃ file_counts',
    diversity_step m (file_counts, out) r
    = (file_counts', out ++ [diversified m earlier r])
    ∧ counts_agree m file_counts' (earlier ++ [r]).
Proof.
  intros Hagree. unfold diversity_step, diversified.
  pose proof (Hagree (source_file r)) as Hcur. rewrite Hcur.
  set (seen := Z.of_nat (count_source (source_file r) earlier)) in *.
  destruct (Z.min m seen <? m)%Z eqn:Htest.
  - apply Z.ltb_lt in Htest.
    assert (Hseen : (seen < m)%Z) by lia.
    apply Z.ltb_lt in Hseen. rewrite Hseen. apply Z.ltb_lt in Hseen.
    eexists. split; [reflexivity|].
    intros file. rewrite count_source_snoc. unfold from_source.
    destruct (decide (source_file r = file)) as [<- | Hne].
    + rewrite lookup_insert_eq. simpl.
      rewrite bool_decide_eq_true_2 by done. fold seen. lia.
    + rewrite lookup_insert_ne by done. rewrite (Hagree file).
      rewrite bool_decide_eq_false_2 by done. now rewrite Nat.add_0_r.
  - apply Z.ltb_ge in Htest.
    assert (Hseen : (m <= seen)%Z) by lia.
    apply Z.ltb_ge in Hseen. rewrite Hseen. apply Z.ltb_ge in Hseen.
    eexists. split; [reflexivity|].
    intros file. rewrite count_source_snoc, (Hagree file). unfold from_source.
    destruct (decide (source_file r = file)) as [<- | Hne].
    + rewrite bool_decide_eq_true_2 by done. fold seen. lia.
    + rewrite bool_decide_eq_false_2 by done. now rewrite Nat.add_0_r.
Qed.

Lemma diversity_loop_diversifies (m : Z) (l : list SearchResult) :
  ∀ file_counts out earlier,
    counts_agree m file_counts earlier →
    snd (fold_left (diversity_step m) l (file_counts, out))
    = out ++ diversify m earlier l.
Proof.
  induction l as [|r l IH]; intros file_counts out earlier Hagree;
    cbn [fold_left diversify].
  - simpl. now rewrite app_nil_r.
  - destruct (diversity_step_agrees m file_counts out earlier r Hagree)
      as (file_counts' & -> & Hagree').
    rewrite (IH _ _ _ Hagree'). now rewrite <- app_assoc.
Qed.

(** The loop applies the diversity rule to every candidate, in order. *)
Lemma diversity_pass_diversifies (m : Z) (l : list SearchResult) :
  (0 <= m)%Z → diversity_pass m l = diversify m [] l.
Proof.
  intros Hm. unfold diversity_pass.
  rewrite (diversity_loop_diversifies m l ∅ [] []); [done|].
  intros file. rewrite lookup_empty. simpl. unfold count_source. simpl. lia.
Qed.

Lemma diversify_length (m : Z) (earlier l : list SearchResult) :
  length (diversify m earlier l) = length l.
Proof.
  revert earlier. induction l as [|r l IH]; intros earlier; simpl; [done|].
  now rewrite IH.
Qed.

(** At most [m] results of a file get through without the flag. *)
Lemma diversify_unflagged (m : Z) (file : str) (l earlier : list SearchResult) :
  (0 <= m)%Z →
  (Z.of_nat (count_unflagged file (diversify m earlier l))
   <= m - Z.min m (Z.of_nat (count_source file earlier)))%Z.
Proof.
  intros Hm. revert earlier.
  induction l as [|r l IH]; intros earlier.
  - unfold count_unflagged. simpl. lia.
  - specialize (IH (earlier ++ [r])). rewrite count_source_snoc in IH.
    unfold count_unflagged in *. cbn [diversify List.filter].
    unfold from_source at 1. rewrite diversified_source.
    unfold from_source at 2 in IH.
    destruct (decide (source_file r = file)) as [<- | Hne].
    + rewrite bool_decide_eq_true_2 in * by done.
      unfold diversified.
      destruct (Z.of_nat (count_source (source_file r) earlier) <? m)%Z eqn:Htest.
      * apply Z.ltb_lt in Htest.
        destruct (negb (flagged r)); simpl in *; lia.
      * apply Z.ltb_ge in Htest. rewrite penalize_flagged. simpl in *. lia.
    + rewrite bool_decide_eq_false_2 in * by done. simpl in *.
      rewrite Nat.add_0_r in IH. exact IH.
Qed.

(** When all candidates come from one file, the first [m] are kept as they
    are and the others are penalised. *)
Lemma diversify_one_source (m : nat) (file : str) (l earlier : list SearchResult) :
  Forall (λ r, source_file r = file) earlier →
  Forall (λ r, source_file r = file) l →
  diversify (Z.of_nat m) earlier l
  = take (m - length earlier) l ++ List.map penalize (drop (m - length earlier) l).
Proof.
  intros Hearlier Hl. revert earlier Hearlier.
  induction Hl as [|r l Hr _ IH]; intros earlier Hearlier.
  - now rewrite take_nil, drop_nil.
  - assert (Hcount : count_source (source_file r) earlier = length earlier).
    { unfold count_source. rewrite Hr. clear -Hearlier.
      induction Hearlier as [|x xs Hx _ IHx]; simpl; [done|].
      unfold from_source at 1. rewrite bool_decide_eq_true_2 by done.
      simpl. now rewrite IHx. }
    cbn [diversify]. unfold diversified. rewrite Hcount.
    rewrite (IH (earlier ++ [r])) by (apply Forall_app; split; [done|repeat constructor; done]).
    rewrite length_app. simpl.
    destruct (Z.of_nat (length earlier) <? Z.of_nat m)%Z eqn:Htest.
    + apply Z.ltb_lt in Htest.
      replace (m - length earlier)%nat with (S (m - (length earlier + 1)))%nat by lia.
      reflexivity.
    + apply Z.ltb_ge in Htest.
      replace (m - length earlier)%nat with 0%nat by lia.
      replace (m - (length earlier + 1))%nat with 0%nat by lia.
      reflexivity.
Qed.

(** *** The first loop keeps the source file and the flag *)

Lemma new_SearchResult_source (i t : str) (q : Q) (f : str) (m : gmap str pyval) :
  source_file (new_SearchResult i t q f m) = f.
Proof. reflexivity. Qed.

Lemma enhance_source (env : environment) (qw : list str) (r : SearchResult) :
  source_file (enhance env qw r) = source_file r.
Proof.
  unfold enhance. cbv zeta.
  repeat match goal with
         | |- context [if ?b then _ else _] => destruct b
         end; reflexivity.
Qed.

Lemma enhance_flagged (env : environment) (qw : list str) (r : SearchResult) :
  flagged (enhance env qw r) = flagged r.
Proof.
  unfold flagged, enhance. cbv zeta.
  assert (Hnew : metadata (new_SearchResult (chunk_id r) (text r) (score r)
                             (source_file r) (metadata r))
                 !! py "diversity_penalty"
                 = metadata r !! py "diversity_penalty").
  { unfold new_SearchResult. cbn [metadata].
    destruct (metadata r !! py "file_name"); [done|].
    destruct (truthy (source_file r)); [|done].
    apply lookup_insert_ne. vm_compute. discriminate. }
  remember (new_SearchResult (chunk_id r) (text r) (score r)
              (source_file r) (metadata r)) as base eqn:Hbase.
  repeat match goal with
         | |- context [if ?b then _ else _] => destruct b
         end;
    cbn [metadata set_metadata set_score];
    rewrite !lookup_insert_ne by (vm_compute; discriminate);
    now rewrite Hnew.
Qed.

Lemma max_per_file_positive (results : list SearchResult) :
  (1 <= max_per_file_of results)%Z.
Proof. unfold max_per_file_of. lia. Qed.

Lemma ranked_candidates_perm (env : environment) (results : list SearchResult) (query : str) :
  Permutation (ranked_candidates env results query)
    (List.map (enhance env (word_set (lower env query))) results).
Proof. apply sort_by_score_perm. Qed.

Lemma post_process_results_diversifies (env : environment)
    (results : list SearchResult) (query : str) :
  post_process_results env results query
  = sort_by_score
      (diversify (max_per_file_of results) [] (ranked_candidates env results query)).
Proof.
  unfold post_process_results. destruct results as [|r results]; [reflexivity|].
  rewrite diversity_pass_diversifies; [done|].
  pose proof (max_per_file_positive (r :: results)). lia.
Qed.

(** C5.  The candidates are enhanced and sorted by score; the diversity rule
    then goes through them in that order with the quota [max(1, N // 3)],
    which is what the code computes from the number N of candidates, whatever
    N is: a candidate with fewer than the quota of candidates of its source
    file before it is kept as it is, any other is kept with its score times
    0.8 and the flag set; the outcome is sorted by score again.  So nothing
    is dropped, the output is in non-increasing order of score, and no source
    file has more than [max(1, N // 3)] results without the flag.  With ten
    candidates from one file the first three in score order are kept as they
    are and the other seven are penalised; the three are the ones without
    the flag when no candidate came in with it. *)
Theorem diversity_quota
    (env : environment) (results : list SearchResult) (query : str) :
  let quota := Z.max 1 (Z.of_nat (length results) / 3) in
  let candidates := ranked_candidates env results query in
  let out := post_process_results env results query in
  max_per_file_of results = quota
  ∧ Permutation candidates
      (List.map (enhance env (word_set (lower env query))) results)
  ∧ descending candidates
  ∧ Permutation out (diversify quota [] candidates)
  ∧ descending out
  ∧ length out = length results
  ∧ (∀ file, (Z.of_nat (count_unflagged file out) <= quota)%Z)
  ∧ (∀ r, score (penalize r) = (score r * (8 # 10))%Q
         ∧ flagged (penalize r) = true
         ∧ chunk_id (penalize r) = chunk_id r
         ∧ text (penalize r) = text r
         ∧ source_file (penalize r) = source_file r)
  ∧ (∀ file,
       length results = 10%nat →
       Forall (λ r, source_file r = file) results →
       quota = 3%Z
       ∧ Permutation out
           (take 3 candidates ++ List.map penalize (drop 3 candidates))
       ∧ length (take 3 candidates) = 3%nat
       ∧ length (drop 3 candidates) = 7%nat
       ∧ Forall (λ r, flagged r = true) (List.map penalize (drop 3 candidates))
       ∧ (Forall (λ r, flagged r = false) results →
          Forall (λ r, flagged r = false) (take 3 candidates))).
Proof.
  intros quota candidates out.
  assert (Hquota : (1 <= quota)%Z) by apply max_per_file_positive.
  assert (Hcand : Permutation candidates
            (List.map (enhance env (word_set (lower env query))) results))
    by apply ranked_candidates_perm.
  assert (Hout : out = sort_by_score (diversify quota [] candidates))
    by apply post_process_results_diversifies.
  assert (Hperm : Permutation out (diversify quota [] candidates))
    by (rewrite Hout; apply sort_by_score_perm).
  assert (Hlen : length candidates = length results).
  { rewrite (Permutation_length Hcand). apply length_map. }
  split; [reflexivity|].
  split; [exact Hcand|].
  split; [apply sort_by_score_descending|].
  split; [exact Hperm|].
  split; [rewrite Hout; apply sort_by_score_descending|].
  split; [now rewrite (Permutation_length Hperm), diversify_length|].
  split.
  { intros file. unfold count_unflagged.
    rewrite (filter_length_perm _ _ _ Hperm).
    pose proof (diversify_unflagged quota file candidates [] ltac:(lia)) as H.
    unfold count_unflagged, count_source in H. simpl in H. lia. }
  split.
  { intros r. repeat split; try reflexivity. apply penalize_flagged. }
  intros file Hten Hfile.
  assert (Hq3 : quota = 3%Z).
  { unfold quota. rewrite Hten. reflexivity. }
  assert (Hsrc : Forall (λ r, source_file r = file) candidates).
  { apply (Permutation_Forall (Permutation_sym Hcand)).
    apply List.Forall_map.
    apply (List.Forall_impl _ (P := λ r, source_file r = file)); [|done].
    intros r Hr. now rewrite enhance_source. }
  split; [exact Hq3|].
  split.
  { etransitivity; [exact Hperm|]. rewrite Hq3.
    change 3%Z with (Z.of_nat 3).
    now rewrite (diversify_one_source 3 file candidates [] ltac:(constructor) Hsrc). }
  split; [rewrite length_take; lia|].
  split; [rewrite length_drop; lia|].
  split.
  { apply List.Forall_map. apply List.Forall_forall. intros r _. apply penalize_flagged. }
  intros Hclean.
  apply Forall_take.
  apply (Permutation_Forall (Permutation_sym Hcand)).
  apply List.Forall_map.
  apply (List.Forall_impl _ (P := λ r, flagged r = false)); [|done].
  intros r Hr. now rewrite enhance_flagged.
Qed.

Lemma diversity_quota_witness :
  Permutation
    (post_process_results Samples.sample_env Samples.ten_from_one_source
       (py "planning meeting"))
    (take 3 (ranked_candidates Samples.sample_env Samples.ten_from_one_source
               (py "planning meeting"))
     ++ List.map penalize
          (drop 3 (ranked_candidates Samples.sample_env Samples.ten_from_one_source
                     (py "planning meeting")))).
Proof.
  apply (diversity_quota Samples.sample_env Samples.ten_from_one_source
           (py "planning meeting")) with (file := py "docs/report.docx").
  - reflexivity.
  - vm_compute. repeat constructor.
Defined.

End RankerFacts.

(** ** The services and the orchestration *)

Module ServiceFacts.
Import PyStr PyStrFacts Runtime EmbeddingCache Model.
Import EmbeddingService VectorStore SearchService.

Ltac run_M :=
  unfold try_except, lift, modify, gets, get_state, raise, log,
    on_embedding_cache, mbind, M_bind, mret, M_ret in *.

(** *** Computations that leave the query cache alone *)

Lemma with_query_cache_same (s : system) : with_query_cache (query_cache s) s = s.
Proof. now destruct s. Qed.

Lemma frames_query_cache_kept {A} (m : M system A) (s : system) :
  frames_query_cache m → query_cache (snd (m s)) = query_cache s.
Proof.
  intros Hm. specialize (Hm (query_cache s) s).
  rewrite with_query_cache_same in Hm.
  apply (f_equal snd) in Hm. simpl in Hm.
  rewrite Hm at 1. reflexivity.
Qed.

Lemma frames_query_cache_result {A} (m : M system A) (s : system)
    (qc : list (cache_key * (list SearchResult * Q))) :
  frames_query_cache m → fst (m (with_query_cache qc s)) = fst (m s).
Proof. intros Hm. now rewrite (Hm qc s). Qed.

Lemma frames_ret {A} (a : A) : frames_query_cache (mret a).
Proof. intros qc s. reflexivity. Qed.

Lemma frames_raise {A} (e : exn) : frames_query_cache (raise e : M system A).
Proof. intros qc s. reflexivity. Qed.

Lemma frames_lift {A} (r : result A) : frames_query_cache (lift r).
Proof. intros qc s. reflexivity. Qed.

Lemma frames_bind {A B} (m : M system A) (k : A → M system B) :
  frames_query_cache m → (∀ a, frames_query_cache (k a)) →
  frames_query_cache (m ≫= k).
Proof.
  intros Hm Hk qc s. run_M. rewrite (Hm qc s).
  destruct (m s) as [[a|e] s']; simpl; [apply Hk|reflexivity].
Qed.

Lemma frames_try_except {A} (m : M system A) (h : exn → M system A) :
  frames_query_cache m → (∀ e, frames_query_cache (h e)) →
  frames_query_cache (try_except m h).
Proof.
  intros Hm Hh qc s. run_M. rewrite (Hm qc s).
  destruct (m s) as [[a|e] s']; simpl; [reflexivity|apply Hh].
Qed.

Lemma frames_log (e : event) : frames_query_cache (log e).
Proof. intros qc s. reflexivity. Qed.

Lemma frames_set_model_loaded (b : bool) :
  frames_query_cache (modify (set_model_loaded b)).
Proof. intros qc s. reflexivity. Qed.

Lemma frames_set_client_connected (b : bool) :
  frames_query_cache (modify (set_client_connected b)).
Proof. intros qc s. reflexivity. Qed.

Lemma frames_gets_model_loaded : frames_query_cache (gets model_loaded).
Proof. intros qc s. reflexivity. Qed.

Lemma frames_gets_client_connected : frames_query_cache (gets client_connected).
Proof. intros qc s. reflexivity. Qed.

Lemma frames_on_embedding_cache {A} (m : M cache_state A) :
  frames_query_cache (on_embedding_cache m).
Proof.
  intros qc s. run_M. simpl.
  destruct (m (embedding_cache s)) as [r c]. reflexivity.
Qed.

Create HintDb frames.
#[local] Hint Resolve frames_ret frames_raise frames_lift frames_log
  frames_set_model_loaded frames_set_client_connected
  frames_gets_model_loaded frames_gets_client_connected
  frames_on_embedding_cache : frames.

Ltac frames :=
  repeat first
    [ apply frames_bind; [|intros ?]
    | apply frames_try_except; [|intros ?]
    | progress eauto with frames
    | match goal with
      | |- frames_query_cache (if ?b then _ else _) => destruct b
      | |- frames_query_cache (match ?x with _ => _ end) => destruct x
      end ].

Section Frames.
Variable cfg : settings.
Variable env : environment.

Lemma frames_encode_with_model (text : str) :
  frames_query_cache (encode_with_model env text).
Proof. unfold encode_with_model. frames. Qed.

Lemma frames_load_model : frames_query_cache (load_model env).
Proof.
  unfold load_model. pose proof frames_encode_with_model. frames.
Qed.

Lemma frames_encode_single (text : str) (use_cache : bool) :
  frames_query_cache (encode_single cfg env text use_cache).
Proof.
  unfold encode_single. pose proof frames_load_model.
  pose proof frames_encode_with_model. frames.
Qed.

Lemma frames_get_client : frames_query_cache (get_client env).
Proof. unfold get_client. frames. Qed.

Lemma frames_search_similar (v : vector) (limit : option Z)
    (score_threshold : option Q) (f : filters) :
  frames_query_cache (search_similar cfg env v limit score_threshold f).
Proof. unfold search_similar. pose proof frames_get_client. frames. Qed.

(** With filters, [search] is made of such computations only. *)
Lemma frames_search_filtered (query : str) (limit : option Z)
    (score_threshold : option Q) (f : filters) :
  filters_truthy f = true →
  frames_query_cache (search cfg env query limit score_threshold f).
Proof.
  intros Hf. unfold search, search_body. rewrite Hf. cbn [negb].
  pose proof frames_encode_single. pose proof frames_search_similar.
  frames.
Qed.

End Frames.

(** *** The query cache and filters *)

(** [search] never raises: the outermost handler turns every exception into
    a failed response. *)
Lemma search_returns (cfg : settings) (env : environment) (query : str)
    (limit : option Z) (score_threshold : option Q) (f : filters) (s : system) :
  ∃ resp, fst (search cfg env query limit score_threshold f s) = Return resp.
Proof.
  unfold search, try_except.
  destruct (search_body cfg env query limit score_threshold f s) as [[resp|e] s'];
    simpl; eauto.
Qed.

(** A response that comes from the query cache says so. *)
Lemma search_filtered_not_cached (cfg : settings) (env : environment) (query : str)
    (limit : option Z) (score_threshold : option Q) (f : filters)
    (s : system) (resp : response) :
  filters_truthy f = true →
  fst (search cfg env query limit score_threshold f s) = Return resp →
  cached resp ≠ Some true.
Proof.
  intros Hf. unfold search, search_body. rewrite Hf. cbn [negb].
  destruct (negb (truthy query) || negb (truthy (strip query))).
  { run_M. simpl. intros [= <-]. done. }
  run_M.
  destruct (encode_single cfg env (strip query) true s) as [[v|e] s1];
    [|simpl; intros [= <-]; done].
  destruct (length v =? 0)%nat; [simpl; intros [= <-]; done|].
  destruct (search_similar cfg env v limit score_threshold f s1) as [[rs|e] s2];
    [|simpl; intros [= <-]; done].
  simpl. intros [= <-]. done.
Qed.

(** C4.  For a call that carries filters, the query cache after the call is
    the query cache before it; the response is the one the call would give
    with any other query cache in place, so it is not drawn from the cache;
    and it is never marked as cached. *)
Theorem filtered_search_bypasses_query_cache
    (cfg : settings) (env : environment) (query : str)
    (limit : option Z) (score_threshold : option Q) (f : filters) (s : system) :
  filters_truthy f = true →
  query_cache (snd (search cfg env query limit score_threshold f s))
  = query_cache s
  ∧ (∀ qc, fst (search cfg env query limit score_threshold f (with_query_cache qc s))
           = fst (search cfg env query limit score_threshold f s))
  ∧ (∀ resp, fst (search cfg env query limit score_threshold f s) = Return resp →
             cached resp ≠ Some true).
Proof.
  intros Hf.
  pose proof (frames_search_filtered cfg env query limit score_threshold f Hf) as Hfr.
  split; [now apply frames_query_cache_kept|].
  split; [intros qc; now apply frames_query_cache_result|].
  intros resp. now apply search_filtered_not_cached.
Qed.

Lemma filtered_search_bypasses_query_cache_witness :
  query_cache
    (snd (search default_settings Samples.sample_env (py "lazy fox")
            (Some 5%Z) None Samples.sample_filters (initial_system ∅)))
  = query_cache (initial_system ∅).
Proof.
  apply (filtered_search_bypasses_query_cache default_settings Samples.sample_env
           (py "lazy fox") (Some 5%Z) None Samples.sample_filters (initial_system ∅)).
  reflexivity.
Defined.

(** *** Blank queries *)

(** C6, as the code has it.  A query that is empty or white space only ends
    the call at once with a failed response, message [Empty query provided]
    and no results; nothing is raised, no collaborator is called and the
    state, with both caches, is as before. *)
Theorem blank_query_is_refused
    (cfg : settings) (env : environment) (query : str)
    (limit : option Z) (score_threshold : option Q) (f : filters) (s : system) :
  all_space query →
  search cfg env query limit score_threshold f s
  = (Return (failure EmptyQueryProvided), s).
Proof.
  intros Hblank. unfold search, search_body.
  rewrite (strip_all_space query Hblank). cbn [truthy negb].
  rewrite orb_true_r. reflexivity.
Qed.

Lemma blank_query_is_refused_witness :
  search default_settings Samples.sample_env (py "   ") None None None
    (initial_system ∅)
  = (Return (failure EmptyQueryProvided), initial_system ∅).
Proof.
  apply (blank_query_is_refused default_settings Samples.sample_env (py "   ")).
  vm_compute. repeat constructor.
Defined.

(** C6, as stated, fails: the empty query gives a response, not a raised
    query error. *)
Lemma blank_query_raises_no_query_error :
  ¬ raises_query_error default_settings Samples.sample_env [] (initial_system ∅).
Proof. unfold raises_query_error. vm_compute. discriminate. Qed.

(** *** Failure of the embedding step *)

Lemma zeros_length (n : Z) : length (zeros n) = Z.to_nat n.
Proof. apply repeat_length. Qed.

(** Loading a model that is ready returns, and calls what
    [loading_events] lists. *)
Lemma load_model_ready (env : environment) (s : system) :
  model_ready env s →
  ∃ s', load_model env s = (Return tt, s')
        ∧ events s' = events s ++ loading_events s
        ∧ embedding_cache s' = embedding_cache s
        ∧ client_connected s' = client_connected s
        ∧ query_cache s' = query_cache s.
Proof.
  unfold model_ready, load_model, encode_with_model, loading_events.
  remember (py "test") as probe eqn:Hprobe. intros Hready. run_M. cbn.
  destruct (model_loaded s) eqn:Hloaded.
  { eexists. split; [reflexivity|]. now rewrite app_nil_r. }
  destruct Hready as [Hl | (Hload & v & Htest)]; [congruence|].
  cbn. rewrite Hload. cbn. rewrite Htest. cbn.
  eexists. split; [reflexivity|]. cbn. now rewrite <- app_assoc.
Qed.

(** The first part of [encode_single] on a text the cache does not hold, up
    to the call of the provider. *)
Lemma encode_single_miss (cfg : settings) (env : environment)
    (text : str) (s : system) :
  truthy text = true → strip text = text →
  get_value (sha256_hex env) text (embedding_cache s) = Return None →
  encode_single cfg env text true s
  = (load_model env;;
     try_except
       (encode_with_model env text ≫= λ embedding,
        on_embedding_cache
          (put (sha256_hex env) (cache_write env) text embedding);;
        mret embedding)
       (λ _, mret (zeros (embedding_dimension cfg))))
      (set_embedding_cache
         (λ _, after_get (sha256_hex env) text (embedding_cache s)) s).
Proof.
  intros Ht Hstrip Hmiss. unfold encode_single.
  rewrite Hstrip, Ht. cbn [negb orb].
  unfold get_value, after_get in *.
  unfold mbind at 1. unfold M_bind at 1. unfold on_embedding_cache at 1.
  destruct (get (sha256_hex env) text (embedding_cache s)) as [r c'].
  simpl in Hmiss. subst r. reflexivity.
Qed.

(** With the model ready and the text not in the cache, an exception of the
    provider is replaced by the zero vector; the provider is called once. *)
Lemma encode_single_provider_raises (cfg : settings) (env : environment)
    (text : str) (s : system) (e : exn) :
  truthy text = true → strip text = text →
  get_value (sha256_hex env) text (embedding_cache s) = Return None →
  model_ready env s →
  transformer_encode env text = Raise e →
  ∃ s', encode_single cfg env text true s
        = (Return (zeros (embedding_dimension cfg)), s')
        ∧ events s' = events s ++ loading_events s ++ [Encoded text]
        ∧ client_connected s' = client_connected s
        ∧ query_cache s' = query_cache s.
Proof.
  intros Ht Hstrip Hmiss Hready Hraise.
  rewrite (encode_single_miss cfg env text s Ht Hstrip Hmiss).
  set (s0 := set_embedding_cache _ s).
  destruct (load_model_ready env s0 Hready) as (s1 & Hload & Hev & _ & Hconn & Hqc).
  unfold mbind at 1. unfold M_bind at 1. rewrite Hload.
  unfold encode_with_model. run_M. cbn. rewrite Hraise. cbn.
  eexists. split; [reflexivity|]. cbn.
  rewrite Hev, Hconn, Hqc, <- app_assoc. done.
Qed.

(** What the provider returns is passed on as it is, empty or not. *)
Lemma encode_single_provider_returns (cfg : settings) (env : environment)
    (text : str) (s : system) (v : vector) :
  truthy text = true → strip text = text →
  get_value (sha256_hex env) text (embedding_cache s) = Return None →
  model_ready env s →
  transformer_encode env text = Return v →
  ∃ s', encode_single cfg env text true s = (Return v, s')
        ∧ events s' = events s ++ loading_events s ++ [Encoded text]
        ∧ client_connected s' = client_connected s
        ∧ query_cache s' = query_cache s.
Proof.
  intros Ht Hstrip Hmiss Hready Hret.
  rewrite (encode_single_miss cfg env text s Ht Hstrip Hmiss).
  set (s0 := set_embedding_cache _ s).
  destruct (load_model_ready env s0 Hready) as (s1 & Hload & Hev & _ & Hconn & Hqc).
  unfold mbind at 1. unfold M_bind at 1. rewrite Hload.
  unfold encode_with_model. run_M. cbn. rewrite Hret. cbn.
  destruct (EmbeddingCacheFacts.put_returns (sha256_hex env) (cache_write env)
              text v (embedding_cache s1)) as [c'' ->].
  cbn. eexists. split; [reflexivity|]. cbn.
  rewrite Hev, Hconn, Hqc, <- app_assoc. done.
Qed.

(** With the client set and the filter made, the index is asked once, with
    the effective limit and threshold. *)
Lemma search_similar_connected (cfg : settings) (env : environment)
    (v : vector) (limit : option Z) (score_threshold : option Q) (f : filters)
    (qdrant_filter : option (list condition)) (s : system) :
  client_connected s = true →
  qdrant_filter_of f = Return qdrant_filter →
  ∃ s', search_similar cfg env v limit score_threshold f s
        = (match qdrant_search env v qdrant_filter
                   (effective_limit cfg limit)
                   (effective_threshold cfg score_threshold) with
           | Return hits => Return (List.map result_of_hit hits)
           | Raise _ => Return []
           end, s')
        ∧ events s'
          = events s ++ [Searched v qdrant_filter
                           (effective_limit cfg limit)
                           (effective_threshold cfg score_threshold)]
        ∧ query_cache s' = query_cache s.
Proof.
  intros Hconn Hfilter. unfold search_similar, get_client. run_M.
  cbn. rewrite Hconn. cbn. rewrite Hfilter. cbn.
  destruct (qdrant_search env v qdrant_filter (effective_limit cfg limit)
              (effective_threshold cfg score_threshold)) as [hits|e];
    cbn; eexists; (split; [reflexivity|]); cbn; done.
Qed.

(** With the client set and a filter that cannot be made, nothing is asked
    and nothing is found. *)
Lemma search_similar_filter_rejected (cfg : settings) (env : environment)
    (v : vector) (limit : option Z) (score_threshold : option Q) (f : filters)
    (e : exn) (s : system) :
  client_connected s = true →
  qdrant_filter_of f = Raise e →
  search_similar cfg env v limit score_threshold f s = (Return [], s).
Proof.
  intros Hconn Hfilter. unfold search_similar, get_client. run_M.
  cbn. rewrite Hconn. cbn. now rewrite Hfilter.
Qed.

(** When the model is not loaded and cannot be constructed, [encode_single]
    raises: loading happens outside its [try]. *)
Lemma encode_single_load_fails (cfg : settings) (env : environment)
    (text : str) (s : system) (e : exn) :
  truthy text = true → strip text = text →
  get_value (sha256_hex env) text (embedding_cache s) = Return None →
  model_loaded s = false →
  load_transformer env = Raise e →
  ∃ s', encode_single cfg env text true s = (Raise RuntimeError, s')
        ∧ events s' = events s ++ [LoadedTransformer].
Proof.
  intros Ht Hstrip Hmiss Hloaded Hraise.
  unfold encode_single, load_model, encode_with_model.
  rewrite Hstrip, Ht. cbn [negb orb].
  unfold get_value in Hmiss. run_M.
  destruct (get (sha256_hex env) text (embedding_cache s)) as [r c'].
  simpl in Hmiss. subst r. cbn. rewrite Hloaded. cbn. rewrite Hraise.
  eexists. split; [reflexivity|]. cbn. done.
Qed.

(** C2, as the code has it.  Take a non-blank query that neither cache
    holds, with the model loaded or ready to be loaded.  When the provider
    raises on the query, with the client set and the filters, if any, made
    into a filter of the index, nothing is retried and nothing is raised: the
    zero vector of the configured dimension stands in for the embedding, the
    index is asked with it, and the call succeeds with the ranked answer of
    the index.  When the provider returns an empty vector, the call ends with
    a failed response, message [Failed to process query], without asking the
    index.  When the model is not loaded and cannot be constructed, the call
    ends with a failed response, message [Search failed], without calling the
    provider or the index.  In no case does [search] raise. *)
Theorem provider_failure_gives_zero_vector
    (cfg : settings) (env : environment) (query : str)
    (limit : option Z) (score_threshold : option Q) (f : filters) (s : system) :
  truthy (strip query) = true →
  (filters_truthy f = false →
   fresh_entry (strip query, limit, score_threshold) (time_at_lookup env)
     (query_cache s) = None) →
  get_value (sha256_hex env) (strip query) (embedding_cache s) = Return None →
  (0 < embedding_dimension cfg)%Z →
  (∀ e hits qdrant_filter,
     model_ready env s →
     client_connected s = true →
     transformer_encode env (strip query) = Raise e →
     qdrant_filter_of f = Return qdrant_filter →
     qdrant_search env (zeros (embedding_dimension cfg)) qdrant_filter
       (effective_limit cfg limit) (effective_threshold cfg score_threshold)
     = Return hits →
     fst (search cfg env query limit score_threshold f s)
     = Return {| success := true; message_of := None;
                 query_of := Some (strip query);
                 results :=
                   Ranker.post_process_results env
                     (List.map result_of_hit hits) (strip query);
                 cached := Some false |}
     ∧ events (snd (search cfg env query limit score_threshold f s))
       = events s ++ loading_events s
         ++ [Encoded (strip query);
             Searched (zeros (embedding_dimension cfg)) qdrant_filter
               (effective_limit cfg limit)
               (effective_threshold cfg score_threshold)])
  ∧ (model_ready env s →
     transformer_encode env (strip query) = Return [] →
     fst (search cfg env query limit score_threshold f s)
     = Return (failure FailedToProcessQuery)
     ∧ events (snd (search cfg env query limit score_threshold f s))
       = events s ++ loading_events s ++ [Encoded (strip query)])
  ∧ (∀ e,
       model_loaded s = false →
       load_transformer env = Raise e →
       fst (search cfg env query limit score_threshold f s)
       = Return (failure (SearchFailed RuntimeError))
       ∧ events (snd (search cfg env query limit score_threshold f s))
         = events s ++ [LoadedTransformer])
  ∧ (∀ s', ∃ resp,
       fst (search cfg env query limit score_threshold f s') = Return resp).
Proof.
  intros Hquery Hfresh Hmiss Hdim.
  assert (Hq : truthy query = true).
  { destruct query; [discriminate Hquery|reflexivity]. }
  split; [|split; [|split]].
  - intros e hits qdrant_filter Hready Hconn Hraise Hfilter Hindex.
    destruct (encode_single_provider_raises cfg env (strip query) s e
                Hquery (strip_strip query) Hmiss Hready Hraise)
      as (s1 & Henc & Hev1 & Hconn1 & Hqc1).
    rewrite <- Hconn1 in Hconn.
    destruct (search_similar_connected cfg env (zeros (embedding_dimension cfg))
                limit score_threshold f qdrant_filter s1 Hconn Hfilter)
      as (s2 & Hsim & Hev2 & Hqc2).
    rewrite Hindex in Hsim.
    rewrite Hev1 in Hev2. rewrite <- !app_assoc in Hev2. simpl in Hev2.
    assert (Hrun : ∃ s',
      search cfg env query limit score_threshold f s
      = (Return {| success := true; message_of := None;
                   query_of := Some (strip query);
                   results :=
                     Ranker.post_process_results env
                       (List.map result_of_hit hits) (strip query);
                   cached := Some false |}, s')
      ∧ events s' = events s2).
    { unfold search, search_body. rewrite Hq, Hquery. cbn [negb orb].
      destruct (filters_truthy f) eqn:Hf; cbn [negb];
        run_M; cbn; rewrite ?(Hfresh eq_refl); rewrite Henc, zeros_length;
        (replace (Z.to_nat (embedding_dimension cfg) =? 0)%nat with false
           by (symmetry; apply Nat.eqb_neq; lia));
        rewrite Hsim;
        destruct (Ranker.post_process_results env (List.map result_of_hit hits)
                    (strip query));
        cbn; eexists; split; reflexivity. }
    destruct Hrun as (s' & -> & Hev). cbn. now rewrite Hev.
  - intros Hready Hempty.
    destruct (encode_single_provider_returns cfg env (strip query) s []
                Hquery (strip_strip query) Hmiss Hready Hempty)
      as (s1 & Henc & Hev1 & _ & _).
    assert (Hrun :
      search cfg env query limit score_threshold f s
      = (Return (failure FailedToProcessQuery), s1)).
    { unfold search, search_body. rewrite Hq, Hquery. cbn [negb orb].
      destruct (filters_truthy f) eqn:Hf; cbn [negb];
        run_M; cbn; rewrite ?(Hfresh eq_refl); rewrite Henc; reflexivity. }
    rewrite Hrun. cbn. done.
  - intros e Hloaded Hraise.
    destruct (encode_single_load_fails cfg env (strip query) s e
                Hquery (strip_strip query) Hmiss Hloaded Hraise)
      as (s1 & Henc & Hev1).
    assert (Hrun :
      search cfg env query limit score_threshold f s
      = (Return (failure (SearchFailed RuntimeError)), s1)).
    { unfold search, search_body. rewrite Hq, Hquery. cbn [negb orb].
      destruct (filters_truthy f) eqn:Hf; cbn [negb];
        run_M; cbn; rewrite ?(Hfresh eq_refl); rewrite Henc; reflexivity. }
    rewrite Hrun. cbn. done.
  - intros s'. apply search_returns.
Qed.

Lemma provider_failure_gives_zero_vector_witness :
  fst (search default_settings Samples.failing_provider_env (py "lazy fox")
         None None None (set_client_connected true (initial_system ∅)))
  = Return {| success := true; message_of := None;
              query_of := Some (strip (py "lazy fox"));
              results :=
                Ranker.post_process_results Samples.failing_provider_env
                  (List.map result_of_hit
                     (take 10 (List.filter (λ h, Qle_bool (5 # 10) (hit_score h))
                                 Samples.sample_points)))
                  (strip (py "lazy fox"));
              cached := Some false |}.
Proof.
  apply (provider_failure_gives_zero_vector default_settings
           Samples.failing_provider_env (py "lazy fox") None None None
           (set_client_connected true (initial_system ∅)))
    with (e := ProviderError) (qdrant_filter := None).
  - reflexivity.
  - reflexivity.
  - reflexivity.
  - reflexivity.
  - right. split; [reflexivity|]. eexists. reflexivity.
  - reflexivity.
  - reflexivity.
  - reflexivity.
  - reflexivity.
Defined.

(** C2, as stated, fails: the provider raises on the query, and the call
    succeeds with ten results found for the zero vector. *)
Lemma provider_failure_does_not_fail_the_search :
  transformer_encode Samples.failing_provider_env (py "lazy fox")
  = Raise ProviderError
  ∧ ¬ raises_embedding_unavailable default_settings Samples.failing_provider_env
        (py "lazy fox") (initial_system ∅)
  ∧ (∃ resp,
       fst (search default_settings Samples.failing_provider_env (py "lazy fox")
              None None None (initial_system ∅)) = Return resp
       ∧ success resp = true
       ∧ length (results resp) = 10%nat)
  ∧ last (events (snd (search default_settings Samples.failing_provider_env
                         (py "lazy fox") None None None (initial_system ∅))))
    = Some (Searched (zeros 384) None 10 (5 # 10)).
Proof.
  split; [reflexivity|].
  split; [unfold raises_embedding_unavailable; vm_compute; discriminate|].
  split.
  - eexists. split; [vm_compute; reflexivity|]. split; reflexivity.
  - vm_compute. reflexivity.
Qed.

(** *** Limits and thresholds *)

Lemma effective_limit_given (cfg : settings) (limit : Z) :
  limit ≠ 0%Z → effective_limit cfg (Some limit) = limit.
Proof.
  intros Hne. unfold effective_limit, limit_truthy.
  apply Z.eqb_neq in Hne. now rewrite Hne.
Qed.

(** C8, as the code has it.  The limit is validated, not clamped.
    [validate_search_limits] rejects a limit above 100, and one below 1, with
    status 400, and passes a limit from 1 to 100 on unchanged, whatever valid
    threshold comes with it; [search_similar] hands every limit other than
    zero to the index as it is.  An unspecified limit or threshold is
    replaced by the configured default, in both places. *)
Theorem limit_is_validated_not_clamped (cfg : settings) :
  (∀ limit score_threshold,
     (100 < limit)%Z →
     Limits.validate_search_limits cfg (Some limit) score_threshold
     = inl {| Limits.status_code := 400;
              Limits.detail := "Limit cannot exceed 100 results" |})
  ∧ (∀ limit score_threshold,
       (limit <= 0)%Z →
       Limits.validate_search_limits cfg (Some limit) score_threshold
       = inl {| Limits.status_code := 400;
                Limits.detail := "Limit must be greater than 0" |})
  ∧ (∀ limit,
       (1 <= limit <= 100)%Z →
       Limits.validate_search_limits cfg (Some limit) None
       = inr {| Limits.limit := limit;
                Limits.score_threshold := similarity_threshold cfg |})
  ∧ (∀ limit score_threshold,
       (1 <= limit <= 100)%Z →
       (0 <= score_threshold)%Q → (score_threshold <= 1)%Q →
       Limits.validate_search_limits cfg (Some limit) (Some score_threshold)
       = inr {| Limits.limit := limit;
                Limits.score_threshold := score_threshold |})
  ∧ (∀ limit score_threshold params,
       Limits.validate_search_limits cfg (Some limit) score_threshold
       = inr params →
       Limits.limit params = limit ∧ (1 <= limit <= 100)%Z)
  ∧ Limits.validate_search_limits cfg None None
    = inr {| Limits.limit := default_limit cfg;
             Limits.score_threshold := similarity_threshold cfg |}
  ∧ (∀ score_threshold,
       (0 <= score_threshold)%Q → (score_threshold <= 1)%Q →
       Limits.validate_search_limits cfg None (Some score_threshold)
       = inr {| Limits.limit := default_limit cfg;
                Limits.score_threshold := score_threshold |})
  ∧ (∀ limit, limit ≠ 0%Z → effective_limit cfg (Some limit) = limit)
  ∧ effective_limit cfg None = default_limit cfg
  ∧ effective_threshold cfg None = similarity_threshold cfg
  ∧ (∀ env v limit score_threshold f qdrant_filter s,
       client_connected s = true →
       qdrant_filter_of f = Return qdrant_filter →
       events (snd (search_similar cfg env v limit score_threshold f s))
       = events s ++ [Searched v qdrant_filter
                        (effective_limit cfg limit)
                        (effective_threshold cfg score_threshold)]).
Proof.
  assert (Hvalid : ∀ t, (0 <= t)%Q → (t <= 1)%Q →
                        negb (Qle_bool 0 t && Qle_bool t 1) = false).
  { intros t Hlow Hhigh. apply Qle_bool_iff in Hlow, Hhigh.
    now rewrite Hlow, Hhigh. }
  split; [|split; [|split; [|split; [|split; [|split; [|split;
    [|split; [|split; [|split]]]]]]]]].
  - intros limit score_threshold Hlimit. unfold Limits.validate_search_limits.
    replace (limit <=? 0)%Z with false by (symmetry; apply Z.leb_gt; lia).
    replace (100 <? limit)%Z with true by (symmetry; apply Z.ltb_lt; lia).
    reflexivity.
  - intros limit score_threshold Hlimit. unfold Limits.validate_search_limits.
    replace (limit <=? 0)%Z with true by (symmetry; apply Z.leb_le; lia).
    reflexivity.
  - intros limit Hlimit. unfold Limits.validate_search_limits.
    replace (limit <=? 0)%Z with false by (symmetry; apply Z.leb_gt; lia).
    replace (100 <? limit)%Z with false by (symmetry; apply Z.ltb_ge; lia).
    reflexivity.
  - intros limit score_threshold Hlimit Hlow Hhigh.
    unfold Limits.validate_search_limits.
    replace (limit <=? 0)%Z with false by (symmetry; apply Z.leb_gt; lia).
    replace (100 <? limit)%Z with false by (symmetry; apply Z.ltb_ge; lia).
    now rewrite (Hvalid score_threshold Hlow Hhigh).
  - intros limit score_threshold params. unfold Limits.validate_search_limits.
    destruct (limit <=? 0)%Z eqn:Hlow; [discriminate|].
    destruct (100 <? limit)%Z eqn:Hhigh; [discriminate|].
    apply Z.leb_gt in Hlow. apply Z.ltb_ge in Hhigh.
    destruct score_threshold as [t|].
    + destruct (negb (Qle_bool 0 t && Qle_bool t 1)); [discriminate|].
      intros [= <-]. simpl. lia.
    + intros [= <-]. simpl. lia.
  - reflexivity.
  - intros score_threshold Hlow Hhigh. unfold Limits.validate_search_limits.
    now rewrite (Hvalid score_threshold Hlow Hhigh).
  - apply effective_limit_given.
  - reflexivity.
  - reflexivity.
  - intros env v limit score_threshold f qdrant_filter s Hconn Hfilter.
    destruct (search_similar_connected cfg env v limit score_threshold f
                qdrant_filter s Hconn Hfilter) as (s' & -> & Hev & _).
    exact Hev.
Qed.

Lemma limit_is_validated_not_clamped_witness :
  effective_limit default_settings (Some 150%Z) = 150%Z
  ∧ Limits.validate_search_limits default_settings (Some 150%Z) None
    = inl {| Limits.status_code := 400;
             Limits.detail := "Limit cannot exceed 100 results" |}.
Proof.
  split.
  - apply (limit_is_validated_not_clamped default_settings). lia.
  - apply (limit_is_validated_not_clamped default_settings). lia.
Defined.

(** C8, as stated, fails: a search with limit 150 returns 150 results, and
    the validation of the same limit ends in an error. *)
Lemma limit_above_100_is_not_clamped :
  ¬ limit_is_clamped default_settings Samples.sample_env (py "lazy fox") 150
      (initial_system ∅)
  ∧ result_count
      (fst (search default_settings Samples.sample_env (py "lazy fox")
              (Some 150%Z) None None (initial_system ∅))) = 150%nat
  ∧ Limits.validate_search_limits default_settings (Some 150%Z) None
    = inl {| Limits.status_code := 400;
             Limits.detail := "Limit cannot exceed 100 results" |}.
Proof.
  assert (Hcount :
    result_count
      (fst (search default_settings Samples.sample_env (py "lazy fox")
              (Some 150%Z) None None (initial_system ∅))) = 150%nat)
    by (vm_compute; reflexivity).
  split; [|split; [exact Hcount|reflexivity]].
  intros (resp & Hresp & _ & Hlen).
  rewrite Hresp in Hcount. simpl in Hcount. lia.
Qed.



End ServiceFacts.

(** ** The chunker keeps the words of the text *)

Module WordFacts.
Import PyStr PyStrFacts Chunker Documents.
Local Open Scope Z_scope.

(** Splitting at a white-space character splits the words. *)
Lemma split_go_app_space (cur a : str) (c : char) (b : str) :
  is_space c = true →
  split_go cur (a ++ c :: b) = split_go cur a ++ split b.
Proof.
  intros Hc. revert cur. induction a as [|x a IH]; intros cur; simpl.
  - rewrite Hc. now destruct (truthy cur).
  - destruct (is_space x).
    + destruct (truthy cur); simpl; now rewrite IH.
    + apply IH.
Qed.

Lemma split_app_space (a : str) (c : char) (b : str) :
  is_space c = true → split (a ++ c :: b) = split a ++ split b.
Proof. apply split_go_app_space. Qed.

Lemma split_go_all_space (cur t : str) :
  all_space t → split_go cur t = split_go cur [].
Proof.
  intros Ht. revert cur. induction Ht as [|c t Hc _ IH]; intros cur; [done|].
  simpl. rewrite Hc. destruct (truthy cur); now rewrite (IH []).
Qed.

Lemma split_go_app_all_space (cur u t : str) :
  all_space t → split_go cur (u ++ t) = split_go cur u.
Proof.
  intros Ht. revert cur. induction u as [|x u IH]; intros cur.
  - now apply split_go_all_space.
  - simpl. destruct (is_space x); [|apply IH].
    destruct (truthy cur); now rewrite IH.
Qed.

Lemma lstrip_decompose (s : str) : ∃ t, all_space t ∧ s = t ++ lstrip s.
Proof.
  induction s as [|c s (t & Ht & IH)]; simpl.
  - exists []. split; [constructor|done].
  - destruct (is_space c) eqn:Hc.
    + exists (c :: t). split; [now constructor|]. simpl. now rewrite <- IH.
    + exists []. split; [constructor|done].
Qed.

Lemma rstrip_decompose (s : str) : ∃ t, all_space t ∧ s = rstrip s ++ t.
Proof.
  destruct (lstrip_decompose (rev s)) as (t & Ht & Hs).
  exists (rev t). split; [now apply Forall_rev|].
  unfold rstrip. rewrite <- rev_app_distr, <- Hs. now rewrite rev_involutive.
Qed.

Lemma split_lstrip (s : str) : split (lstrip s) = split s.
Proof.
  induction s as [|c s IH]; simpl; [done|].
  destruct (is_space c) eqn:Hc; [|done].
  rewrite IH. unfold split. simpl. now rewrite Hc.
Qed.

Lemma split_rstrip (s : str) : split (rstrip s) = split s.
Proof.
  destruct (rstrip_decompose s) as (t & Ht & Hs).
  rewrite Hs at 2. unfold split. now rewrite split_go_app_all_space.
Qed.

(** Stripping keeps the words. *)
Lemma split_strip (s : str) : split (strip s) = split s.
Proof. unfold strip. now rewrite split_rstrip, split_lstrip. Qed.

(** A word is its own only word. *)
Lemma split_go_word (cur w : str) :
  Forall (λ c, is_space c = false) w →
  split_go cur w = split_go (rev w ++ cur) [].
Proof.
  intros Hw. revert cur. induction Hw as [|c w Hc _ IH]; intros cur; [done|].
  simpl split_go at 1. rewrite Hc, IH. simpl. now rewrite <- app_assoc.
Qed.

Lemma split_single_word (w : str) : single_word w → split w = [w].
Proof.
  intros [Hne Hw]. unfold split. rewrite (split_go_word [] w Hw).
  rewrite app_nil_r. cbn [split_go]. rewrite rev_involutive.
  destruct (rev w) as [|c r] eqn:Hr; [|reflexivity].
  apply (f_equal (@rev _)) in Hr. rewrite rev_involutive in Hr. done.
Qed.

(** Joining words with single spaces and splitting again gives the words. *)
Lemma split_join (ws : list str) :
  Forall single_word ws → split (join SP ws) = ws.
Proof.
  induction 1 as [|w ws Hw Hws IH]; [done|].
  destruct ws as [|w' ws].
  - now apply split_single_word.
  - change (join SP (w :: w' :: ws)) with (w ++ SP :: join SP (w' :: ws)).
    rewrite split_app_space by reflexivity.
    now rewrite IH, (split_single_word w Hw).
Qed.

(** The sentence splitter cuts between words only. *)
Lemma split_sentences_go_words (s : str) :
  (∀ b cur,
     concat (List.map split (split_sentences_go (InPiece b) cur s))
     = split (rev cur ++ s))
  ∧ concat (List.map split (split_sentences_go InSeparator [] s)) = split s.
Proof.
  induction s as [|c s [IHp IHs]]; split.
  - intros b cur. simpl. now rewrite !app_nil_r.
  - reflexivity.
  - intros b cur. cbn [split_sentences_go].
    destruct (is_space c && b) eqn:Hsep.
    + apply andb_true_iff in Hsep as [Hc _].
      cbn [List.map concat]. rewrite IHs.
      now rewrite split_app_space.
    + rewrite IHp. simpl. now rewrite <- app_assoc.
  - cbn [split_sentences_go]. destruct (is_space c) eqn:Hc.
    + rewrite IHs. unfold split. simpl. now rewrite Hc.
    + now rewrite IHp.
Qed.

Lemma split_sentences_words (text : str) :
  concat (List.map split (split_sentences text)) = split text.
Proof.
  destruct (split_sentences_go_words text) as [H _]. apply (H false []).
Qed.

Section Loops.
Variable chunk_size : Z.

Lemma split_extend (cur piece : str) :
  split (extend cur piece) = split cur ++ split piece.
Proof.
  unfold extend. destruct cur as [|c cur]; [done|].
  simpl truthy. cbv iota. now apply split_app_space.
Qed.

Lemma flush_words (chunks : list str) (cur : str) :
  concat (List.map split (flush chunks cur))
  = concat (List.map split chunks) ++ split cur.
Proof.
  unfold flush. destruct cur as [|c cur]; simpl truthy; cbv iota.
  - now rewrite app_nil_r.
  - rewrite List.map_app, concat_app. simpl.
    now rewrite split_strip, app_nil_r.
Qed.

Lemma word_step_words (st : list str * str) (word : str) :
  single_word word →
  words_of_state (word_step chunk_size st word) = words_of_state st ++ [word].
Proof.
  intros Hw. destruct st as [chunks word_chunk].
  unfold word_step, words_of_state.
  destruct (fits chunk_size word_chunk word); simpl.
  - rewrite split_extend, (split_single_word word Hw). now rewrite app_assoc.
  - now rewrite flush_words, (split_single_word word Hw).
Qed.

Lemma word_loop_words (ws : list str) (st : list str * str) :
  Forall single_word ws →
  words_of_state (fold_left (word_step chunk_size) ws st) = words_of_state st ++ ws.
Proof.
  intros Hws. revert st. induction Hws as [|w ws Hw _ IH]; intros st; simpl.
  - now rewrite app_nil_r.
  - rewrite IH, word_step_words by done. now rewrite <- app_assoc.
Qed.

Lemma sentence_step_words (st : list str * str) (sentence : str) :
  words_of_state (sentence_step chunk_size st sentence)
  = words_of_state st ++ split sentence.
Proof.
  destruct st as [chunks current_chunk]. unfold sentence_step.
  destruct (fits chunk_size current_chunk sentence).
  - unfold words_of_state. simpl. rewrite split_extend. now rewrite app_assoc.
  - destruct (len sentence <=? chunk_size).
    + unfold words_of_state. simpl. now rewrite flush_words.
    + rewrite word_loop_words by apply split_words.
      unfold words_of_state. simpl. now rewrite flush_words, app_nil_r.
Qed.

Lemma sentence_loop_words (sentences : list str) (st : list str * str) :
  words_of_state (fold_left (sentence_step chunk_size) sentences st)
  = words_of_state st ++ concat (List.map split sentences).
Proof.
  revert st. induction sentences as [|s sentences IH]; intros st; simpl.
  - now rewrite app_nil_r.
  - rewrite IH, sentence_step_words. now rewrite <- app_assoc.
Qed.

Lemma base_chunks_words (text : str) :
  concat (List.map split (base_chunks chunk_size text)) = split text.
Proof.
  unfold base_chunks.
  pose proof (sentence_loop_words (split_sentences text) ([], [])) as H.
  destruct (fold_left _ _ _) as [chunks current_chunk].
  rewrite flush_words. unfold words_of_state in H. simpl in H.
  now rewrite H, split_sentences_words.
Qed.

End Loops.

(** X1.  The segments before the overlap hold the words of the text, each once
    and in order: nothing is lost, repeated or reordered by the splitting into
    sentences and the two accumulation loops. *)
Theorem chunks_keep_the_words (chunk_size : Z) (text : str) :
  concat (List.map split (chunks_before_overlap chunk_size text)) = split text.
Proof.
  unfold chunks_before_overlap.
  destruct (negb (truthy text) || (len text <? chunk_size)).
  - destruct text; simpl; [done|]. now rewrite app_nil_r.
  - apply base_chunks_words.
Qed.

Lemma imap_unchanged {A} (f : nat → A → A) (l : list A) :
  (∀ i x, f i x = x) → imap f l = l.
Proof.
  revert f. induction l as [|x l IH]; intros f Hf; simpl; [done|].
  rewrite Hf. f_equal. apply IH. intros i y. apply Hf.
Qed.

Lemma slice_from_words (j : Z) (s : str) :
  Forall single_word (slice_from j (split s)).
Proof. unfold slice_from. apply Forall_drop, split_words. Qed.

Lemma split_overlap_prefix (chunk_overlap : Z) (chunks : list str) (i : nat) (base : str) :
  split (overlap_prefix chunk_overlap chunks i ++ base)
  = overlap_words chunk_overlap chunks i ++ split base.
Proof.
  unfold overlap_prefix, overlap_words, overlap_text.
  destruct ((0 <? Z.of_nat i) && (0 <? chunk_overlap)); [|done].
  rewrite <- app_assoc. simpl.
  rewrite split_app_space by reflexivity.
  now rewrite split_join by apply slice_from_words.
Qed.

Lemma slice_from_negative_length {A} (j : Z) (l : list A) :
  j < 0 → length (slice_from j l) = Nat.min (length l) (Z.to_nat (- j)).
Proof.
  intros Hj. unfold slice_from.
  apply Z.ltb_lt in Hj. rewrite Hj. apply Z.ltb_lt in Hj.
  rewrite length_drop. lia.
Qed.

Lemma overlap_start (chunk_overlap : Z) :
  0 < chunk_overlap →
  - chunk_overlap / 10 < 0 ∧ - (- chunk_overlap / 10) = (chunk_overlap + 9) / 10.
Proof.
  intros Hpos.
  pose proof (Z.div_mod (- chunk_overlap) 10 ltac:(lia)) as H1.
  pose proof (Z.mod_pos_bound (- chunk_overlap) 10 ltac:(lia)) as H2.
  pose proof (Z.div_mod (chunk_overlap + 9) 10 ltac:(lia)) as H3.
  pose proof (Z.mod_pos_bound (chunk_overlap + 9) 10 ltac:(lia)) as H4.
  lia.
Qed.

(** X2.  The words of each returned segment are the overlap words followed by
    the segment's own words.  The overlap words of a segment after the first
    are the last words of the segment before it, as it was before the
    overlap: [ceil(chunk_overlap / 10)] of them, or all its words when it has
    fewer.  The first segment has none, and with an overlap of zero or less
    the segments are returned as they are. *)
Theorem segments_start_with_overlap_words
    (chunk_size chunk_overlap : Z) (text : str) :
  let bases := chunks_before_overlap chunk_size text in
  List.map split (split_into_chunks chunk_size chunk_overlap text)
  = imap (λ i base, overlap_words chunk_overlap bases i ++ split base) bases
  ∧ overlap_words chunk_overlap bases 0 = []
  ∧ (∀ i,
       overlap_words chunk_overlap bases (S i)
       = if 0 <? chunk_overlap
         then slice_from (- chunk_overlap / 10) (split (default [] (bases !! i)))
         else [])
  ∧ (∀ i,
       0 < chunk_overlap →
       length (overlap_words chunk_overlap bases (S i))
       = Nat.min (length (split (default [] (bases !! i))))
                 (Z.to_nat ((chunk_overlap + 9) / 10)))
  ∧ (chunk_overlap <= 0 →
     split_into_chunks chunk_size chunk_overlap text = bases).
Proof.
  intros bases.
  assert (Hnext : ∀ i,
    overlap_words chunk_overlap bases (S i)
    = if 0 <? chunk_overlap
      then slice_from (- chunk_overlap / 10) (split (default [] (bases !! i)))
      else []).
  { intros i. unfold overlap_words.
    replace (S i - 1)%nat with i by lia.
    replace (0 <? Z.of_nat (S i)) with true by (symmetry; apply Z.ltb_lt; lia).
    reflexivity. }
  split; [|split; [reflexivity|split; [exact Hnext|split]]].
  - rewrite ChunkerFacts.split_into_chunks_prefixed. fold bases.
    change (List.map split) with (fmap (M := list) split).
    rewrite fmap_imap. apply imap_ext. intros i base _. simpl.
    apply split_overlap_prefix.
  - intros i Hpos. rewrite Hnext.
    replace (0 <? chunk_overlap) with true by (symmetry; apply Z.ltb_lt; lia).
    destruct (overlap_start chunk_overlap Hpos) as [Hneg Hceil].
    rewrite slice_from_negative_length by done. now rewrite Hceil.
  - intros Hle. rewrite ChunkerFacts.split_into_chunks_prefixed. fold bases.
    apply imap_unchanged. intros i base. unfold overlap_prefix.
    replace (0 <? chunk_overlap) with false by (symmetry; apply Z.ltb_ge; lia).
    now rewrite andb_false_r.
Qed.

Lemma segments_start_with_overlap_words_witness :
  length (overlap_words 15 (chunks_before_overlap 100 two_sentences) 1)
  = Nat.min (length (split (default []
               (chunks_before_overlap 100 two_sentences !! 0%nat))))
            (Z.to_nat ((15 + 9) / 10)).
Proof.
  apply (segments_start_with_overlap_words 100 15 two_sentences). lia.
Defined.

End WordFacts.

(** ** The shape of a cleaned text *)

Module CleaningShape.
Import PyStr PyStrFacts Chunker Documents.

(** *** What the substitutions keep *)

(** With runs of one character replaced, only the replacement and the
    characters outside the class remain. *)
Lemma sub_runs_go_one (P : char → Prop) (cls : char → bool) (repl run s : str) :
  Forall P repl →
  Forall (λ c, cls c = false → P c) s →
  Forall P (sub_runs_go cls 1 repl run s).
Proof.
  intros Hrepl Hs. revert run.
  assert (Hflush : ∀ run, Forall P (flush_run 1 repl run)).
  { intros [|c run]; unfold flush_run; simpl; [constructor|done]. }
  induction Hs as [|c s Hc _ IH]; intros run; simpl; [apply Hflush|].
  destruct (cls c) eqn:Hcls; [apply IH|].
  apply Forall_app. split; [apply Hflush|].
  constructor; [now apply Hc|apply IH].
Qed.

(** Whatever the shortest run replaced, a property of the replacement and of
    the text is a property of the result. *)
Lemma sub_runs_go_all (P : char → Prop) (cls : char → bool) (min : nat)
    (repl run s : str) :
  Forall P repl → Forall P run → Forall P s →
  Forall P (sub_runs_go cls min repl run s).
Proof.
  intros Hrepl Hrun Hs. revert run Hrun.
  assert (Hflush : ∀ run, Forall P run → Forall P (flush_run min repl run)).
  { intros run Hrun. unfold flush_run.
    destruct (min <=? length run)%nat; [done|now apply Forall_rev]. }
  induction Hs as [|c s Hc _ IH]; intros run Hrun; simpl; [now apply Hflush|].
  destruct (cls c).
  - apply IH. now constructor.
  - apply Forall_app. split; [now apply Hflush|].
    constructor; [done|apply IH; constructor].
Qed.

Lemma Forall_lstrip (P : char → Prop) (s : str) : Forall P s → Forall P (lstrip s).
Proof.
  induction 1 as [|c s Hc Hs IH]; simpl; [constructor|].
  destruct (is_space c); [done|now constructor].
Qed.

Lemma Forall_strip (P : char → Prop) (s : str) : Forall P s → Forall P (strip s).
Proof.
  intros Hs. unfold strip, rstrip.
  apply Forall_rev, Forall_lstrip, Forall_rev, Forall_lstrip, Hs.
Qed.

(** *** No white space at either end *)

Lemma rstrip_last (s : str) (d : char) :
  rstrip s = [] ∨ is_space (List.last (rstrip s) d) = false.
Proof.
  unfold rstrip. destruct (lstrip (rev s)) as [|c t] eqn:Hl; [now left|].
  right. simpl. rewrite last_last. now apply (lstrip_head (rev s) c t).
Qed.

Lemma strip_trimmed (s : str) : trimmed (strip s).
Proof.
  unfold strip. destruct (lstrip s) as [|c t] eqn:Hl; [exact I|].
  pose proof (lstrip_head s c t Hl) as Hc.
  rewrite (rstrip_cons_nonspace c t Hc). split; [exact Hc|].
  destruct (rstrip_last t c) as [-> | Hlast]; [exact Hc|].
  destruct (rstrip t) as [|d r] eqn:Hr; [exact Hc|].
  exact Hlast.
Qed.

(** *** Neighbours *)

Lemma no_adjacent_cons (P : char → bool) (c : char) (s : str) :
  no_adjacent P (c :: s)
  ↔ (∀ d, head s = Some d → P c && P d = false) ∧ no_adjacent P s.
Proof.
  destruct s as [|d s]; simpl.
  - split; [intros _; split; [intros d [=]|exact I]|done].
  - split.
    + intros [Hcd Hs]. split; [intros ? [= <-]; exact Hcd|exact Hs].
    + intros [Hcd Hs]. split; [now apply Hcd|exact Hs].
Qed.

Lemma no_adjacent_outside (P : char → bool) (s : str) :
  Forall (λ c, P c = false) s → no_adjacent P s.
Proof.
  induction 1 as [|c s Hc _ IH]; [exact I|].
  apply no_adjacent_cons. split; [|exact IH].
  intros d _. now rewrite Hc.
Qed.

Lemma no_adjacent_app_outside (P : char → bool) (a s : str) :
  Forall (λ c, P c = false) a → no_adjacent P s → no_adjacent P (a ++ s).
Proof.
  induction 1 as [|c a Hc _ IH]; intros Hs; [exact Hs|].
  simpl. apply no_adjacent_cons. split; [|now apply IH].
  intros d _. now rewrite Hc.
Qed.

Lemma no_adjacent_app_inv (P : char → bool) (a b : str) :
  no_adjacent P (a ++ b) → no_adjacent P a ∧ no_adjacent P b.
Proof.
  induction a as [|c a IH]; intros H; [now split|].
  simpl in H. apply no_adjacent_cons in H as [Hhead Hrest].
  destruct (IH Hrest) as [Ha Hb]. split; [|exact Hb].
  apply no_adjacent_cons. split; [|exact Ha].
  intros d Hd. apply Hhead. destruct a; [discriminate Hd|exact Hd].
Qed.

Lemma no_adjacent_strip (P : char → bool) (s : str) :
  no_adjacent P s → no_adjacent P (strip s).
Proof.
  intros Hs. unfold strip.
  destruct (WordFacts.lstrip_decompose s) as (t & _ & Hl).
  destruct (WordFacts.rstrip_decompose (lstrip s)) as (t' & _ & Hr).
  rewrite Hl, Hr in Hs.
  apply no_adjacent_app_inv in Hs as [_ Hs].
  now apply no_adjacent_app_inv in Hs as [Hs _].
Qed.

(** Replacing every run of two or more by one character of the class leaves
    no two neighbours in the class. *)
Lemma flush_run_two_short (r : char) (run : str) :
  (length (flush_run 2 [r] run) <= 1)%nat.
Proof.
  unfold flush_run. destruct run as [|c [|d run]]; simpl; lia.
Qed.

Lemma no_adjacent_short_app (P : char → bool) (a : str) (c : char) (s : str) :
  (length a <= 1)%nat → P c = false → no_adjacent P s →
  no_adjacent P (a ++ c :: s).
Proof.
  intros Ha Hc Hs.
  assert (Hcs : no_adjacent P (c :: s)).
  { apply no_adjacent_cons. split; [|exact Hs]. intros d _. now rewrite Hc. }
  destruct a as [|x [|y a]]; [exact Hcs| |simpl in Ha; lia].
  simpl. split; [|exact Hcs]. rewrite Hc. apply andb_false_r.
Qed.

Lemma sub_runs_go_two_no_adjacent (cls : char → bool) (r : char) (run s : str) :
  no_adjacent cls (sub_runs_go cls 2 [r] run s).
Proof.
  revert run. induction s as [|c s IH]; intros run; simpl.
  - pose proof (flush_run_two_short r run) as Hlen.
    destruct (flush_run 2 [r] run) as [|x [|y l]]; simpl in *; [done|done|lia].
  - destruct (cls c) eqn:Hc; [apply IH|].
    apply no_adjacent_short_app; [apply flush_run_two_short|exact Hc|apply IH].
Qed.

(** A substitution on a class outside [P], with one replacement character
    outside [P], brings no two characters of [P] together. *)
Section Preserved.
Variables (P cls : char → bool) (min : nat) (r : char).
Hypothesis cls_outside : ∀ c, cls c = true → P c = false.
Hypothesis repl_outside : P r = false.

Lemma flush_run_outside (run : str) :
  Forall (λ c, P c = false) run →
  Forall (λ c, P c = false) (flush_run min [r] run).
Proof.
  intros Hrun. unfold flush_run.
  destruct (min <=? length run)%nat; [|now apply Forall_rev].
  constructor; [exact repl_outside|constructor].
Qed.

Lemma flush_run_nonempty (run : str) : run ≠ [] → flush_run min [r] run ≠ [].
Proof.
  intros Hne. unfold flush_run. destruct (min <=? length run)%nat; [done|].
  intros Hr. apply Hne. apply (f_equal (@rev _)) in Hr.
  now rewrite rev_involutive in Hr.
Qed.

Lemma head_app_outside (a s : str) (d : char) :
  Forall (λ c, P c = false) a → a ≠ [] → head (a ++ s) = Some d → P d = false.
Proof.
  intros Ha Hne. destruct a as [|x a]; [done|].
  simpl. intros [= <-]. now inversion Ha.
Qed.

Lemma sub_runs_go_head_run (run s : str) (d : char) :
  Forall (λ c, P c = false) run → run ≠ [] →
  head (sub_runs_go cls min [r] run s) = Some d → P d = false.
Proof.
  revert run. induction s as [|x s IH]; intros run Hrun Hne; simpl.
  - rewrite <- (app_nil_r (flush_run min [r] run)).
    apply head_app_outside; [now apply flush_run_outside|now apply flush_run_nonempty].
  - destruct (cls x) eqn:Hx.
    + apply IH; [constructor; [now apply cls_outside|done]|done].
    + apply head_app_outside; [now apply flush_run_outside|now apply flush_run_nonempty].
Qed.

Lemma sub_runs_go_head (s : str) (d : char) :
  head (sub_runs_go cls min [r] [] s) = Some d → P d = true →
  head s = Some d.
Proof.
  destruct s as [|c s]; cbn [sub_runs_go].
  - unfold flush_run. destruct (min <=? length [])%nat; cbn [rev head]; [|done].
    intros [= <-] Hd. congruence.
  - destruct (cls c) eqn:Hc.
    + intros Hhead Hd. exfalso.
      assert (Hrun : Forall (λ c, P c = false) [c])
        by (constructor; [now apply cls_outside|constructor]).
      rewrite (sub_runs_go_head_run [c] s d Hrun ltac:(done) Hhead) in Hd.
      discriminate.
    + unfold flush_run. destruct (min <=? length [])%nat; cbn [rev app head].
      * intros [= <-] Hd. congruence.
      * now intros [= <-] _.
Qed.

Lemma sub_runs_go_no_adjacent (run s : str) :
  Forall (λ c, P c = false) run → no_adjacent P s →
  no_adjacent P (sub_runs_go cls min [r] run s).
Proof.
  revert run. induction s as [|c s IH]; intros run Hrun Hs; simpl.
  - apply no_adjacent_outside. now apply flush_run_outside.
  - apply no_adjacent_cons in Hs as [Hhead Hs].
    destruct (cls c) eqn:Hc.
    + apply IH; [constructor; [now apply cls_outside|done]|exact Hs].
    + apply no_adjacent_app_outside; [now apply flush_run_outside|].
      apply no_adjacent_cons. split; [|apply IH; [constructor|exact Hs]].
      intros d Hd. destruct (P d) eqn:HPd; [|apply andb_false_r].
      rewrite <- HPd. apply Hhead. now apply sub_runs_go_head.
Qed.

End Preserved.

(** *** The cleaned text *)

Section Cleaned.
Variable is_alnum : char → bool.

Lemma is_stripped_dot : is_stripped is_alnum 46 = false.
Proof. unfold is_stripped. now rewrite orb_true_r. Qed.

Lemma is_stripped_bang : is_stripped is_alnum 33 = false.
Proof. unfold is_stripped. now rewrite orb_true_r. Qed.

(** X3. The text [clean_text] returns has no white space at either end, holds
    no character outside the kept ones (word characters, white space and the
    listed punctuation), no white-space character other than the plain space,
    no two full stops side by side and no two of the marks [!] and [?] side
    by side. *)
Theorem cleaned_text_shape (text : str) :
  let cleaned := clean_text is_alnum text in
  trimmed cleaned
  ∧ Forall (λ c, is_stripped is_alnum c = false) cleaned
  ∧ Forall (λ c, is_space c = true → c = SP) cleaned
  ∧ no_adjacent is_dot cleaned
  ∧ no_adjacent is_bang_or_question cleaned.
Proof.
  cbv zeta. unfold clean_text, sub_runs.
  set (t1 := sub_runs_go is_space 1 [SP] [] text).
  set (t2 := sub_runs_go (is_stripped is_alnum) 1 [SP] [] t1).
  set (t3 := sub_runs_go is_dot 2 [46%N] [] t2).
  set (t4 := sub_runs_go is_bang_or_question 2 [33%N] [] t3).
  assert (H1 : Forall (λ c, is_space c = true → c = SP) t1).
  { apply sub_runs_go_one; [now repeat constructor|].
    apply Forall_forall. intros c _ Hc Hc'. congruence. }
  assert (H2 : Forall (λ c, is_stripped is_alnum c = false
                            ∧ (is_space c = true → c = SP)) t2).
  { apply sub_runs_go_one.
    - constructor; [|constructor]. split; [now apply CleaningFacts.is_stripped_space|done].
    - eapply Forall_impl; [exact H1|]. intros c Hc Hs. now split. }
  assert (H4 : Forall (λ c, is_stripped is_alnum c = false
                            ∧ (is_space c = true → c = SP)) t4).
  { apply sub_runs_go_all; [|constructor|].
    - constructor; [|constructor]. split; [apply is_stripped_bang|].
      vm_compute. discriminate.
    - apply sub_runs_go_all; [|constructor|exact H2].
      constructor; [|constructor]. split; [apply is_stripped_dot|].
      vm_compute. discriminate. }
  apply (Forall_strip _ _) in H4. apply Forall_and in H4 as [Hkept Hspace].
  split; [apply strip_trimmed|]. split; [exact Hkept|]. split; [exact Hspace|].
  split; apply no_adjacent_strip.
  - apply sub_runs_go_no_adjacent; [| |constructor|apply sub_runs_go_two_no_adjacent].
    + intros c Hc. unfold is_bang_or_question, is_dot in *.
      destruct (N.eqb_spec c 46) as [->|]; [discriminate Hc|done].
    + reflexivity.
  - apply sub_runs_go_two_no_adjacent.
Qed.

End Cleaned.

End CleaningShape.

(** ** The memory tier of the embedding cache *)

Module MemoryTierFacts.
Import PyStr Runtime EmbeddingCache EmbeddingCacheFacts.

Section Facts.
Variable text_hash_of : str → str.

Local Abbreviation get := (get text_hash_of).
Local Abbreviation get_value := (get_value text_hash_of).
Local Abbreviation after_get := (after_get text_hash_of).
Local Abbreviation after_put := (after_put text_hash_of).
Local Abbreviation after_call := (after_call text_hash_of).
Local Abbreviation after_calls := (after_calls text_hash_of).

(** One call either leaves the memory tier alone or, when there is room,
    stores one entry in it; the capacity stays. *)
Lemma after_call_memory (c : cache_state) (o : call) :
  max_memory_items (after_call c o) = max_memory_items c
  ∧ (memory_cache (after_call c o) = memory_cache c
     ∨ ((size (memory_cache c) < max_memory_items c)%nat
        ∧ ∃ h v, memory_cache (after_call c o) = <[h := v]> (memory_cache c))).
Proof.
  destruct o as [text | w text v]; simpl.
  - run_cache.
    destruct (memory_cache c !! text_hash_of text); [now split; [|left]|].
    destruct (disk c !! text_hash_of text) as [[embedding|]|]; simpl;
      [|case_bool_decide; now split; [|left]|now split; [|left]].
    destruct (size (memory_cache c) <? max_memory_items c)%nat eqn:Hroom; simpl;
      [|now split; [|left]].
    split; [done|]. right. apply Nat.ltb_lt in Hroom. eauto.
  - split.
    + run_cache.
      destruct (size (memory_cache c) <? max_memory_items c)%nat; destruct w;
        reflexivity.
    + rewrite (after_put_memory text_hash_of).
      destruct (size (memory_cache c) <? max_memory_items c)%nat eqn:Hroom;
        [|now left].
      right. apply Nat.ltb_lt in Hroom. eauto.
Qed.

Lemma size_insert_le (m : gmap str vector) (h : str) (v : vector) :
  (size (<[h := v]> m) <= S (size m))%nat.
Proof. rewrite map_size_insert. destruct (m !! h); simpl; lia. Qed.

(** X4. Whatever calls are made, the memory tier never holds more entries
    than its capacity, the capacity stays what it was, and no fingerprint
    once in the memory tier leaves it. *)
Theorem memory_tier_stays_bounded (calls : list call) (c : cache_state) :
  (size (memory_cache c) <= max_memory_items c)%nat →
  (size (memory_cache (after_calls calls c)) <= max_memory_items c)%nat
  ∧ max_memory_items (after_calls calls c) = max_memory_items c
  ∧ ∀ h, is_Some (memory_cache c !! h) →
         is_Some (memory_cache (after_calls calls c) !! h).
Proof.
  revert c. induction calls as [|o calls IH]; intros c Hc; [done|].
  unfold EmbeddingCache.after_calls. cbn [fold_left].
  fold (after_calls calls (after_call c o)).
  destruct (after_call_memory c o) as [Hmax Hmem].
  assert (Hc' : (size (memory_cache (after_call c o))
                 <= max_memory_items (after_call c o))%nat).
  { rewrite Hmax. destruct Hmem as [-> | (Hroom & h & v & ->)]; [done|].
    pose proof (size_insert_le (memory_cache c) h v). lia. }
  destruct (IH _ Hc') as (Hsize & Hcap & Hkeys). rewrite Hmax in Hsize, Hcap.
  split; [exact Hsize|]. split; [exact Hcap|].
  intros h Hh. apply Hkeys.
  destruct Hmem as [-> | (_ & h' & v & ->)]; [done|].
  destruct (decide (h' = h)) as [-> | Hne].
  - rewrite lookup_insert_eq. eauto.
  - now rewrite lookup_insert_ne.
Qed.

(** X5. Once the memory tier is full it never changes again: no call stores
    in it, replaces an entry of it or removes one. *)
Theorem full_memory_tier_is_frozen (calls : list call) (c : cache_state) :
  (max_memory_items c <= size (memory_cache c))%nat →
  memory_cache (after_calls calls c) = memory_cache c.
Proof.
  revert c. induction calls as [|o calls IH]; intros c Hc; [done|].
  unfold EmbeddingCache.after_calls. cbn [fold_left].
  fold (after_calls calls (after_call c o)).
  destruct (after_call_memory c o) as [Hmax [Hmem | (Hroom & _)]]; [|lia].
  rewrite IH by (rewrite Hmax, Hmem; exact Hc). exact Hmem.
Qed.

(** X6. A lookup repeated at once gives the same answer and changes nothing
    more: what the first lookup promoted or removed stays so. *)
Theorem get_is_idempotent (text : str) (c : cache_state) :
  get text (after_get text c) = (get_value text c, after_get text c).
Proof.
  run_cache.
  destruct (memory_cache c !! text_hash_of text) eqn:Hm; simpl.
  { now rewrite Hm. }
  destruct (disk c !! text_hash_of text) as [[embedding|]|] eqn:Hd; simpl.
  - destruct (size (memory_cache c) <? max_memory_items c)%nat eqn:Hroom; simpl.
    + now rewrite lookup_insert_eq.
    + now rewrite Hm, Hd, Hroom.
  - case_bool_decide as Hin; simpl.
    + rewrite Hm, Hd. simpl. now rewrite bool_decide_eq_true_2.
    + now rewrite Hm, lookup_delete_eq.
  - now rewrite Hm, Hd.
Qed.

End Facts.

Lemma memory_tier_stays_bounded_witness :
  (size (memory_cache (after_calls plain_fingerprint [Put Written (py "a") [1%Q]; Get (py "a")]
                         (new_cache ∅))) <= 1000)%nat.
Proof.
  apply (memory_tier_stays_bounded plain_fingerprint [Put Written (py "a") [1%Q]; Get (py "a")]
           (new_cache ∅)).
  vm_compute. lia.
Defined.

Lemma full_memory_tier_is_frozen_witness :
  memory_cache (after_calls plain_fingerprint
                  [Put Written (py "late") [1%Q]; Get (py "late")] full_cache)
  = memory_cache full_cache.
Proof.
  apply (full_memory_tier_is_frozen plain_fingerprint
           [Put Written (py "late") [1%Q]; Get (py "late")] full_cache).
  vm_compute. lia.
Defined.

End MemoryTierFacts.

(** ** The query cache *)

Module QueryCacheFacts.
Import PyStr PyStrFacts Runtime EmbeddingCache Model.
Import EmbeddingService VectorStore SearchService QueryCache ServiceFacts.

Local Abbreviation entries := (list (cache_key * (list SearchResult * Q))).

(** *** The dictionary operations *)

Lemma key_eqb_refl (k : cache_key) : key_eqb k k = true.
Proof.
  unfold key_eqb. rewrite !bool_decide_eq_true_2 by reflexivity.
  destruct k.2 as [q|]; [|reflexivity]. apply Qeq_bool_iff. reflexivity.
Qed.

Lemma cache_assign_length (key : cache_key) (v : list SearchResult * Q) (qc : entries) :
  (length (cache_assign key v qc) <= S (length qc))%nat.
Proof.
  induction qc as [|[k v'] qc IH]; simpl; [lia|].
  destruct (key_eqb key k); simpl; lia.
Qed.

Lemma cache_lookup_assign (key : cache_key) (v : list SearchResult * Q) (qc : entries) :
  cache_lookup key (cache_assign key v qc) = Some v.
Proof.
  induction qc as [|[k v'] qc IH]; simpl.
  - now rewrite key_eqb_refl.
  - destruct (key_eqb key k) eqn:Hk; simpl; now rewrite Hk.
Qed.

(** An absent key is appended; a present key keeps the length. *)
Lemma cache_assign_absent (key : cache_key) (v : list SearchResult * Q) (qc : entries) :
  cache_lookup key qc = None → cache_assign key v qc = qc ++ [(key, v)].
Proof.
  induction qc as [|[k v'] qc IH]; simpl; [done|].
  destruct (key_eqb key k); [done|]. intros H. now rewrite IH.
Qed.

Lemma cache_assign_present (key : cache_key) (v : list SearchResult * Q) (qc : entries) :
  is_Some (cache_lookup key qc) → length (cache_assign key v qc) = length qc.
Proof.
  induction qc as [|[k v'] qc IH]; simpl; [intros [? [=]]|].
  destruct (key_eqb key k); [done|]. intros H. simpl. now rewrite IH.
Qed.

(** The oldest key is the key of an entry. *)
Lemma oldest_key_in (best : cache_key * (list SearchResult * Q)) (qc : entries) :
  ∃ e, e ∈ best :: qc ∧ oldest_key best qc = e.1.
Proof.
  revert best. induction qc as [|e qc IH]; intros best; simpl.
  - exists best. split; [left|done].
  - destruct (Qle_bool best.2.2 e.2.2).
    + destruct (IH best) as (x & Hx & ->). exists x. split; [|done].
      apply elem_of_cons in Hx as [-> | Hx]; [left|right; now right].
    + destruct (IH e) as (x & Hx & ->). exists x. split; [|done]. now right.
Qed.

(** Deleting the key of an entry removes one entry. *)
Lemma cache_delete_length (e : cache_key * (list SearchResult * Q)) (qc : entries) :
  e ∈ qc → S (length (cache_delete e.1 qc)) = length qc.
Proof.
  induction qc as [|[k v] qc IH]; intros He; [now apply elem_of_nil in He|].
  simpl. destruct (key_eqb e.1 k) eqn:Hk; [done|].
  apply elem_of_cons in He as [-> | He].
  - simpl in Hk. now rewrite key_eqb_refl in Hk.
  - simpl. now rewrite IH.
Qed.

Lemma cache_store_length (key : cache_key) (rs : list SearchResult) (now : Q)
    (qc : entries) :
  (length qc <= 100)%nat → (length (cache_store key rs now qc) <= 100)%nat.
Proof.
  intros Hqc. unfold cache_store.
  pose proof (cache_assign_length key (rs, now) qc) as Hlen.
  destruct (100 <? length (cache_assign key (rs, now) qc))%nat eqn:Hfull;
    [|apply Nat.ltb_ge in Hfull; exact Hfull].
  destruct (cache_assign key (rs, now) qc) as [|e qc'] eqn:Hassign; [simpl; lia|].
  destruct (oldest_key_in e qc') as (x & Hx & ->).
  pose proof (cache_delete_length x (e :: qc') Hx) as Hdel.
  simpl in Hlen, Hdel |- *. lia.
Qed.

(** With no time stamp later than the new one, the new entry is not the
    oldest unless it is alone. *)
Lemma oldest_key_snoc (best : cache_key * (list SearchResult * Q)) (qc : entries)
    (new : cache_key * (list SearchResult * Q)) :
  Qle best.2.2 new.2.2 → Forall (λ e, Qle e.2.2 new.2.2) qc →
  oldest_key best (qc ++ [new]) = oldest_key best qc.
Proof.
  revert best. induction qc as [|e qc IH]; intros best Hbest Hqc; simpl.
  - apply Qle_bool_iff in Hbest. now rewrite Hbest.
  - inversion Hqc as [|? ? He Hqc']; subst.
    destruct (Qle_bool best.2.2 e.2.2); now apply IH.
Qed.

Lemma cache_delete_snoc (e : cache_key * (list SearchResult * Q)) (qc : entries)
    (new : cache_key * (list SearchResult * Q)) :
  e ∈ qc → cache_delete e.1 (qc ++ [new]) = cache_delete e.1 qc ++ [new].
Proof.
  induction qc as [|[k v] qc IH]; intros He; [now apply elem_of_nil in He|].
  simpl. destruct (key_eqb e.1 k) eqn:Hk; [done|].
  apply elem_of_cons in He as [-> | He].
  - simpl in Hk. now rewrite key_eqb_refl in Hk.
  - simpl. now rewrite IH.
Qed.

Lemma cache_lookup_delete_absent (key k : cache_key) (qc : entries) :
  cache_lookup key qc = None → cache_lookup key (cache_delete k qc) = None.
Proof.
  induction qc as [|[k' v] qc IH]; simpl; [done|].
  destruct (key_eqb key k') eqn:Hk; [done|]. intros H.
  destruct (key_eqb k k'); [exact H|]. simpl. rewrite Hk. now apply IH.
Qed.

Lemma cache_lookup_snoc_absent (key : cache_key) (v : list SearchResult * Q)
    (qc : entries) :
  cache_lookup key qc = None → cache_lookup key (qc ++ [(key, v)]) = Some v.
Proof.
  induction qc as [|[k' v'] qc IH]; simpl.
  - now rewrite key_eqb_refl.
  - destruct (key_eqb key k'); [done|]. exact IH.
Qed.

(** What was just stored is what a look-up finds, as long as the dictionary
    was within its bound and the clock has not run backwards. *)
Lemma cache_lookup_store (key : cache_key) (rs : list SearchResult) (now : Q)
    (qc : entries) :
  (length qc <= 100)%nat → stamped_by now qc →
  cache_lookup key (cache_store key rs now qc) = Some (rs, now).
Proof.
  intros Hbound Hstamps. unfold cache_store.
  destruct (100 <? length (cache_assign key (rs, now) qc))%nat eqn:Hfull;
    [|apply cache_lookup_assign].
  apply Nat.ltb_lt in Hfull.
  destruct (cache_lookup key qc) as [old|] eqn:Hold.
  { rewrite cache_assign_present in Hfull by (rewrite Hold; eauto). lia. }
  rewrite (cache_assign_absent key (rs, now) qc Hold) in *.
  destruct qc as [|e qc']; [simpl in Hfull; lia|].
  simpl app. inversion Hstamps as [|? ? He Hrest]; subst.
  rewrite (oldest_key_snoc e qc' (key, (rs, now)) He Hrest).
  destruct (oldest_key_in e qc') as (x & Hx & ->).
  change (e :: qc' ++ [(key, (rs, now))]) with ((e :: qc') ++ [(key, (rs, now))]).
  rewrite (cache_delete_snoc x (e :: qc') _ Hx).
  apply cache_lookup_snoc_absent. now apply cache_lookup_delete_absent.
Qed.

(** *** What a call does to the query cache *)

#[local] Hint Resolve frames_ret frames_raise frames_lift frames_log
  frames_set_model_loaded frames_set_client_connected
  frames_gets_model_loaded frames_gets_client_connected
  frames_on_embedding_cache : frames.

Ltac answered :=
  simpl; eexists; split; [reflexivity|];
  split; [simpl; repeat case_bool_decide; simpl; congruence|done].

Section Calls.
Variable cfg : settings.
Variable env : environment.

Local Abbreviation search := (search cfg env).

(** A call answers; it stores its answer under its signature exactly when
    it carried no filters, computed the answer and the answer is not empty;
    otherwise the query cache stays as it was.  An answer that is not a
    failure is the answer to a query that is not blank. *)
Lemma search_query_cache (query : str) (limit : option Z)
    (score_threshold : option Q) (f : filters) (s : system) :
  ∃ resp,
    fst (search query limit score_threshold f s) = Return resp
    ∧ query_cache (snd (search query limit score_threshold f s))
      = (if stores f resp
         then cache_store (strip query, limit, score_threshold) (results resp)
                (time_at_store env) (query_cache s)
         else query_cache s)
    ∧ (is_Some (cached resp) →
       negb (truthy query) || negb (truthy (strip query)) = false).
Proof.
  unfold SearchService.search, search_body.
  destruct (negb (truthy query) || negb (truthy (strip query))) eqn:Hblank.
  { run_M. simpl. eexists. split; [reflexivity|].
    unfold stores. simpl. rewrite andb_false_r. split; [done|].
    now intros [? [=]]. }
  unfold stores.
  pose proof (frames_query_cache_kept _ s
                (frames_encode_single cfg env (strip query) true)) as Henc.
  destruct (filters_truthy f) eqn:Hf; cbn [negb andb]; run_M; cbn.
  - destruct (encode_single cfg env (strip query) true s) as [[v|e] s1];
      simpl in Henc; [|answered].
    destruct (length v =? 0)%nat; [answered|].
    pose proof (frames_query_cache_kept _ s1
                  (frames_search_similar cfg env v limit score_threshold f)) as Hsim.
    destruct (search_similar cfg env v limit score_threshold f s1) as [[rs|e] s2];
      simpl in Hsim; answered.
  - destruct (fresh_entry (strip query, limit, score_threshold)
                (time_at_lookup env) (query_cache s)) as [cached_results|];
      [answered|].
    destruct (encode_single cfg env (strip query) true s) as [[v|e] s1];
      simpl in Henc; [|answered].
    destruct (length v =? 0)%nat; [answered|].
    pose proof (frames_query_cache_kept _ s1
                  (frames_search_similar cfg env v limit score_threshold f)) as Hsim.
    destruct (search_similar cfg env v limit score_threshold f s1) as [[rs|e] s2];
      simpl in Hsim; [|answered].
    destruct (Ranker.post_process_results env rs (strip query)) as [|r rs'];
      answered.
Qed.

(** A fresh entry answers the call at once: nothing else is read, called or
    written. *)
Lemma search_cache_hit (query : str) (limit : option Z)
    (score_threshold : option Q) (f : filters) (s : system)
    (cached_results : list SearchResult) :
  filters_truthy f = false →
  negb (truthy query) || negb (truthy (strip query)) = false →
  fresh_entry (strip query, limit, score_threshold) (time_at_lookup env)
    (query_cache s) = Some cached_results →
  search query limit score_threshold f s
  = (Return (served_from_cache query cached_results), s).
Proof.
  intros Hf Hblank Hfresh. unfold SearchService.search, search_body.
  rewrite Hblank, Hf. cbn [negb]. run_M. cbn. now rewrite Hfresh.
Qed.

End Calls.

(** X7. The query cache never grows beyond 100 entries: a call made with at
    most 100 entries in it leaves at most 100. *)
Theorem query_cache_stays_bounded (cfg : settings) (env : environment)
    (query : str) (limit : option Z) (score_threshold : option Q) (f : filters)
    (s : system) :
  (length (query_cache s) <= 100)%nat →
  (length (query_cache (snd (search cfg env query limit score_threshold f s)))
   <= 100)%nat.
Proof.
  intros Hbound.
  destruct (search_query_cache cfg env query limit score_threshold f s)
    as (resp & _ & -> & _).
  destruct (stores f resp); [now apply cache_store_length|exact Hbound].
Qed.

Lemma query_cache_stays_bounded_witness :
  (length (query_cache (snd (search default_settings Samples.sample_env
                               (py "lazy fox") (Some 5%Z) None None
                               (initial_system ∅))))
   <= 100)%nat.
Proof.
  apply (query_cache_stays_bounded default_settings Samples.sample_env
           (py "lazy fox") (Some 5%Z) None None (initial_system ∅)).
  simpl. lia.
Defined.

(** X8. A call that carried no filters and computed a non-empty answer is
    followed by the same call within the time to live: the second call
    returns the results of the first, marked as cached, and touches nothing,
    no collaborator is called and no state changes.  The clock is assumed
    not to have run backwards: no entry is stamped later than the store. *)
Theorem repeated_search_is_served_from_cache
    (cfg : settings) (env env' : environment) (query : str)
    (limit : option Z) (score_threshold : option Q) (f : filters)
    (s : system) (resp : response) :
  filters_truthy f = false →
  (length (query_cache s) <= 100)%nat →
  stamped_by (time_at_store env) (query_cache s) →
  fst (search cfg env query limit score_threshold f s) = Return resp →
  cached resp = Some false →
  results resp ≠ [] →
  Qlt (time_at_lookup env' - time_at_store env) cache_ttl →
  let s' := snd (search cfg env query limit score_threshold f s) in
  search cfg env' query limit score_threshold f s'
  = (Return (served_from_cache query (results resp)), s').
Proof.
  intros Hf Hbound Hstamps Hresp Hcomputed Hresults Hfresh. cbv zeta.
  destruct (search_query_cache cfg env query limit score_threshold f s)
    as (resp' & Hresp' & Hqc & Hblank).
  rewrite Hresp in Hresp'. injection Hresp' as <-.
  apply search_cache_hit; [exact Hf|apply Hblank; rewrite Hcomputed; eauto|].
  rewrite Hqc. unfold stores. rewrite Hf, Hcomputed. cbn [negb andb].
  rewrite bool_decide_eq_true_2 by reflexivity.
  destruct (results resp) as [|r rs] eqn:Hrs; [done|]. cbn [andb].
  unfold fresh_entry. rewrite cache_lookup_store by assumption.
  destruct (Qle_bool cache_ttl (time_at_lookup env' - time_at_store env)) eqn:Hle;
    [|reflexivity].
  apply Qle_bool_iff in Hle. exfalso. exact (Qlt_not_le _ _ Hfresh Hle).
Qed.

Lemma repeated_search_is_served_from_cache_witness :
  ∃ resp,
    fst (search default_settings Samples.sample_env (py "lazy fox") (Some 5%Z)
           None None (initial_system ∅)) = Return resp
    ∧ search default_settings Samples.sample_env (py "lazy fox") (Some 5%Z)
        None None
        (snd (search default_settings Samples.sample_env (py "lazy fox")
                (Some 5%Z) None None (initial_system ∅)))
      = (Return (served_from_cache (py "lazy fox") (results resp)),
         snd (search default_settings Samples.sample_env (py "lazy fox")
                (Some 5%Z) None None (initial_system ∅))).
Proof.
  eexists. split; [vm_compute; reflexivity|].
  apply (repeated_search_is_served_from_cache default_settings
           Samples.sample_env Samples.sample_env (py "lazy fox") (Some 5%Z)
           None None (initial_system ∅));
    [reflexivity|simpl; lia|constructor|vm_compute; reflexivity|reflexivity
    |discriminate|reflexivity].
Defined.

(** X9. An entry as old as the time to live, or older, is not served: the
    call does not answer from the query cache. *)
Theorem expired_entry_is_not_served
    (cfg : settings) (env : environment) (query : str)
    (limit : option Z) (score_threshold : option Q) (f : filters)
    (s : system) (cached_results : list SearchResult) (cache_time : Q)
    (resp : response) :
  cache_lookup (strip query, limit, score_threshold) (query_cache s)
  = Some (cached_results, cache_time) →
  Qle cache_ttl (time_at_lookup env - cache_time) →
  fst (search cfg env query limit score_threshold f s) = Return resp →
  cached resp ≠ Some true.
Proof.
  intros Hlookup Hold. unfold search, search_body.
  destruct (negb (truthy query) || negb (truthy (strip query))).
  { run_M. simpl. intros [= <-]. done. }
  assert (Hfresh : fresh_entry (strip query, limit, score_threshold)
                     (time_at_lookup env) (query_cache s) = None).
  { unfold fresh_entry. rewrite Hlookup.
    apply Qle_bool_iff in Hold. now rewrite Hold. }
  destruct (filters_truthy f); cbn [negb]; run_M; cbn; rewrite ?Hfresh;
    (destruct (encode_single cfg env (strip query) true s) as [[v|e] s1];
       [|simpl; intros [= <-]; done]);
    (destruct (length v =? 0)%nat; [simpl; intros [= <-]; done|]);
    (destruct (search_similar cfg env v limit score_threshold f s1) as [[rs|e] s2];
       [|simpl; intros [= <-]; done]);
    destruct (Ranker.post_process_results env rs (strip query));
    simpl; intros [= <-]; done.
Qed.

Lemma expired_entry_is_not_served_witness :
  ∃ resp,
    fst (search default_settings Samples.sample_env (py "lazy fox") (Some 5%Z)
           None None
           (with_query_cache [((py "lazy fox", Some 5%Z, None), ([], 0%Q))]
              (initial_system ∅))) = Return resp
    ∧ cached resp ≠ Some true.
Proof.
  eexists. split; [vm_compute; reflexivity|].
  apply (expired_entry_is_not_served default_settings Samples.sample_env
           (py "lazy fox") (Some 5%Z) None None
           (with_query_cache [((py "lazy fox", Some 5%Z, None), ([], 0%Q))]
              (initial_system ∅)) [] 0%Q);
    [vm_compute; reflexivity|vm_compute; discriminate|vm_compute; reflexivity].
Defined.

(** X10. An answer without results is never stored: whatever the call, when
    it returns no results the query cache is what it was before. *)
Theorem empty_answer_is_not_cached (cfg : settings) (env : environment)
    (query : str) (limit : option Z) (score_threshold : option Q) (f : filters)
    (s : system) (resp : response) :
  fst (search cfg env query limit score_threshold f s) = Return resp →
  results resp = [] →
  query_cache (snd (search cfg env query limit score_threshold f s))
  = query_cache s.
Proof.
  intros Hresp Hempty.
  destruct (search_query_cache cfg env query limit score_threshold f s)
    as (resp' & Hresp' & -> & _).
  rewrite Hresp in Hresp'. injection Hresp' as <-.
  unfold stores. rewrite Hempty. now rewrite andb_false_r.
Qed.

Lemma empty_answer_is_not_cached_witness :
  query_cache (snd (search default_settings Samples.sample_env (py "lazy fox")
                      (Some 5%Z) (Some 2%Q) None (initial_system ∅)))
  = query_cache (initial_system ∅).
Proof.
  eapply (empty_answer_is_not_cached default_settings Samples.sample_env
            (py "lazy fox") (Some 5%Z) (Some 2%Q) None (initial_system ∅));
    [vm_compute; reflexivity|reflexivity].
Defined.

End QueryCacheFacts.

(** ** Scores and identities through the ranking stage *)

Module RankingFacts.
Import PyStr Runtime Model Ranker Ranking RankerFacts.
Local Open Scope Q_scope.

Lemma py_min_cases (a b : Q) :
  (py_min a b = a ∧ a <= b) ∨ (py_min a b = b ∧ b < a).
Proof.
  unfold py_min. destruct (Qle_bool a b) eqn:H.
  - left. split; [done|]. now apply Qle_bool_iff.
  - right. split; [done|]. apply Qnot_le_lt. intros Hle.
    apply Qle_bool_iff in Hle. congruence.
Qed.

Lemma py_max_cases (a b : Q) :
  (py_max a b = a ∧ b <= a) ∨ (py_max a b = b ∧ a < b).
Proof.
  unfold py_max. destruct (Qle_bool b a) eqn:H.
  - left. split; [done|]. now apply Qle_bool_iff.
  - right. split; [done|]. apply Qnot_le_lt. intros Hle.
    apply Qle_bool_iff in Hle. congruence.
Qed.

Lemma unit_score_range (q : Q) : 0 <= unit_score q ∧ unit_score q <= 1.
Proof.
  unfold unit_score.
  destruct (py_max_cases 0 (py_min 1 q)) as [[-> H] | [-> H]];
    destruct (py_min_cases 1 q) as [[Hm H'] | [Hm H']]; rewrite ?Hm in *; lra.
Qed.

Lemma inject_nat_nonneg (n : nat) : 0 <= inject_Z (Z.of_nat n).
Proof. unfold Qle. simpl. lia. Qed.

(** The keyword boost lies between 0 and 0.1. *)
Lemma keyword_boost_range (n m : nat) :
  let boost := py_min (1 # 10)
                 (inject_Z (Z.of_nat n) / inject_Z (Z.of_nat m) * (1 # 10)) in
  0 <= boost ∧ boost <= 1 # 10.
Proof.
  cbv zeta.
  assert (Hq : 0 <= inject_Z (Z.of_nat n) / inject_Z (Z.of_nat m)).
  { unfold Qdiv. apply Qmult_le_0_compat; [apply inject_nat_nonneg|].
    apply Qinv_le_0_compat, inject_nat_nonneg. }
  destruct (py_min_cases (1 # 10)
              (inject_Z (Z.of_nat n) / inject_Z (Z.of_nat m) * (1 # 10)))
    as [[-> H] | [-> H]]; lra.
Qed.

(** The first loop: identity kept, the incoming score recorded, and the new
    score between 0.9 times the clamped score and 0.1 above it. *)
Lemma enhance_ranked (env : environment) (qw : list str) (r : SearchResult) :
  let e := enhance env qw r in
  chunk_id e = chunk_id r ∧ text e = text r ∧ source_file e = source_file r
  ∧ metadata e !! py "original_score" = Some (PFloat (score r))
  ∧ (9 # 10) * unit_score (score r) <= score e
  ∧ score e <= 1
  ∧ score e <= unit_score (score r) + (1 # 10).
Proof.
  cbv zeta. unfold enhance. cbv zeta.
  pose proof (unit_score_range (score r)) as [Hlo Hhi].
  set (base := new_SearchResult (chunk_id r) (text r) (score r)
                 (source_file r) (metadata r)).
  assert (Hbase : score base = unit_score (score r)) by reflexivity.
  set (common := List.filter _ qw).
  pose proof (keyword_boost_range (length common) (length qw)) as Hboost.
  cbv zeta in Hboost.
  set (boost := py_min (1 # 10) _) in *.
  destruct Hboost as [Hb0 Hb1].
  destruct (py_min_cases 1 (score base + boost)) as [[Hmin Hm] | [Hmin Hm]];
    rewrite Hbase in Hm;
    destruct (negb (length common =? 0)%nat);
    destruct (Z.of_nat (length (split (text r))) <? 10)%Z;
    destruct (500 <? Z.of_nat (length (split (text r))))%Z;
    cbn [chunk_id text source_file score metadata set_score set_metadata];
    rewrite ?Hmin, ?Hbase;
    (split; [reflexivity|]); (split; [reflexivity|]); (split; [reflexivity|]);
    (split; [rewrite lookup_insert_ne by (vm_compute; discriminate);
             apply lookup_insert_eq|]);
    repeat split; lra.
Qed.

(** The diversity loop keeps a candidate or penalises it. *)
Lemma diversify_kept_or_penalized (m : Z) (earlier l : list SearchResult) :
  Forall2 (λ e d, d = e ∨ d = penalize e) l (diversify m earlier l).
Proof.
  revert earlier. induction l as [|e l IH]; intros earlier; simpl; constructor.
  - unfold diversified. destruct (_ <? _)%Z; [now left|now right].
  - apply IH.
Qed.

Lemma ranked_step (env : environment) (qw : list str) (r e d : SearchResult) :
  e = enhance env qw r → d = e ∨ d = penalize e → ranked_from r d.
Proof.
  intros -> Hd.
  destruct (enhance_ranked env qw r) as (Hid & Htext & Hsrc & Horig & Hlo & Hhi & Hup).
  pose proof (unit_score_range (score r)) as [Hu0 Hu1].
  unfold ranked_from. destruct Hd as [-> | ->].
  - repeat split; try done; lra.
  - unfold penalize.
    cbn [chunk_id text source_file score metadata set_score set_metadata].
    rewrite lookup_insert_ne by (vm_compute; discriminate).
    repeat split; try done; lra.
Qed.

Lemma Forall2_compose {A B C} (P : A → B → Prop) (Q : B → C → Prop)
    (R : A → C → Prop) (l : list A) (k : list B) (m : list C) :
  (∀ x y z, P x y → Q y z → R x z) →
  Forall2 P l k → Forall2 Q k m → Forall2 R l m.
Proof.
  intros HR Hlk. revert m.
  induction Hlk as [|x y l k Hxy _ IH]; intros m Hkm;
    inversion Hkm; subst; constructor; eauto.
Qed.

(** X11. Ranking returns the results it was given, each once: there is a
    rearrangement of the input that matches the output result by result,
    where a result keeps its chunk id, text and source file, records its
    incoming score as [original_score], and has a score in the unit interval,
    at least 0.72 times and at most 0.1 above its incoming score as the
    constructor clamps it. *)
Theorem ranking_keeps_results_and_bounds_scores (env : environment)
    (results : list SearchResult) (query : str) :
  ∃ l, Permutation results l
       ∧ Forall2 ranked_from l (post_process_results env results query).
Proof.
  rewrite post_process_results_diversifies.
  set (qw := word_set (lower env query)).
  set (cand := ranked_candidates env results query).
  set (out := sort_by_score (diversify (max_per_file_of results) [] cand)).
  assert (Hcand : ∃ l, Permutation results l
                       ∧ Forall2 (λ r e, e = enhance env qw r) l cand).
  { pose proof (ranked_candidates_perm env results query) as Hperm.
    fold cand qw in Hperm. symmetry in Hperm.
    assert (Hmap : Forall2 (flip (λ r e, e = enhance env qw r))
                     (List.map (enhance env qw) results) results).
    { apply Forall2_flip. clear. induction results; constructor; done. }
    destruct (Permutation_Forall2 Hperm Hmap) as (l & Hl & Hf).
    exists l. split; [exact Hl|]. now apply Forall2_flip in Hf. }
  destruct Hcand as (l & Hl & Hle).
  assert (Hld : Forall2 ranked_from l (diversify (max_per_file_of results) [] cand)).
  { eapply Forall2_compose;
      [|exact Hle|apply diversify_kept_or_penalized].
    intros r e d He Hd. exact (ranked_step env qw r e d He Hd). }
  assert (Hperm : Permutation (diversify (max_per_file_of results) [] cand) out)
    by (symmetry; apply sort_by_score_perm).
  apply Forall2_flip in Hld.
  destruct (Permutation_Forall2 Hperm Hld) as (l' & Hl' & Hf).
  exists l'. split; [now rewrite Hl|]. now apply Forall2_flip in Hf.
Qed.

End RankingFacts.

(** ** The vector store *)

Module StoreFacts.
Import PyStr Runtime EmbeddingCache Model VectorStore StoreShape ServiceFacts.

Section Store.
Variable cfg : settings.
Variable env : environment.

Local Abbreviation search_similar := (search_similar cfg env).

(** [search_similar] never raises. *)
Lemma search_similar_returns (v : vector) (limit : option Z)
    (score_threshold : option Q) (f : filters) (s : system) :
  ∃ rs, fst (search_similar v limit score_threshold f s) = Return rs.
Proof.
  unfold VectorStore.search_similar, try_except.
  match goal with
  | |- context [match ?m s with _ => _ end] => destruct (m s) as [[rs|e] s']
  end; simpl; eauto.
Qed.

(** What it returns is the empty list or one result per hit. *)
Lemma search_similar_results (v : vector) (limit : option Z)
    (score_threshold : option Q) (f : filters) (s : system)
    (rs : list SearchResult) :
  fst (search_similar v limit score_threshold f s) = Return rs →
  rs = [] ∨ ∃ hits, rs = List.map result_of_hit hits.
Proof.
  unfold VectorStore.search_similar, get_client. run_M. cbn.
  destruct (client_connected s); cbn.
  - destruct (qdrant_filter_of f) as [qdrant_filter|e]; cbn;
      [|intros [= <-]; eauto].
    destruct (qdrant_search env v _ _ _) as [hits|e]; cbn; intros [= <-]; eauto.
  - destruct (qdrant_connect env) as [[]|e]; cbn; [|intros [= <-]; eauto].
    destruct (qdrant_get_collections env) as [[]|e]; cbn; [|intros [= <-]; eauto].
    destruct (qdrant_filter_of f) as [qdrant_filter|e]; cbn;
      [|intros [= <-]; eauto].
    destruct (qdrant_search env v _ _ _) as [hits|e]; cbn; intros [= <-]; eauto.
Qed.

Lemma result_of_hit_well_formed (h : hit) : well_formed (result_of_hit h).
Proof.
  unfold well_formed, result_of_hit, new_SearchResult.
  cbn [score metadata source_file].
  pose proof (RankingFacts.unit_score_range (hit_score h)) as [Hlo Hhi].
  split; [exact Hlo|]. split; [exact Hhi|].
  set (rest := delete (py "text") (delete (py "chunk_id")
                 (delete (py "source_file") (payload h)))).
  assert (Htext : rest !! py "text" = None) by apply lookup_delete_eq.
  assert (Hid : rest !! py "chunk_id" = None).
  { unfold rest. rewrite lookup_delete_ne by (vm_compute; discriminate).
    apply lookup_delete_eq. }
  assert (Hsrc : rest !! py "source_file" = None).
  { unfold rest. rewrite !lookup_delete_ne by (vm_compute; discriminate).
    apply lookup_delete_eq. }
  destruct (rest !! py "file_name") as [name|] eqn:Hname.
  { repeat split; first [done | intros _; rewrite Hname; eauto]. }
  destruct (truthy (payload_string (payload h) (py "source_file") [])) eqn:Htruthy.
  - rewrite !lookup_insert_ne by (vm_compute; discriminate).
    repeat split; first [done | intros _; rewrite lookup_insert_eq; eauto].
  - repeat split; try done.
    destruct (payload_string (payload h) (py "source_file") []); done.
Qed.

End Store.

(** X12. [search_similar] never raises, and every failure gives the empty
    list.  When the client is not set and its constructor fails, the index
    is not asked and the client stays unset, so that the next call makes it
    again.  When the constructor returns and the check that follows fails,
    the index is not asked either, but the client stays set: the next call
    goes to the index at once, without a new connection or check.  With the
    client set, filters that the index's filter classes reject give the
    empty list without the index being asked, and an exception of the index
    gives the empty list. *)
Theorem search_similar_failure_gives_no_results
    (cfg : settings) (env : environment) (v : vector) (limit : option Z)
    (score_threshold : option Q) (f : filters) (s : system) :
  (∃ rs, fst (search_similar cfg env v limit score_threshold f s) = Return rs)
  ∧ (∀ e, client_connected s = false →
          qdrant_connect env = Raise e →
          search_similar cfg env v limit score_threshold f s
          = (Return [], snd (log Connected s))
          ∧ client_connected (snd (log Connected s)) = false)
  ∧ (∀ e, client_connected s = false →
          qdrant_connect env = Return tt →
          qdrant_get_collections env = Raise e →
          let s' := set_client_connected true (snd (log Connected s)) in
          search_similar cfg env v limit score_threshold f s = (Return [], s')
          ∧ client_connected s' = true
          ∧ ∀ v' limit' score_threshold' f' qdrant_filter,
              qdrant_filter_of f' = Return qdrant_filter →
              events (snd (search_similar cfg env v' limit' score_threshold' f' s'))
              = events s ++ [Connected;
                             Searched v' qdrant_filter
                               (effective_limit cfg limit')
                               (effective_threshold cfg score_threshold')])
  ∧ (∀ e, client_connected s = true →
          qdrant_filter_of f = Raise e →
          search_similar cfg env v limit score_threshold f s = (Return [], s))
  ∧ (∀ e qdrant_filter, client_connected s = true →
          qdrant_filter_of f = Return qdrant_filter →
          qdrant_search env v qdrant_filter (effective_limit cfg limit)
            (effective_threshold cfg score_threshold) = Raise e →
          fst (search_similar cfg env v limit score_threshold f s) = Return []).
Proof.
  split; [apply search_similar_returns|]. split; [|split; [|split]].
  - intros e Hconn Hfail. destruct s as [ec ml cc qc ev]. simpl in Hconn. subst cc.
    unfold search_similar, get_client. run_M. cbn.
    rewrite Hfail. cbn. split; reflexivity.
  - intros e Hconn Hmade Hfail. cbv zeta.
    destruct s as [ec ml cc qc ev]. simpl in Hconn. subst cc.
    split; [|split; [reflexivity|]].
    + unfold search_similar, get_client. run_M. cbn.
      rewrite Hmade. cbn. rewrite Hfail. cbn. reflexivity.
    + intros v' limit' score_threshold' f' qdrant_filter Hfilter.
      destruct (search_similar_connected cfg env v' limit' score_threshold' f'
                  qdrant_filter
                  (set_client_connected true
                     (snd (log Connected
                             {| embedding_cache := ec; model_loaded := ml;
                                client_connected := false; query_cache := qc;
                                events := ev |})))
                  eq_refl Hfilter) as (s2 & -> & Hev & _).
      cbn [snd]. rewrite Hev. cbn. now rewrite <- app_assoc.
  - intros e Hconn Hfilter.
    now apply (search_similar_filter_rejected cfg env v limit score_threshold f e).
  - intros e qdrant_filter Hconn Hfilter Hfail.
    destruct (search_similar_connected cfg env v limit score_threshold f
                qdrant_filter s Hconn Hfilter) as (s' & -> & _).
    now rewrite Hfail.
Qed.

Lemma search_similar_failure_gives_no_results_witness :
  search_similar default_settings
    {| sha256_hex := plain_fingerprint; lower := Samples.ascii_lower;
       load_transformer := Return tt;
       transformer_encode := λ _, Return [1; 0; 0]%Q;
       cache_write := Written;
       qdrant_connect := Return tt;
       qdrant_get_collections := Raise ConnectionError;
       qdrant_search := Samples.sample_index;
       time_at_lookup := 1000; time_at_store := 1001 |}
    [1; 0; 0]%Q None None None (initial_system ∅)
  = (Return [],
     set_client_connected true (snd (log Connected (initial_system ∅)))).
Proof.
  apply (search_similar_failure_gives_no_results default_settings
           {| sha256_hex := plain_fingerprint; lower := Samples.ascii_lower;
              load_transformer := Return tt;
              transformer_encode := λ _, Return [1; 0; 0]%Q;
              cache_write := Written;
              qdrant_connect := Return tt;
              qdrant_get_collections := Raise ConnectionError;
              qdrant_search := Samples.sample_index;
              time_at_lookup := 1000; time_at_store := 1001 |}
           [1; 0; 0]%Q None None None (initial_system ∅))
    with (e := ConnectionError); reflexivity.
Defined.

(** X13. Every result [search_similar] returns has its score in the unit
    interval, whatever score the index reported; its metadata holds none of
    the payload keys [text], [chunk_id] and [source_file]; and its metadata
    holds a [file_name] whenever its source file is not empty. *)
Theorem search_results_are_well_formed
    (cfg : settings) (env : environment) (v : vector) (limit : option Z)
    (score_threshold : option Q) (f : filters) (s : system)
    (rs : list SearchResult) :
  fst (search_similar cfg env v limit score_threshold f s) = Return rs →
  Forall well_formed rs.
Proof.
  intros Hrs.
  destruct (search_similar_results cfg env v limit score_threshold f s rs Hrs)
    as [-> | (hits & ->)]; [constructor|].
  apply List.Forall_forall. intros r Hr.
  apply in_map_iff in Hr as (h & <- & _).
  apply result_of_hit_well_formed.
Qed.

Lemma search_results_are_well_formed_witness :
  ∃ rs,
    fst (search_similar default_settings Samples.sample_env [1; 0; 0]%Q
           (Some 3%Z) None None (initial_system ∅)) = Return rs
    ∧ length rs = 3%nat
    ∧ Forall well_formed rs.
Proof.
  eexists. split; [vm_compute; reflexivity|]. split; [reflexivity|].
  apply (search_results_are_well_formed default_settings Samples.sample_env
           [1; 0; 0]%Q (Some 3%Z) None None (initial_system ∅)).
  vm_compute. reflexivity.
Defined.

Lemma unsupported_conditions (entries : list (str * filter_value)) :
  Forall (λ entry, supported entry.2 = false) entries →
  conditions_of entries = Return [].
Proof.
  induction 1 as [|[key value] entries Hentry _ IH]; [reflexivity|].
  cbn [conditions_of]. rewrite IH. unfold condition_of. simpl in *.
  destruct value; (discriminate Hentry || reflexivity).
Qed.

(** X14. Filters whose values are all of a kind the code does not handle
    are ignored without notice: [search_similar] does exactly what it does
    without filters, so the index is asked for unfiltered results. *)
Theorem unsupported_filters_are_ignored
    (cfg : settings) (env : environment) (v : vector) (limit : option Z)
    (score_threshold : option Q) (entries : list (str * filter_value)) (s : system) :
  Forall (λ entry, supported entry.2 = false) entries →
  search_similar cfg env v limit score_threshold (Some entries) s
  = search_similar cfg env v limit score_threshold None s.
Proof.
  intros Hentries. unfold search_similar.
  assert (Hfilter : qdrant_filter_of (Some entries) = qdrant_filter_of None).
  { unfold qdrant_filter_of. destruct entries as [|entry entries]; [reflexivity|].
    pose proof (unsupported_conditions (entry :: entries) Hentries) as Hnone.
    cbn [filters_truthy from_option id].
    now rewrite Hnone. }
  now rewrite Hfilter.
Qed.

Lemma unsupported_filters_are_ignored_witness :
  search_similar default_settings Samples.sample_env [1; 0; 0]%Q (Some 3%Z) None
    (Some [(py "tags", FOther)]) (initial_system ∅)
  = search_similar default_settings Samples.sample_env [1; 0; 0]%Q (Some 3%Z) None
      None (initial_system ∅).
Proof.
  apply (unsupported_filters_are_ignored default_settings Samples.sample_env
           [1; 0; 0]%Q (Some 3%Z) None [(py "tags", FOther)] (initial_system ∅)).
  repeat constructor.
Defined.

End StoreFacts.

(** ** Rate limiting *)

Module RateLimiterFacts.
Import PyStr Runtime RateLimiter.
Local Open Scope Z_scope.

(** A request of another client leaves the entry of the client alone. *)
Lemma is_allowed_other (now : Q) (c c' : str) (l : limiter) :
  c' ≠ c →
  clients (snd (is_allowed now c' l)) !! c = clients l !! c
  ∧ max_requests (snd (is_allowed now c' l)) = max_requests l
  ∧ window_seconds (snd (is_allowed now c' l)) = window_seconds l.
Proof.
  intros Hne. unfold is_allowed.
  destruct (clients l !! c') as [data|]; simpl.
  - destruct (negb _); simpl; [now rewrite lookup_insert_ne|].
    destruct (_ <=? _); simpl; [done|now rewrite lookup_insert_ne].
  - now rewrite lookup_insert_ne.
Qed.

Lemma decisions_cons (now : Q) (c : str) (calls : list (Q * str)) (l : limiter) :
  decisions ((now, c) :: calls) l
  = (c, fst (is_allowed now c l)) :: decisions calls (snd (is_allowed now c l)).
Proof. simpl. now destruct (is_allowed now c l). Qed.

(** Inside the window the client is allowed as many further requests as the
    maximum exceeds its count. *)
Lemma allowed_inside_window (c : str) (calls : list (Q * str)) :
  ∀ (l : limiter) (data : client_data),
    clients l !! c = Some data →
    within_window (window_seconds l) (window_start data) c calls →
    allowed_to c (decisions calls l)
    = Nat.min (made_by c calls) (Z.to_nat (max_requests l - requests data)).
Proof.
  induction calls as [|[now c'] calls IH]; intros l data Hdata Hwin.
  { reflexivity. }
  rewrite decisions_cons. inversion Hwin as [|? ? Hcall Hrest]; subst.
  unfold allowed_to, made_by in *. cbn [List.filter fst snd].
  destruct (decide (c' = c)) as [-> | Hne].
  - rewrite !bool_decide_eq_true_2 by reflexivity. cbn [andb].
    specialize (Hcall eq_refl). simpl in Hcall.
    apply Qle_bool_iff in Hcall.
    unfold is_allowed. rewrite Hdata, Hcall. cbn [negb].
    destruct (max_requests l <=? requests data) eqn:Hfull; cbn [fst snd].
    + apply Z.leb_le in Hfull.
      rewrite (IH l data Hdata Hrest).
      replace (Z.to_nat (max_requests l - requests data)) with 0%nat by lia.
      simpl. lia.
    + apply Z.leb_gt in Hfull. cbn [length].
      rewrite (IH _ {| requests := requests data + 1;
                       window_start := window_start data |});
        [|simpl; apply lookup_insert_eq|exact Hrest].
      cbn [max_requests set_client requests]. lia.
  - rewrite !bool_decide_eq_false_2 by done. cbn [andb].
    destruct (is_allowed_other now c c' l Hne) as (Hsame & Hmax & Hsec).
    rewrite (IH _ data); [now rewrite Hmax|now rewrite Hsame, Hdata|].
    now rewrite Hsec.
Qed.

(** X15. A client not seen before that makes all its requests within the
    window opened by its first one is allowed [max(1, max_requests)] of them
    and no more, however the requests of other clients are interleaved: the
    first request of a client is never checked against the maximum. *)
Theorem requests_allowed_in_one_window (c : str) (calls : list (Q * str))
    (l : limiter) :
  clients l !! c = None →
  in_one_window (window_seconds l) c calls →
  allowed_to c (decisions calls l)
  = Nat.min (made_by c calls) (Z.to_nat (Z.max 1 (max_requests l))).
Proof.
  revert l. induction calls as [|[now c'] calls IH]; intros l Habsent Hwin.
  { reflexivity. }
  rewrite decisions_cons. unfold in_one_window in Hwin. cbn [first_request] in Hwin.
  destruct (decide (c' = c)) as [-> | Hne].
  - rewrite bool_decide_eq_true_2 in Hwin by reflexivity.
    inversion Hwin as [|? ? _ Hrest]; subst.
    unfold is_allowed. rewrite Habsent. cbn [fst snd].
    pose proof (allowed_inside_window c calls
                  (set_client c {| requests := 1; window_start := now |} l)
                  {| requests := 1; window_start := now |}) as Hin.
    cbn [clients set_client window_seconds max_requests requests window_start] in Hin.
    specialize (Hin (lookup_insert_eq _ _ _) Hrest).
    unfold allowed_to, made_by in *. cbn [List.filter fst snd].
    rewrite !bool_decide_eq_true_2 by reflexivity. cbn [andb length].
    rewrite Hin. lia.
  - rewrite bool_decide_eq_false_2 in Hwin by done.
    destruct (is_allowed_other now c c' l Hne) as (Hsame & Hmax & Hsec).
    assert (Hstep : allowed_to c (decisions calls (snd (is_allowed now c' l)))
                    = Nat.min (made_by c calls) (Z.to_nat (Z.max 1 (max_requests l)))).
    { rewrite IH; [now rewrite Hmax|now rewrite Hsame|].
      unfold in_one_window. rewrite Hsec.
      destruct (first_request c calls) as [t0|]; [|done].
      now inversion Hwin. }
    unfold allowed_to, made_by in *. cbn [List.filter fst snd].
    rewrite !bool_decide_eq_false_2 by done. cbn [andb]. exact Hstep.
Qed.

Lemma requests_allowed_in_one_window_witness :
  allowed_to (py "10.0.0.1")
    (decisions [(0%Q, py "10.0.0.1"); (1%Q, py "10.0.0.2"); (2%Q, py "10.0.0.1");
                (3%Q, py "10.0.0.1")] (new_limiter 2 60))
  = Nat.min (made_by (py "10.0.0.1")
               [(0%Q, py "10.0.0.1"); (1%Q, py "10.0.0.2"); (2%Q, py "10.0.0.1");
                (3%Q, py "10.0.0.1")])
      (Z.to_nat (Z.max 1 (max_requests (new_limiter 2 60)))).
Proof.
  apply (requests_allowed_in_one_window (py "10.0.0.1")
           [(0%Q, py "10.0.0.1"); (1%Q, py "10.0.0.2"); (2%Q, py "10.0.0.1");
            (3%Q, py "10.0.0.1")] (new_limiter 2 60)).
  - reflexivity.
  - vm_compute. repeat constructor; intros _ [=].
Defined.

(** X16. A refused request changes nothing in the limiter, and the
    exception [check_rate_limit] raises for it has status 429 and reports no
    requests remaining, the window as the time to wait and the maximum as
    the limit. *)
Theorem refused_request_reports_nothing_remaining (now : Q) (c : str)
    (l : limiter) (e : too_many_requests) :
  fst (check_rate_limit now c l) = Some e →
  snd (check_rate_limit now c l) = l
  ∧ fst (is_allowed now c l) = false
  ∧ status_code e = 429
  ∧ rate_limit_remaining e = 0
  ∧ retry_after e = window_seconds l
  ∧ rate_limit_limit e = max_requests l.
Proof.
  unfold check_rate_limit, is_allowed, get_remaining.
  destruct (clients l !! c) as [data|] eqn:Hdata; simpl; [|discriminate].
  destruct (negb _); simpl; [discriminate|].
  destruct (max_requests l <=? requests data) eqn:Hfull; simpl; [|discriminate].
  intros [= <-]. simpl. rewrite Hdata. apply Z.leb_le in Hfull.
  repeat split; lia.
Qed.

Lemma refused_request_reports_nothing_remaining_witness :
  snd (check_rate_limit 2%Q (py "10.0.0.1")
         (snd (is_allowed 1%Q (py "10.0.0.1") (new_limiter 1 60))))
  = snd (is_allowed 1%Q (py "10.0.0.1") (new_limiter 1 60)).
Proof.
  eapply (refused_request_reports_nothing_remaining 2%Q (py "10.0.0.1")
            (snd (is_allowed 1%Q (py "10.0.0.1") (new_limiter 1 60)))).
  vm_compute. reflexivity.
Defined.

End RateLimiterFacts.

(** ** Chunk ids *)

Module ProcessorFacts.
Import PyStr Runtime Chunker Processor.

(** *** The index format *)

Lemma digit_value_digits (u : Decimal.uint) (acc : nat) :
  fold_left (λ acc c, (10 * acc + (N.to_nat c - 48))%nat) (digits u) acc
  = Nat.of_uint_acc u acc.
Proof.
  revert acc. induction u as [|u IH|u IH|u IH|u IH|u IH|u IH|u IH|u IH|u IH|u IH];
    intros acc; [reflexivity|..];
    cbn [digits fold_left Nat.of_uint_acc]; rewrite IH; f_equal;
    rewrite Nat.tail_mul_spec; simpl; lia.
Qed.

Lemma digit_value_zeros (k : nat) (s : str) :
  digit_value (repeat 48%N k ++ s) = digit_value s.
Proof.
  unfold digit_value. induction k as [|k IH]; [reflexivity|].
  simpl. exact IH.
Qed.

(** The format can be read back. *)
Lemma digit_value_format (i : nat) : digit_value (format_04d i) = i.
Proof.
  unfold format_04d. cbv zeta. rewrite digit_value_zeros.
  unfold digit_value. rewrite digit_value_digits.
  apply DecimalNat.Unsigned.of_to.
Qed.

Lemma digits_no_underscore (u : Decimal.uint) : 95%N ∉ digits u.
Proof.
  induction u; simpl; [apply not_elem_of_nil|..];
    (apply not_elem_of_cons; split; [discriminate|assumption]).
Qed.

Lemma format_no_underscore (i : nat) : 95%N ∉ format_04d i.
Proof.
  unfold format_04d. cbv zeta. intros Hin.
  apply elem_of_app in Hin as [Hin | Hin].
  - apply list_elem_of_In, repeat_spec in Hin. discriminate Hin.
  - exact (digits_no_underscore _ Hin).
Qed.

(** What follows the last separator determines what comes before it. *)
Lemma app_separator_inj (x : char) (l1 l2 d1 d2 : str) :
  x ∉ d1 → x ∉ d2 → l1 ++ x :: d1 = l2 ++ x :: d2 → l1 = l2 ∧ d1 = d2.
Proof.
  intros H1 H2. revert l2.
  induction l1 as [|a l1 IH]; intros [|b l2] Heq; simpl in Heq.
  - injection Heq as ->. done.
  - injection Heq as <- ->. exfalso. apply H1.
    apply elem_of_app. right. left.
  - injection Heq as -> <-. exfalso. apply H2.
    apply elem_of_app. right. left.
  - injection Heq as <- Heq. destruct (IH l2 Heq) as [-> ->]. done.
Qed.

Lemma chunk_id_of_inj (stem stem' : str) (i j : nat) :
  chunk_id_of stem i = chunk_id_of stem' j → stem = stem' ∧ i = j.
Proof.
  unfold chunk_id_of. simpl. intros Heq.
  apply app_separator_inj in Heq as [-> Hformat];
    [|apply format_no_underscore..].
  split; [reflexivity|].
  rewrite <- (digit_value_format i), <- (digit_value_format j).
  now rewrite Hformat.
Qed.

(** X17. A chunk id determines the stem and the index it was made from: two
    ids are equal only for the same stem and the same index. *)
Theorem chunk_id_determines_stem_and_index (stem stem' : str) (i j : nat) :
  chunk_id_of stem i = chunk_id_of stem' j → stem = stem' ∧ i = j.
Proof.
  unfold chunk_id_of. simpl. intros Heq.
  apply app_separator_inj in Heq as [-> Hformat];
    [|apply format_no_underscore..].
  split; [reflexivity|].
  rewrite <- (digit_value_format i), <- (digit_value_format j).
  now rewrite Hformat.
Qed.

Lemma chunk_id_determines_stem_and_index_witness :
  py "report" = py "report" ∧ 12%nat = 12%nat.
Proof.
  apply (chunk_id_determines_stem_and_index (py "report") (py "report") 12 12).
  reflexivity.
Defined.

(** *** The chunks of a document *)

Lemma collect_return {A} (l : list (result A)) (values : list A) :
  collect l = Return values → l = List.map Return values.
Proof.
  revert values. induction l as [|[a|e] l IH]; intros values; simpl.
  - now intros [= <-].
  - destruct (collect l) as [rest|e]; [|discriminate].
    intros [= <-]. simpl. now rewrite (IH rest).
  - discriminate.
Qed.

Section Process.
Variable is_alnum : char → bool.
Variable lower : str → str.
Variables chunk_size chunk_overlap : Z.
Variable extract_text_from_docx : file → str * gmap str pyval.
Variable extract_text_from_pdf : file → str * gmap str pyval.
Variable extract_text_from_txt : file → str * gmap str pyval.
Variable stat : file → result (Z * str).
Variable now : str.

Local Abbreviation process_document :=
  (process_document is_alnum lower chunk_size chunk_overlap
     extract_text_from_docx extract_text_from_pdf extract_text_from_txt stat now).
Local Abbreviation process_all_documents :=
  (process_all_documents is_alnum lower chunk_size chunk_overlap
     extract_text_from_docx extract_text_from_pdf extract_text_from_txt stat now).
Local Abbreviation extracted :=
  (extracted lower extract_text_from_docx extract_text_from_pdf
     extract_text_from_txt).

(** A chunk of a document at its place. *)
Lemma process_document_lookup (f : file) (chunks : list DocumentChunk)
    (i : nat) (c : DocumentChunk) :
  process_document f = Return chunks → chunks !! i = Some c →
  chunk_id c = chunk_id_of (stem f) i
  ∧ chunk_index c = i
  ∧ source_file c = path f
  ∧ word_count c = length (split (text c))
  ∧ char_count c = len (text c)
  ∧ metadata c !! py "file_name" = Some (PStr (name f))
  ∧ ∃ extracted_text doc_metadata,
      extracted f = Some (extracted_text, doc_metadata)
      ∧ chunk_document is_alnum chunk_size chunk_overlap extracted_text !! i
        = Some (text c).
Proof.
  unfold Processor.process_document, chunk_document.
  destruct (extracted f) as [[extracted_text doc_metadata]|];
    [|intros [= <-] Hc; now rewrite lookup_nil in Hc].
  destruct (negb (truthy extracted_text)) eqn:Htruthy;
    [intros [= <-] Hc; now rewrite lookup_nil in Hc|].
  intros Hcollect Hc. apply collect_return in Hcollect.
  assert (Hi : imap (chunk_of stat now f doc_metadata)
                 (split_into_chunks chunk_size chunk_overlap
                    (clean_text is_alnum extracted_text)) !! i
               = Some (Return c)).
  { rewrite Hcollect. change (List.map Return chunks) with (Return <$> chunks).
    now rewrite list_lookup_fmap, Hc. }
  rewrite list_lookup_imap in Hi.
  destruct (split_into_chunks chunk_size chunk_overlap
              (clean_text is_alnum extracted_text) !! i) as [chunk_text|] eqn:Htext;
    [|discriminate Hi].
  simpl in Hi. unfold chunk_of in Hi.
  destruct (stat f) as [[st_size file_modified]|e]; [|discriminate Hi].
  injection Hi as <-. cbn [chunk_id chunk_index source_file word_count
    char_count metadata text new_DocumentChunk].
  repeat split; try reflexivity.
  - rewrite !lookup_insert_ne by (vm_compute; discriminate).
    apply lookup_insert_eq.
  - exists extracted_text, doc_metadata. split; [reflexivity|].
    now rewrite Htruthy.
Qed.

Lemma NoDup_lookup_inj {A B} (key : A → B) (l : list A) :
  (∀ i j a b, l !! i = Some a → l !! j = Some b → key a = key b → i = j) →
  NoDup (List.map key l).
Proof.
  intros Hinj. change (List.map key l) with (key <$> l).
  apply NoDup_alt. intros i j b Hi Hj.
  rewrite list_lookup_fmap in Hi, Hj.
  destruct (l !! i) as [a|] eqn:Ha; [|discriminate Hi].
  destruct (l !! j) as [a'|] eqn:Ha'; [|discriminate Hj].
  simpl in Hi, Hj. apply (Hinj i j a a' Ha Ha'). congruence.
Qed.

(** X18. The chunks of one document carry pairwise different ids; the
    chunk at place [i] has the id made of the stem of the file and [i], the
    index [i], the path of the file as its source, the word and character
    counts of its text, the name of the file in its metadata, and as its text
    the segment at place [i] of the cleaned text that was extracted. *)
Theorem chunks_of_a_document_have_distinct_ids (f : file)
    (chunks : list DocumentChunk) :
  process_document f = Return chunks →
  NoDup (List.map chunk_id chunks)
  ∧ ∀ i c, chunks !! i = Some c →
      chunk_id c = chunk_id_of (stem f) i
      ∧ chunk_index c = i
      ∧ source_file c = path f
      ∧ word_count c = length (split (text c))
      ∧ char_count c = len (text c)
      ∧ metadata c !! py "file_name" = Some (PStr (name f))
      ∧ ∃ extracted_text doc_metadata,
          extracted f = Some (extracted_text, doc_metadata)
          ∧ chunk_document is_alnum chunk_size chunk_overlap extracted_text !! i
            = Some (text c).
Proof.
  intros Hf. split; [|intros i c; now apply process_document_lookup].
  apply NoDup_lookup_inj. intros i j a b Ha Hb Heq.
  destruct (process_document_lookup f chunks i a Hf Ha) as (Hida & _).
  destruct (process_document_lookup f chunks j b Hf Hb) as (Hidb & _).
  rewrite Hida, Hidb in Heq.
  now apply chunk_id_of_inj in Heq.
Qed.

(** Every chunk of a run over several documents is the chunk of one of
    them. *)
Lemma process_all_documents_lookup (documents : list file) (c : DocumentChunk) :
  In c (process_all_documents documents) →
  ∃ f i, In f documents ∧ chunk_id c = chunk_id_of (stem f) i.
Proof.
  unfold Processor.process_all_documents.
  induction documents as [|f documents IH]; simpl; [done|].
  intros Hc. apply in_app_or in Hc as [Hc | Hc].
  - destruct (process_document f) as [chunks|e] eqn:Hf; [|done].
    apply list_elem_of_In, list_elem_of_lookup in Hc as [i Hi].
    destruct (process_document_lookup f chunks i c Hf Hi) as (Hid & _).
    exists f, i. split; [now left|exact Hid].
  - destruct (IH Hc) as (g & i & Hg & Hid). exists g, i. split; [now right|exact Hid].
Qed.

(** X19. Over documents with pairwise different stems, all the chunks
    produced carry pairwise different ids. *)
Theorem distinct_stems_give_distinct_ids (documents : list file) :
  NoDup (List.map stem documents) →
  NoDup (List.map chunk_id (process_all_documents documents)).
Proof.
  induction documents as [|f documents IH]; intros Hstems; [constructor|].
  simpl in Hstems. apply NoDup_cons in Hstems as [Hf Hrest].
  unfold Processor.process_all_documents. cbn [List.map concat].
  fold (process_all_documents documents).
  rewrite List.map_app. apply NoDup_app. split; [|split; [|now apply IH]].
  - destruct (process_document f) as [chunks|e] eqn:Hprocess; [|constructor].
    apply NoDup_lookup_inj. intros i j a b Ha Hb Heq.
    destruct (process_document_lookup f chunks i a Hprocess Ha) as (Hida & _).
    destruct (process_document_lookup f chunks j b Hprocess Hb) as (Hidb & _).
    rewrite Hida, Hidb in Heq. now apply chunk_id_of_inj in Heq.
  - intros id Hid Hid'.
    apply list_elem_of_In, in_map_iff in Hid as (c & <- & Hc).
    apply list_elem_of_In, in_map_iff in Hid' as (c' & Heq & Hc').
    destruct (process_document f) as [chunks|e] eqn:Hprocess; [|done].
    apply list_elem_of_In, list_elem_of_lookup in Hc as [i Hi].
    destruct (process_document_lookup f chunks i c Hprocess Hi) as (Hidc & _).
    destruct (process_all_documents_lookup documents c' Hc') as (g & j & Hg & Hidg).
    rewrite Hidc, Hidg in Heq. apply chunk_id_of_inj in Heq as [Hstem _].
    apply Hf. apply list_elem_of_In, in_map_iff. exists g. split; [exact Hstem|exact Hg].
Qed.

(** X20. Two documents with the same stem hand the same ids to their
    chunks: when both give at least one chunk, their first chunks carry the
    same id, and the chunks of a run over the two do not have pairwise
    different ids. *)
Theorem same_stem_documents_share_ids (f g : file)
    (c c' : DocumentChunk) (chunks chunks' : list DocumentChunk) :
  stem f = stem g →
  process_document f = Return (c :: chunks) →
  process_document g = Return (c' :: chunks') →
  chunk_id c = chunk_id c'
  ∧ ¬ NoDup (List.map chunk_id (process_all_documents [f; g])).
Proof.
  intros Hstem Hf Hg.
  destruct (process_document_lookup f (c :: chunks) 0 c Hf eq_refl) as (Hc & _).
  destruct (process_document_lookup g (c' :: chunks') 0 c' Hg eq_refl) as (Hc' & _).
  assert (Hsame : chunk_id c = chunk_id c') by (rewrite Hc, Hc'; now rewrite Hstem).
  split; [exact Hsame|].
  unfold Processor.process_all_documents. cbn [List.map concat].
  rewrite Hf, Hg. rewrite app_nil_r, List.map_app. cbn [List.map].
  intros Hnodup. apply NoDup_cons in Hnodup as [Hnotin _].
  apply Hnotin. apply elem_of_app. right. rewrite Hsame. left.
Qed.

End Process.

Lemma chunks_of_a_document_have_distinct_ids_witness :
  ∃ chunks,
    SampleDocuments.sample_process_document SampleDocuments.report_txt
    = Return chunks
    ∧ length chunks = 2%nat
    ∧ NoDup (List.map chunk_id chunks).
Proof.
  eexists. split; [vm_compute; reflexivity|]. split; [reflexivity|].
  apply (chunks_of_a_document_have_distinct_ids ascii_alnum Samples.ascii_lower
           100 15 SampleDocuments.sample_extract SampleDocuments.sample_extract
           SampleDocuments.sample_extract SampleDocuments.sample_stat
           (py "2024-01-02T00:00:00") SampleDocuments.report_txt).
  vm_compute. reflexivity.
Defined.

Lemma distinct_stems_give_distinct_ids_witness :
  NoDup (List.map chunk_id
           (SampleDocuments.sample_process_all_documents
              [SampleDocuments.report_txt; SampleDocuments.notes_txt])).
Proof.
  apply (distinct_stems_give_distinct_ids ascii_alnum Samples.ascii_lower
           100 15 SampleDocuments.sample_extract SampleDocuments.sample_extract
           SampleDocuments.sample_extract SampleDocuments.sample_stat
           (py "2024-01-02T00:00:00")
           [SampleDocuments.report_txt; SampleDocuments.notes_txt]).
  apply NoDup_cons. split; [|apply NoDup_singleton].
  intros Hin. apply list_elem_of_singleton in Hin. discriminate Hin.
Defined.

Lemma same_stem_documents_share_ids_witness :
  ¬ NoDup (List.map chunk_id
             (SampleDocuments.sample_process_all_documents
                [SampleDocuments.report_txt; SampleDocuments.report_pdf])).
Proof.
  eapply (same_stem_documents_share_ids ascii_alnum Samples.ascii_lower
            100 15 SampleDocuments.sample_extract SampleDocuments.sample_extract
            SampleDocuments.sample_extract SampleDocuments.sample_stat
            (py "2024-01-02T00:00:00")
            SampleDocuments.report_txt SampleDocuments.report_pdf);
    [reflexivity|vm_compute; reflexivity|vm_compute; reflexivity].
Defined.

End ProcessorFacts.

(** ** Batches of embeddings *)

Module BatchFacts.
Import PyStr Runtime EmbeddingCache Model EmbeddingService EmbeddingBatch.
Import ServiceFacts.

Ltac run_batch :=
  unfold on_system, with_locals, assign, try_except, lift, modify, gets,
    get_state, raise, log, on_embedding_cache, mbind, M_bind, mret, M_ret in *.

Section Batch.
Variable cfg : settings.
Variable env : environment.
Variable encode_many : list str → result (list vector).

Local Abbreviation check_cache_step := (check_cache_step env).
Local Abbreviation check_cache := (check_cache env).
Local Abbreviation store_step := (store_step env).
Local Abbreviation fill_step := (fill_step cfg).
Local Abbreviation compute_missing := (compute_missing cfg env encode_many).
Local Abbreviation encode_batch := (encode_batch cfg env encode_many).

(** *** The cache loop *)

(** One pass over a text that [get] returns an answer for. *)
Lemma check_cache_step_returns (acc : lookup_state) (text : str) (s : system)
    (r : option vector) :
  consistent acc →
  get_value (sha256_hex env) text (embedding_cache s) = Return r →
  ∃ ls,
    check_cache_step acc (length (embeddings acc), text) s
    = (Return ls,
       set_embedding_cache
         (λ _, after_get (sha256_hex env) text (embedding_cache s)) s)
    ∧ embeddings ls = embeddings acc ++ [r]
    ∧ consistent ls.
Proof.
  intros [Hlen Hplaces] Hget. unfold EmbeddingBatch.check_cache_step. run_batch.
  cbn [fst snd]. unfold get_value, after_get in *.
  destruct (get (sha256_hex env) text (embedding_cache s)) as [r' c].
  simpl in Hget. subst r'. cbn [snd].
  assert (Hbound : ∀ i, i ∈ indices_to_compute acc →
                        (i < length (embeddings acc))%nat).
  { intros i Hi. apply Hplaces in Hi. now apply lookup_lt_Some in Hi. }
  destruct r as [embedding|]; eexists; (split; [reflexivity|]);
    cbn [embeddings texts_to_compute indices_to_compute];
    (split; [reflexivity|]);
    split; cbn [embeddings texts_to_compute indices_to_compute].
  - exact Hlen.
  - intros i. rewrite Hplaces. split.
    + intros Hi. rewrite lookup_app_l; [exact Hi|]. now apply lookup_lt_Some in Hi.
    + intros Hi. destruct (decide (i < length (embeddings acc))%nat) as [Hlt|Hge].
      * now rewrite lookup_app_l in Hi.
      * rewrite lookup_app_r in Hi by lia.
        destruct (i - length (embeddings acc))%nat; simpl in Hi; done.
  - rewrite !length_app. simpl. lia.
  - intros i. rewrite elem_of_app, list_elem_of_singleton. split.
    + intros [Hi | ->].
      * rewrite lookup_app_l; [now apply Hplaces|now apply Hbound].
      * rewrite lookup_app_r by lia. now rewrite Nat.sub_diag.
    + intros Hi. destruct (decide (i < length (embeddings acc))%nat) as [Hlt|Hge].
      * left. apply Hplaces. now rewrite lookup_app_l in Hi.
      * right. apply lookup_lt_Some in Hi. rewrite length_app in Hi. simpl in Hi. lia.
Qed.

(** One pass over a text on which [get] raises: the loop is left. *)
Lemma check_cache_step_raises (acc : lookup_state) (i : nat) (text : str)
    (s : system) (e : exn) :
  get_value (sha256_hex env) text (embedding_cache s) = Raise e →
  ∃ s', check_cache_step acc (i, text) s = (Raise e, s').
Proof.
  intros Hget. unfold EmbeddingBatch.check_cache_step. run_batch.
  cbn [fst snd]. unfold get_value in Hget.
  destruct (get (sha256_hex env) text (embedding_cache s)) as [r' c].
  simpl in Hget. subst r'. eauto.
Qed.

(** The loop returns what the cache, as it is at the call, answers for every
    text, or it raises the [OSError] of a [get]. *)
Lemma check_cache_loop (texts : list str) :
  ∀ (acc : lookup_state) (s : system),
    consistent acc →
    (∃ ls s' rs,
       foldM check_cache_step
         (imap (λ j text, (length (embeddings acc) + j, text)%nat) texts) acc s
       = (Return ls, s')
       ∧ embeddings ls = embeddings acc ++ rs
       ∧ Forall2 (λ text r,
                    get_value (sha256_hex env) text (embedding_cache s) = Return r)
           texts rs
       ∧ consistent ls
       ∧ model_loaded s' = model_loaded s)
    ∨ (∃ s' text,
         foldM check_cache_step
           (imap (λ j text, (length (embeddings acc) + j, text)%nat) texts) acc s
         = (Raise OSError, s')
         ∧ text ∈ texts
         ∧ get_value (sha256_hex env) text (embedding_cache s) = Raise OSError).
Proof.
  induction texts as [|text texts IH]; intros acc s Hacc.
  { left. exists acc, s, []. simpl. rewrite app_nil_r. repeat split; try done.
    all: apply Hacc. }
  cbn [imap foldM]. rewrite Nat.add_0_r.
  destruct (get_value (sha256_hex env) text (embedding_cache s)) as [r|e] eqn:Hget.
  - destruct (check_cache_step_returns acc text s r Hacc Hget)
      as (ls1 & Hstep & Hemb1 & Hcons1).
    set (s1 := set_embedding_cache
                 (λ _, after_get (sha256_hex env) text (embedding_cache s)) s)
      in Hstep.
    unfold mbind, M_bind. rewrite Hstep.
    assert (Hlen1 : length (embeddings ls1) = S (length (embeddings acc)))
      by (rewrite Hemb1, length_app; simpl; lia).
    rewrite (imap_ext _ (λ j text, (length (embeddings ls1) + j, text)%nat))
      by (intros j x _; simpl; rewrite Hlen1; f_equal; lia).
    assert (Hsame : ∀ t, get_value (sha256_hex env) t (embedding_cache s1)
                         = get_value (sha256_hex env) t (embedding_cache s))
      by (intros t; apply EmbeddingCacheFacts.get_value_after_get).
    destruct (IH ls1 s1 Hcons1)
      as [(ls & s' & rs & Hloop & Hemb & Hrs & Hcons & Hloaded)
         | (s' & t & Hloop & Hin & Hraise)].
    + left. exists ls, s', (r :: rs). rewrite Hloop. split; [reflexivity|].
      split; [now rewrite Hemb, Hemb1, <- app_assoc|].
      split; [|split; [exact Hcons|exact Hloaded]].
      constructor; [exact Hget|].
      eapply Forall2_impl; [exact Hrs|]. intros t r' Ht. cbv beta in *. now rewrite <- Hsame.
    + right. exists s', t. rewrite Hloop. split; [reflexivity|].
      split; [now apply list_elem_of_further|]. now rewrite <- Hsame.
  - pose proof (EmbeddingCacheFacts.get_raises _ _ _ _ Hget) as [-> _].
    destruct (check_cache_step_raises acc (length (embeddings acc)) text s
                OSError Hget) as [s' Hstep].
    right. exists s', text. unfold mbind, M_bind at 1. rewrite Hstep.
    split; [reflexivity|]. split; [apply list_elem_of_here|exact Hget].
Qed.

Lemma check_cache_outcome (texts : list str) (s : system) :
  (∃ ls s',
     check_cache texts s = (Return ls, s')
     ∧ Forall2 (λ text r,
                  get_value (sha256_hex env) text (embedding_cache s) = Return r)
         texts (embeddings ls)
     ∧ consistent ls
     ∧ model_loaded s' = model_loaded s)
  ∨ (∃ s' text,
       check_cache texts s = (Raise OSError, s')
       ∧ text ∈ texts
       ∧ get_value (sha256_hex env) text (embedding_cache s) = Raise OSError).
Proof.
  unfold EmbeddingBatch.check_cache.
  assert (Hstart : consistent {| embeddings := []; texts_to_compute := [];
                                 indices_to_compute := [] |}).
  { split; [reflexivity|]. intros i. simpl. split; [intros Hi|intros [=]].
    now apply elem_of_nil in Hi. }
  destruct (check_cache_loop texts _ s Hstart)
    as [(ls & s' & rs & Hloop & Hemb & Hrs & Hrest) | (s' & t & Hloop & Hrest)].
  - left. exists ls, s'. simpl in Hemb. subst rs.
    split; [|split; [exact Hrs|exact Hrest]].
    rewrite <- Hloop. f_equal.
  - right. exists s', t. split; [|exact Hrest]. rewrite <- Hloop. f_equal.
Qed.

Lemma Forall2_map_l {A B C} (P : B → C → Prop) (g : A → B) (l : list A)
    (k : list C) :
  Forall2 P (List.map g l) k → Forall2 (λ x y, P (g x) y) l k.
Proof.
  revert k. induction l as [|x l IH]; intros k Hk; inversion Hk; subst;
    constructor; auto.
Qed.

Lemma lookup_repeat {A} (x : A) (n i : nat) :
  (i < n)%nat → repeat x n !! i = Some x.
Proof.
  revert i. induction n as [|n IH]; intros [|i] Hi; simpl; try lia; [done|].
  apply IH. lia.
Qed.

(** Without the cache every place holds a placeholder. *)
Lemma uncached_consistent (texts : list str) :
  consistent {| embeddings := repeat None (length texts);
                texts_to_compute := List.map strip texts;
                indices_to_compute := seq 0 (length texts) |}.
Proof.
  split; cbn [embeddings texts_to_compute indices_to_compute].
  - now rewrite length_map, length_seq.
  - intros i. rewrite elem_of_seq. split.
    + intros [_ Hi]. apply lookup_repeat. lia.
    + intros Hi. apply lookup_lt_Some in Hi. rewrite repeat_length in Hi. lia.
Qed.

(** *** The loops of the [try] statement *)

Lemma store_step_returns (use_cache : bool) (texts : list str)
    (i : nat) (v : vector) (place : nat) (s : system) (e : list (option vector)) :
  is_Some (texts !! i) → (place < length e)%nat →
  ∃ s', store_step use_cache texts tt (i, (v, place)) (s, e)
        = (Return tt, (s', <[place := Some v]> e)).
Proof.
  intros [text Htext] Hplace. unfold EmbeddingBatch.store_step. run_batch.
  cbn [fst snd]. apply Nat.ltb_lt in Hplace. rewrite Hplace. cbn [fst snd].
  destruct use_cache; [|eauto].
  rewrite Htext. cbn [fst snd].
  destruct (EmbeddingCacheFacts.put_returns (sha256_hex env) (cache_write env)
              text v (embedding_cache s)) as [c Hput].
  rewrite Hput. eauto.
Qed.

Lemma store_loop (use_cache : bool) (texts : list str)
    (items : list (nat * (vector * nat))) :
  ∀ (s : system) (e : list (option vector)),
    Forall (λ it, is_Some (texts !! it.1) ∧ (it.2.2 < length e)%nat) items →
    ∃ s' e',
      foldM (store_step use_cache texts) items tt (s, e) = (Return tt, (s', e'))
      ∧ length e' = length e.
Proof.
  induction items as [|[i [v place]] items IH]; intros s e Hitems.
  { exists s, e. done. }
  inversion Hitems as [|? ? [Htext Hplace] Hrest]; subst. simpl in Htext, Hplace.
  destruct (store_step_returns use_cache texts i v place s e Htext Hplace)
    as [s1 Hstep].
  cbn [foldM]. unfold mbind, M_bind at 1. rewrite Hstep.
  destruct (IH s1 (<[place := Some v]> e)) as (s' & e' & Hloop & Hlen).
  { eapply Forall_impl; [exact Hrest|]. intros it [Ht Hp].
    split; [exact Ht|]. now rewrite length_insert. }
  exists s', e'. split; [exact Hloop|]. now rewrite Hlen, length_insert.
Qed.

(** The pairs the placing loop goes through are within the lists. *)
Lemma store_items_in_range (computed : list vector) (ls : lookup_state) :
  consistent ls →
  Forall (λ it : nat * (vector * nat),
            is_Some (texts_to_compute ls !! it.1)
            ∧ (it.2.2 < length (embeddings ls))%nat)
    (imap pair (zip computed (indices_to_compute ls))).
Proof.
  intros [Hlen Hplaces]. apply Forall_forall. intros [i [v place]] Hin.
  apply list_elem_of_lookup in Hin as [k Hk].
  rewrite list_lookup_imap in Hk.
  destruct (zip computed (indices_to_compute ls) !! k) as [[v' place']|] eqn:Hzip;
    [|discriminate Hk].
  simpl in Hk. injection Hk as <- <- <-.
  apply lookup_zip_with_Some in Hzip as (v'' & place'' & [= <- <-] & _ & Hplace).
  split; simpl.
  - apply lookup_lt_is_Some. rewrite Hlen. now apply lookup_lt_Some in Hplace.
  - assert (Hin : place' ∈ indices_to_compute ls)
      by (apply list_elem_of_lookup; eauto).
    apply Hplaces in Hin. now apply lookup_lt_Some in Hin.
Qed.

(** The handler fills the placeholders at the indices it is given and leaves
    everything else. *)
Lemma fill_loop (indices : list nat) :
  ∀ (s : system) (e : list (option vector)),
    Forall (λ i, (i < length e)%nat) indices →
    ∃ e',
      foldM fill_step indices tt (s, e) = (Return tt, (s, e'))
      ∧ length e' = length e
      ∧ (∀ j v, e !! j = Some (Some v) → e' !! j = Some (Some v))
      ∧ (∀ j, j ∈ indices → e !! j = Some None →
              e' !! j = Some (Some (zeros (embedding_dimension cfg)))).
Proof.
  induction indices as [|i indices IH]; intros s e Hindices.
  { exists e. repeat split; try done. intros j Hj. now apply elem_of_nil in Hj. }
  inversion Hindices as [|? ? Hi Hrest]; subst.
  cbn [foldM]. unfold mbind, M_bind at 1.
  unfold EmbeddingBatch.fill_step at 1. run_batch. cbn [fst snd].
  destruct (e !! i) as [[v|]|] eqn:Hentry.
  - destruct (IH s e Hrest) as (e' & Hloop & Hlen & Hkept & Hfilled).
    exists e'. split; [exact Hloop|]. split; [exact Hlen|]. split; [exact Hkept|].
    intros j Hj Hnone. apply elem_of_cons in Hj as [-> | Hj]; [congruence|].
    now apply Hfilled.
  - set (e1 := <[i := Some (zeros (embedding_dimension cfg))]> e).
    destruct (IH s e1) as (e' & Hloop & Hlen & Hkept & Hfilled).
    { eapply Forall_impl; [exact Hrest|]. intros k Hk. unfold e1.
      now rewrite length_insert. }
    exists e'. split; [exact Hloop|].
    split; [unfold e1 in Hlen; now rewrite length_insert in Hlen|].
    split.
    + intros j v Hj. apply Hkept. unfold e1.
      destruct (decide (i = j)) as [-> | Hne]; [congruence|].
      now rewrite list_lookup_insert_ne.
    + intros j Hj Hnone. destruct (decide (i = j)) as [-> | Hne].
      * apply Hkept. unfold e1. now apply list_lookup_insert_eq.
      * apply elem_of_cons in Hj as [-> | Hj]; [done|].
        apply Hfilled; [exact Hj|]. unfold e1. now rewrite list_lookup_insert_ne.
  - apply lookup_ge_None in Hentry. lia.
Qed.

(** The [try] statement never raises and keeps the length of the list. *)
Lemma compute_missing_returns (use_cache : bool) (ls : lookup_state) (s : system) :
  consistent ls →
  ∃ s' e',
    compute_missing use_cache ls (s, embeddings ls) = (Return tt, (s', e'))
    ∧ length e' = length (embeddings ls)
    ∧ (∀ e, encode_many (texts_to_compute ls) = Raise e →
            (∀ j v, embeddings ls !! j = Some (Some v) → e' !! j = Some (Some v))
            ∧ (∀ j, embeddings ls !! j = Some None →
                    e' !! j = Some (Some (zeros (embedding_dimension cfg))))).
Proof.
  intros Hcons. unfold EmbeddingBatch.compute_missing.
  unfold try_except, mbind, M_bind at 1, on_system at 1, lift. cbn [fst snd].
  destruct (encode_many (texts_to_compute ls)) as [computed|e] eqn:Hprovider.
  - destruct (store_loop use_cache (texts_to_compute ls)
                (imap pair (zip computed (indices_to_compute ls)))
                s (embeddings ls) (store_items_in_range computed ls Hcons))
      as (s' & e' & Hloop & Hlen).
    rewrite Hloop. exists s', e'. split; [reflexivity|]. split; [exact Hlen|].
    intros e [=].
  - destruct (fill_loop (indices_to_compute ls) s (embeddings ls))
      as (e' & Hloop & Hlen & Hkept & Hfilled).
    { apply Forall_forall. intros i Hi. apply Hcons in Hi.
      now apply lookup_lt_Some in Hi. }
    rewrite Hloop. exists s, e'. split; [reflexivity|]. split; [exact Hlen|].
    intros _ _. split; [exact Hkept|].
    intros j Hj. apply Hfilled; [|exact Hj]. now apply Hcons.
Qed.

(** [_load_model] returns with the model loaded or raises a
    [RuntimeError]; it raises only when the model was not loaded. *)
Lemma load_model_outcome (s : system) :
  (∃ s', load_model env s = (Return tt, s'))
  ∨ (∃ s', load_model env s = (Raise RuntimeError, s') ∧ model_loaded s = false).
Proof.
  unfold load_model, encode_with_model.
  remember (py "test") as probe eqn:Hprobe. run_batch. cbn.
  destruct (model_loaded s) eqn:Hloaded; [left; eauto|].
  cbn. destruct (load_transformer env) as [[]|e]; cbn; [|right; eauto].
  destruct (transformer_encode env probe) as [v|e]; cbn;
    [left; eauto|right; eauto].
Qed.

(** The lists as the function has them before the model is needed, or the
    [OSError] of a [get]. *)
Lemma lookup_stage (texts : list str) (use_cache : bool) (s : system) :
  (∃ ls s',
     (if use_cache
      then check_cache (List.map strip texts)
      else mret {| embeddings := repeat None (length texts);
                   texts_to_compute := List.map strip texts;
                   indices_to_compute := seq 0 (length texts) |}) s
     = (Return ls, s')
     ∧ length (embeddings ls) = length texts
     ∧ consistent ls
     ∧ model_loaded s' = model_loaded s
     ∧ (use_cache = false →
        ls = {| embeddings := repeat None (length texts);
                texts_to_compute := List.map strip texts;
                indices_to_compute := seq 0 (length texts) |})
     ∧ (use_cache = true →
        Forall2 (λ text r,
                   get_value (sha256_hex env) (strip text) (embedding_cache s)
                   = Return r)
          texts (embeddings ls)))
  ∨ (∃ s' text,
       (if use_cache
        then check_cache (List.map strip texts)
        else mret {| embeddings := repeat None (length texts);
                     texts_to_compute := List.map strip texts;
                     indices_to_compute := seq 0 (length texts) |}) s
       = (Raise OSError, s')
       ∧ use_cache = true
       ∧ text ∈ texts
       ∧ get_value (sha256_hex env) (strip text) (embedding_cache s)
         = Raise OSError).
Proof.
  destruct use_cache.
  - destruct (check_cache_outcome (List.map strip texts) s)
      as [(ls & s' & Hrun & Hrs & Hcons & Hloaded) | (s' & t & Hrun & Hin & Hraise)].
    + left. exists ls, s'. apply Forall2_map_l in Hrs.
      split; [exact Hrun|].
      split; [symmetry; exact (Forall2_length _ _ _ Hrs)|].
      split; [exact Hcons|]. split; [exact Hloaded|]. split; [done|].
      intros _. exact Hrs.
    + right. apply list_elem_of_In, in_map_iff in Hin as (text & <- & Hin).
      exists s', text. split; [exact Hrun|]. split; [reflexivity|].
      split; [now apply list_elem_of_In|exact Hraise].
  - left. eexists _, s. split; [reflexivity|].
    cbn [embeddings]. rewrite repeat_length.
    pose proof (uncached_consistent texts) as Hcons.
    split; [reflexivity|]. split; [exact Hcons|]. split; [reflexivity|].
    split; [reflexivity|]. intros [=].
Qed.

(** The function from the lists on. *)
Lemma encode_batch_run (text : str) (texts : list str) (use_cache : bool) (s : system) :
  (∃ ls s1,
     length (embeddings ls) = S (length texts)
     ∧ consistent ls
     ∧ model_loaded s1 = model_loaded s
     ∧ (use_cache = false →
        ls = {| embeddings := repeat None (S (length texts));
                texts_to_compute := List.map strip (text :: texts);
                indices_to_compute := seq 0 (S (length texts)) |})
     ∧ (use_cache = true →
        Forall2 (λ text r,
                   get_value (sha256_hex env) (strip text) (embedding_cache s)
                   = Return r)
          (text :: texts) (embeddings ls))
     ∧ encode_batch (text :: texts) use_cache s
       = match texts_to_compute ls with
         | _ :: _ =>
             (load_model env;;
              with_locals (compute_missing use_cache ls) (embeddings ls)) s1
         | [] => (Return (embeddings ls), s1)
         end)
  ∨ (∃ s' text',
       encode_batch (text :: texts) use_cache s = (Raise OSError, s')
       ∧ use_cache = true
       ∧ text' ∈ text :: texts
       ∧ get_value (sha256_hex env) (strip text') (embedding_cache s)
         = Raise OSError).
Proof.
  destruct (lookup_stage (text :: texts) use_cache s)
    as [(ls & s1 & Hrun & Hlen & Hcons & Hloaded & Hplain & Hcached)
       | (s' & text' & Hrun & Hrest)].
  - left. exists ls, s1.
    split; [exact Hlen|]. split; [exact Hcons|]. split; [exact Hloaded|].
    split; [exact Hplain|]. split; [exact Hcached|].
    unfold EmbeddingBatch.encode_batch. cbv beta iota zeta.
    unfold mbind at 1. unfold M_bind at 1. rewrite Hrun.
    destruct (texts_to_compute ls); reflexivity.
  - right. exists s', text'. split; [|exact Hrest].
    unfold EmbeddingBatch.encode_batch. cbv beta iota zeta.
    unfold mbind at 1. unfold M_bind at 1. now rewrite Hrun.
Qed.

End Batch.



(** X22. When the provider raises, no placeholder is left in what
    [encode_batch] returns: every entry is a vector.  With the cache in use
    the entry of a text is the vector the cache, as it is at the call,
    answers for the stripped text, and the zero vector of the configured
    dimension where the cache has none; without the cache every entry is the
    zero vector. *)
Theorem provider_failure_fills_zero_vectors
    (cfg : settings) (env : environment)
    (encode_many : list str → result (list vector))
    (texts : list str) (use_cache : bool) (s : system) (e : exn)
    (embeddings : list (option vector)) :
  (∀ asked, encode_many asked = Raise e) →
  fst (encode_batch cfg env encode_many texts use_cache s) = Return embeddings →
  Forall (λ entry, is_Some entry) embeddings
  ∧ (use_cache = false →
     embeddings = repeat (Some (zeros (embedding_dimension cfg))) (length texts))
  ∧ (use_cache = true →
     embeddings
     = List.map
         (λ text,
            match get_value (sha256_hex env) (strip text) (embedding_cache s) with
            | Return (Some embedding) => Some embedding
            | _ => Some (zeros (embedding_dimension cfg))
            end) texts).
Proof.
  intros Hprovider.
  destruct texts as [|text texts];
    [intros [= <-]; split; [constructor|done]|].
  destruct (encode_batch_run cfg env encode_many text texts use_cache s)
    as [(ls & s1 & Hlen & Hcons & Hloaded & Hplain & Hcached & ->)
       | (s' & text' & -> & _)]; [|discriminate].
  assert (Hanswer : ∀ e',
            length e' = length (EmbeddingBatch.embeddings ls) →
            (∀ j v, EmbeddingBatch.embeddings ls !! j = Some (Some v) →
                    e' !! j = Some (Some v)) →
            (∀ j, EmbeddingBatch.embeddings ls !! j = Some None →
                  e' !! j = Some (Some (zeros (embedding_dimension cfg)))) →
            use_cache = true →
            e' = List.map
                   (λ text,
                      match get_value (sha256_hex env) (strip text)
                              (embedding_cache s) with
                      | Return (Some embedding) => Some embedding
                      | _ => Some (zeros (embedding_dimension cfg))
                      end) (text :: texts)).
  { intros e' Hlen' Hkept Hfilled Hcache. specialize (Hcached Hcache).
    apply list_eq. intros j.
    change (e' !! j
            = (fmap (λ text,
                 match get_value (sha256_hex env) (strip text)
                         (embedding_cache s) with
                 | Return (Some embedding) => Some embedding
                 | _ => Some (zeros (embedding_dimension cfg))
                 end) (text :: texts)) !! j).
    rewrite list_lookup_fmap.
    destruct ((text :: texts) !! j) as [t|] eqn:Ht; simpl.
    - destruct (Forall2_lookup_l _ _ _ j t Hcached Ht) as (r & Hr & Hget).
      rewrite Hget. destruct r as [v|]; [now apply Hkept|now apply Hfilled].
    - apply lookup_ge_None in Ht. apply lookup_ge_None.
      rewrite Hlen', Hlen. exact Ht. }
  destruct (texts_to_compute ls) as [|t ts] eqn:Htexts.
  - simpl. intros [= <-].
    assert (Hfull : ∀ j, EmbeddingBatch.embeddings ls !! j ≠ Some None).
    { intros j Hj. apply Hcons in Hj. destruct Hcons as [Hsame _].
      rewrite Htexts in Hsame. simpl in Hsame.
      destruct (indices_to_compute ls); [now apply elem_of_nil in Hj|discriminate]. }
    split; [|split].
    + apply Forall_lookup. intros j [v|] Hj; [eauto|]. now apply Hfull in Hj.
    + intros Huncached. rewrite (Hplain Huncached) in Htexts. discriminate Htexts.
    + apply Hanswer; [reflexivity|auto|]. intros j Hj. now apply Hfull in Hj.
  - unfold mbind, M_bind.
    destruct (load_model_outcome env s1) as [[s2 ->] | (s2 & -> & Hnot)];
      [|discriminate].
    destruct (compute_missing_returns cfg env encode_many use_cache ls s2 Hcons)
      as (s3 & e' & Hrun & Hlen' & Hfail).
    rewrite Htexts in Hfail.
    destruct (Hfail e (Hprovider _)) as [Hkept Hfilled].
    unfold with_locals. rewrite Hrun. simpl. intros [= <-]. split; [|split].
    + apply Forall_lookup. intros j entry Hj.
      assert (Hbound : (j < length (EmbeddingBatch.embeddings ls))%nat)
        by (rewrite <- Hlen'; now apply lookup_lt_Some in Hj).
      apply lookup_lt_is_Some in Hbound as [[v|] Hold].
      * rewrite (Hkept j v Hold) in Hj. injection Hj as <-. eauto.
      * rewrite (Hfilled j Hold) in Hj. injection Hj as <-. eauto.
    + intros Huncached. rewrite (Hplain Huncached) in Hfilled, Hlen'.
      cbn [EmbeddingBatch.embeddings] in Hfilled, Hlen'.
      rewrite repeat_length in Hlen'.
      apply list_eq. intros j.
      destruct (decide (j < S (length texts))%nat) as [Hlt|Hge].
      * rewrite (Hfilled j (lookup_repeat None _ j Hlt)).
        symmetry.
        exact (lookup_repeat (Some (zeros (embedding_dimension cfg)))
                 (S (length texts)) j Hlt).
      * rewrite (lookup_ge_None_2 e') by lia.
        symmetry. apply lookup_ge_None_2.
        change (length (repeat (Some (zeros (embedding_dimension cfg)))
                          (S (length texts))) <= j)%nat.
        rewrite repeat_length. lia.
    + now apply Hanswer.
Qed.

Lemma provider_failure_fills_zero_vectors_witness :
  fst (encode_batch default_settings Samples.sample_env
         (λ _, Raise ProviderError) [py "first"; py " hello world "] true
         Samples.system_with_cached_entry)
  = Return [Some (zeros 384); Some [1 # 10; 2 # 10; 3 # 10]]
  ∧ Forall (λ entry, is_Some entry)
      [Some (zeros 384); Some [1 # 10; 2 # 10; 3 # 10]].
Proof.
  split; [vm_compute; reflexivity|].
  apply (provider_failure_fills_zero_vectors default_settings Samples.sample_env
           (λ _, Raise ProviderError) [py "first"; py " hello world "] true
           Samples.system_with_cached_entry ProviderError);
    [reflexivity|vm_compute; reflexivity].
Defined.

End BatchFacts.

(** ** The embedding cache behind [encode_single] *)

Module EncodeAgainFacts.
Import PyStr PyStrFacts Runtime EmbeddingCache Model EmbeddingService.
Import EmbeddingCacheFacts ServiceFacts.

(** A lookup that misses leaves the fingerprint out of the memory tier. *)
Lemma get_miss_memory (text_hash_of : str → str) (text : str) (c : cache_state) :
  get_value text_hash_of text c = Return None →
  memory_cache (after_get text_hash_of text c) !! text_hash_of text = None.
Proof.
  run_cache.
  destruct (memory_cache c !! text_hash_of text) eqn:Hm; [discriminate|].
  destruct (disk c !! text_hash_of text) as [[embedding|]|]; simpl;
    [|case_bool_decide; simpl; [discriminate|now intros _]|now intros _].
  destruct (size (memory_cache c) <? max_memory_items c)%nat; discriminate.
Qed.

(** After a [put] whose file was written, a lookup returns the vector and
    changes nothing. *)
Lemma get_after_put_written (text_hash_of : str → str) (text : str) (v : vector)
    (c : cache_state) :
  memory_cache c !! text_hash_of text = None →
  get text_hash_of text (after_put text_hash_of Written text v c)
  = (Return (Some v), after_put text_hash_of Written text v c).
Proof.
  intros Hm. run_cache.
  destruct (size (memory_cache c) <? max_memory_items c)%nat eqn:Hroom; simpl.
  - now rewrite lookup_insert_eq.
  - rewrite Hm, lookup_insert_eq. simpl. now rewrite Hroom.
Qed.

(** The state after a call that missed the cache, with the model loaded and
    the provider returning. *)
Lemma encode_single_stores (cfg : settings) (env : environment)
    (text : str) (s : system) (v : vector) :
  truthy text = true → strip text = text →
  get_value (sha256_hex env) text (embedding_cache s) = Return None →
  model_loaded s = true →
  transformer_encode env text = Return v →
  ∃ s', encode_single cfg env text true s = (Return v, s')
        ∧ embedding_cache s'
          = after_put (sha256_hex env) (cache_write env) text v
              (after_get (sha256_hex env) text (embedding_cache s)).
Proof.
  intros Ht Hstrip Hmiss Hloaded Hret.
  unfold encode_single, load_model, encode_with_model.
  rewrite Hstrip, Ht. cbn [negb orb].
  unfold get_value, after_put, after_get in *. run_M.
  destruct (get (sha256_hex env) text (embedding_cache s)) as [r c'].
  simpl in Hmiss. subst r. cbn. rewrite Hloaded. cbn. rewrite Hret.
  destruct (put_returns (sha256_hex env) (cache_write env) text v c') as [c'' Hput].
  rewrite Hput. cbn. eexists. split; reflexivity.
Qed.

(** X23. A text embedded once is not embedded again.  After a call of
    [encode_single] that missed the cache, got the vector from the provider
    and wrote the cache file, the same call returns the same vector from the
    cache: the provider is not called, even one that would now fail, and the
    state stays as it was. *)
Theorem repeated_encode_is_served_from_cache
    (cfg : settings) (env env' : environment) (text : str) (s : system)
    (v : vector) :
  truthy (strip text) = true →
  get_value (sha256_hex env) (strip text) (embedding_cache s) = Return None →
  model_loaded s = true →
  transformer_encode env (strip text) = Return v →
  cache_write env = Written →
  sha256_hex env' = sha256_hex env →
  let s' := snd (encode_single cfg env text true s) in
  fst (encode_single cfg env text true s) = Return v
  ∧ encode_single cfg env' text true s' = (Return v, s').
Proof.
  intros Hquery Hmiss Hloaded Hret Hwritten Hhash. cbv zeta.
  assert (Ht : truthy text = true).
  { destruct text; [discriminate Hquery|reflexivity]. }
  assert (Hsame : ∀ e, encode_single cfg e text true
                       = encode_single cfg e (strip text) true).
  { intros e. unfold encode_single. rewrite strip_strip, Ht, Hquery. reflexivity. }
  rewrite !Hsame.
  destruct (encode_single_stores cfg env (strip text) s v Hquery
              (strip_strip text) Hmiss Hloaded Hret) as (s' & Hrun & Hcache).
  rewrite Hrun. cbn [fst snd]. split; [reflexivity|].
  unfold encode_single. rewrite strip_strip, Hquery. cbn [negb orb].
  run_M. rewrite Hhash, Hcache, Hwritten.
  rewrite get_after_put_written by now apply get_miss_memory.
  cbn. f_equal. rewrite <- Hwritten, <- Hcache. now destruct s'.
Qed.

Lemma repeated_encode_is_served_from_cache_witness :
  encode_single default_settings Samples.failing_provider_env (py " lazy fox ") true
    (snd (encode_single default_settings Samples.sample_env (py " lazy fox ") true
            Samples.warm_system))
  = (Return [1; 0; 0]%Q,
     snd (encode_single default_settings Samples.sample_env (py " lazy fox ") true
            Samples.warm_system)).
Proof.
  apply (repeated_encode_is_served_from_cache default_settings Samples.sample_env
           Samples.failing_provider_env (py " lazy fox ") Samples.warm_system
           [1; 0; 0]%Q); reflexivity.
Defined.

End EncodeAgainFacts.

(** ** Clearing the caches *)

Module MaintenanceFacts.
Import PyStr PyStrFacts Runtime EmbeddingCache Model.
Import EmbeddingService VectorStore SearchService Maintenance.
Import EmbeddingCacheFacts ServiceFacts.

Lemma clear_cache_state (s : system) :
  clear_cache s
  = (Return {| success := true;
               cleared_query_cache := Some (length (query_cache s));
               cleared_embedding_cache :=
                 Some (size (memory_cache (embedding_cache s))) |},
     set_embedding_cache (set_memory (λ _, ∅)) (set_query_cache (λ _, []) s)).
Proof. reflexivity. Qed.

(** X24. [clear_cache] succeeds, reports the sizes of the query cache and
    of the memory tier, and empties both; the cache files stay.  So a search
    made next is not answered from the query cache, while an embedding whose
    file is readable is still served from the embedding cache, without the
    provider. *)
Theorem clear_cache_leaves_the_cache_files (s : system) :
  let s' := snd (clear_cache s) in
  fst (clear_cache s)
  = Return {| success := true;
              cleared_query_cache := Some (length (query_cache s));
              cleared_embedding_cache :=
                Some (size (memory_cache (embedding_cache s))) |}
  ∧ query_cache s' = []
  ∧ memory_cache (embedding_cache s') = ∅
  ∧ disk (embedding_cache s') = disk (embedding_cache s)
  ∧ (∀ cfg env query limit score_threshold f resp,
       fst (search cfg env query limit score_threshold f s') = Return resp →
       cached resp ≠ Some true)
  ∧ (∀ text_hash_of text v,
       disk (embedding_cache s) !! text_hash_of text = Some (Pickle v) →
       get_value text_hash_of text (embedding_cache s') = Return (Some v))
  ∧ (∀ text_hash_of text,
       disk (embedding_cache s) !! text_hash_of text = None →
       get_value text_hash_of text (embedding_cache s') = Return None).
Proof.
  cbv zeta. rewrite clear_cache_state. cbn [fst snd].
  split; [reflexivity|]. split; [reflexivity|]. split; [reflexivity|].
  split; [reflexivity|]. split; [|split].
  - intros cfg env query limit score_threshold f resp.
    unfold search, search_body.
    destruct (negb (truthy query) || negb (truthy (strip query))).
    { run_M. simpl. intros [= <-]. done. }
    set (s' := set_embedding_cache _ _).
    assert (Hfresh : ∀ key now, fresh_entry key now (query_cache s') = None)
      by reflexivity.
    destruct (filters_truthy f); cbn [negb]; run_M; cbn; rewrite ?Hfresh;
      (destruct (encode_single cfg env (strip query) true s') as [[v|e] s1];
         [|simpl; intros [= <-]; done]);
      (destruct (length v =? 0)%nat; [simpl; intros [= <-]; done|]);
      (destruct (search_similar cfg env v limit score_threshold f s1) as [[rs|e] s2];
         [|simpl; intros [= <-]; done]);
      destruct (Ranker.post_process_results env rs (strip query));
      simpl; intros [= <-]; done.
  - intros text_hash_of text v Hdisk. apply serves_get. right.
    split; [apply lookup_empty|exact Hdisk].
  - intros text_hash_of text Hdisk. apply absent_get.
    split; [apply lookup_empty|exact Hdisk].
Qed.

Lemma clear_cache_leaves_the_cache_files_witness :
  query_cache
    (snd (clear_cache
            (snd (search default_settings Samples.sample_env (py "lazy fox")
                    (Some 5%Z) None None (initial_system ∅))))) = [].
Proof.
  apply (clear_cache_leaves_the_cache_files
           (snd (search default_settings Samples.sample_env (py "lazy fox")
                   (Some 5%Z) None None (initial_system ∅)))).
Defined.

End MaintenanceFacts.

(** ** The most similar candidates *)

Module SimilarityFacts.
Import PyStr Runtime Similarity.
Local Open Scope Q_scope.

Lemma clip_range (x : Q) : -1 <= clip x ∧ clip x <= 1.
Proof.
  unfold clip. destruct (Qle_bool x (-1)) eqn:Hlow; [split; lra|].
  destruct (Qle_bool 1 x) eqn:Hhigh; [split; lra|].
  assert (Hx : ¬ x <= -1) by (intros Hle; apply Qle_bool_iff in Hle; congruence).
  assert (Hx' : ¬ 1 <= x) by (intros Hle; apply Qle_bool_iff in Hle; congruence).
  split; lra.
Qed.

Lemma compute_similarity_range (a b : vector) :
  -1 <= compute_similarity a b ∧ compute_similarity a b <= 1.
Proof.
  unfold compute_similarity. destruct (length a =? length b)%nat.
  - apply clip_range.
  - split; lra.
Qed.

Lemma insert_by_similarity_perm (p : nat * Q) (l : list (nat * Q)) :
  Permutation (insert_by_similarity p l) (p :: l).
Proof.
  induction l as [|p' l IH]; simpl; [done|].
  destruct (Qle_bool p'.2 p.2); [done|].
  rewrite IH. apply perm_swap.
Qed.

Lemma sort_by_similarity_perm (l : list (nat * Q)) :
  Permutation (sort_by_similarity l) l.
Proof.
  induction l as [|p l IH]; simpl; [done|].
  rewrite insert_by_similarity_perm. now constructor.
Qed.

Lemma insert_by_similarity_sorted (p : nat * Q) (l : list (nat * Q)) :
  StronglySorted (λ a b, b.2 <= a.2) l →
  StronglySorted (λ a b, b.2 <= a.2) (insert_by_similarity p l).
Proof.
  induction 1 as [|p' l Hl IH Hall]; simpl; [repeat constructor|].
  destruct (Qle_bool p'.2 p.2) eqn:Hle.
  - apply Qle_bool_iff in Hle. constructor; [now constructor|].
    constructor; [exact Hle|].
    eapply List.Forall_impl; [|exact Hall]. intros a Ha. simpl in *. lra.
  - assert (Hlt : p.2 < p'.2).
    { apply Qnot_le_lt. intros H. apply Qle_bool_iff in H. congruence. }
    constructor; [exact IH|].
    rewrite insert_by_similarity_perm.
    constructor; [lra|exact Hall].
Qed.

Lemma sort_by_similarity_sorted (l : list (nat * Q)) :
  StronglySorted (λ a b, b.2 <= a.2) (sort_by_similarity l).
Proof.
  induction l as [|p l IH]; simpl; [constructor|].
  now apply insert_by_similarity_sorted.
Qed.

(** A prefix of a sorted list is sorted and dominates the rest. *)
Lemma take_sorted (n : nat) (l : list (nat * Q)) :
  StronglySorted (λ a b, b.2 <= a.2) l →
  StronglySorted (λ a b, b.2 <= a.2) (take n l)
  ∧ ∀ a b, a ∈ take n l → b ∈ drop n l → b.2 <= a.2.
Proof.
  intros Hl. revert n. induction Hl as [|p l Hl IH Hall]; intros [|n]; simpl.
  - split; [constructor|]. intros a b Ha. now apply elem_of_nil in Ha.
  - split; [constructor|]. intros a b Ha. now apply elem_of_nil in Ha.
  - split; [constructor|]. intros a b Ha. now apply elem_of_nil in Ha.
  - destruct (IH n) as [Hsorted Hdom]. split.
    + constructor; [exact Hsorted|].
      rewrite List.Forall_forall in Hall. apply List.Forall_forall.
      intros a Ha. apply Hall. apply list_elem_of_In.
      apply list_elem_of_In in Ha. now apply elem_of_take in Ha as (i & Hi & _);
        apply list_elem_of_lookup; eauto.
    + intros a b Ha Hb. apply elem_of_cons in Ha as [-> | Ha]; [|now apply Hdom].
      rewrite List.Forall_forall in Hall. apply Hall. apply list_elem_of_In.
      apply list_elem_of_lookup in Hb as [i Hi]. rewrite lookup_drop in Hi.
      apply list_elem_of_lookup. eauto.
Qed.

Lemma similarities_lookup (q : vector) (candidates : list vector) (p : nat * Q) :
  p ∈ similarities q candidates ↔
  ∃ c, candidates !! p.1 = Some c ∧ p.2 = compute_similarity q c.
Proof.
  unfold similarities. rewrite list_elem_of_lookup. split.
  - intros [i Hi]. rewrite list_lookup_imap in Hi.
    destruct (candidates !! i) as [c|] eqn:Hc; [|discriminate Hi].
    injection Hi as <-. simpl. eauto.
  - intros (c & Hc & Hsim). exists p.1. rewrite list_lookup_imap, Hc.
    simpl. destruct p. simpl in *. now rewrite Hsim.
Qed.

Lemma similarities_indices (q : vector) (candidates : list vector) :
  List.map fst (similarities q candidates) = seq 0 (length candidates).
Proof.
  unfold similarities. change (List.map fst) with (fmap (M := list) (@fst nat Q)).
  apply list_eq. intros i. rewrite list_lookup_fmap, list_lookup_imap.
  destruct (candidates !! i) as [c|] eqn:Hc; simpl.
  - symmetry. apply lookup_seq. split; [reflexivity|]. now apply lookup_lt_Some in Hc.
  - symmetry. apply lookup_ge_None. rewrite length_seq. now apply lookup_ge_None in Hc.
Qed.

(** X25. [find_most_similar] with [top_k] not negative returns
    [min(top_k, n)] pairs for [n] candidates, in non-increasing order of
    similarity, no index twice; every pair holds the index of a candidate
    and its similarity to the query, which lies between -1 and 1; and no
    candidate left out is more similar than one returned. *)
Theorem most_similar_are_the_top (q : vector) (candidates : list vector)
    (top_k : Z) :
  (0 <= top_k)%Z →
  let found := find_most_similar q candidates top_k in
  length found = Nat.min (Z.to_nat top_k) (length candidates)
  ∧ StronglySorted (λ a b, b.2 <= a.2) found
  ∧ NoDup (List.map fst found)
  ∧ (∀ p, p ∈ found →
          ∃ c, candidates !! p.1 = Some c
               ∧ p.2 = compute_similarity q c
               ∧ -1 <= p.2 ∧ p.2 <= 1)
  ∧ (∀ i c p, candidates !! i = Some c → i ∉ List.map fst found → p ∈ found →
              compute_similarity q c <= p.2).
Proof.
  intros Hk. cbv zeta. unfold find_most_similar.
  destruct candidates as [|c0 candidates'].
  { rewrite Nat.min_0_r. repeat split; try constructor.
    - intros p Hp. now apply elem_of_nil in Hp.
    - intros i c p _ _ Hp. now apply elem_of_nil in Hp. }
  set (candidates := c0 :: candidates').
  set (sorted := sort_by_similarity (similarities q candidates)).
  unfold slice_to. replace (0 <=? top_k)%Z with true by (symmetry; lia).
  pose proof (sort_by_similarity_perm (similarities q candidates)) as Hperm.
  fold sorted in Hperm.
  pose proof (sort_by_similarity_sorted (similarities q candidates)) as Hsorted.
  fold sorted in Hsorted.
  destruct (take_sorted (Z.to_nat top_k) sorted Hsorted) as [Htake Hdom].
  assert (Hlen : length sorted = length candidates).
  { rewrite (Permutation_length Hperm). unfold similarities. apply length_imap. }
  assert (Hnodup : NoDup (List.map fst sorted)).
  { assert (Hmap : Permutation (List.map fst sorted)
                       (List.map fst (similarities q candidates)))
      by now apply Permutation_map.
    rewrite Hmap, similarities_indices. apply NoDup_seq. }
  split; [rewrite length_take, Hlen; reflexivity|].
  split; [exact Htake|]. split; [|split].
  - rewrite <- (take_drop (Z.to_nat top_k) sorted) in Hnodup.
    rewrite List.map_app in Hnodup. now apply NoDup_app in Hnodup as [? _].
  - intros p Hp.
    assert (Hin : p ∈ similarities q candidates).
    { rewrite <- Hperm. apply elem_of_take in Hp as (i & Hi & _).
      apply list_elem_of_lookup. eauto. }
    apply similarities_lookup in Hin as (c & Hc & Hsim).
    exists c. split; [exact Hc|]. split; [exact Hsim|].
    rewrite Hsim. apply compute_similarity_range.
  - intros i c p Hc Hout Hp.
    assert (Hin : (i, compute_similarity q c) ∈ sorted).
    { rewrite Hperm. apply similarities_lookup. exists c. now split. }
    rewrite <- (take_drop (Z.to_nat top_k) sorted) in Hin.
    apply elem_of_app in Hin as [Hin | Hin].
    + exfalso. apply Hout. apply list_elem_of_In, in_map_iff.
      exists (i, compute_similarity q c). split; [reflexivity|].
      now apply list_elem_of_In.
    + exact (Hdom p (i, compute_similarity q c) Hp Hin).
Qed.

Lemma most_similar_are_the_top_witness :
  length (find_most_similar [1; 0]%Q [[0; 1]; [1; 0]; [1 # 2; 0]]%Q 2)
  = Nat.min (Z.to_nat 2) 3.
Proof.
  apply (most_similar_are_the_top [1; 0]%Q [[0; 1]; [1; 0]; [1 # 2; 0]]%Q 2).
  lia.
Defined.

End SimilarityFacts.

(** ** Validation of the search parameters *)

Module LimitRangeFacts.
Import PyStr Runtime Model Limits LimitRanges.

(** X26. [validate_search_limits] accepts exactly the requests whose limit,
    when given, lies between 1 and 100 and whose threshold, when given, lies
    between 0 and 1.  What it accepts it returns as it is, with the configured
    default in place of what was not given; everything else it rejects with
    status 400. *)
Theorem validation_accepts_exactly_the_ranges (cfg : settings)
    (limit : option Z) (score_threshold : option Q) :
  match validate_search_limits cfg limit score_threshold with
  | inr params =>
      limit_in_range limit ∧ threshold_in_range score_threshold
      ∧ Limits.limit params = default (default_limit cfg) limit
      ∧ Limits.score_threshold params
        = default (similarity_threshold cfg) score_threshold
  | inl e =>
      status_code e = 400%Z
      ∧ ¬ (limit_in_range limit ∧ threshold_in_range score_threshold)
  end.
Proof.
  unfold validate_search_limits, limit_in_range, threshold_in_range.
  assert (Hthreshold : ∀ validated_limit,
    limit_in_range limit → default (default_limit cfg) limit = validated_limit →
    match
      match score_threshold with
      | Some score_threshold =>
          if negb (Qle_bool 0 score_threshold && Qle_bool score_threshold 1)
          then inl {| status_code := 400;
                      detail := "Score threshold must be between 0.0 and 1.0" |}
          else inr {| Limits.limit := validated_limit;
                      Limits.score_threshold := score_threshold |}
      | None => inr {| Limits.limit := validated_limit;
                       Limits.score_threshold := similarity_threshold cfg |}
      end
    with
    | inr params =>
        limit_in_range limit ∧ threshold_in_range score_threshold
        ∧ Limits.limit params = default (default_limit cfg) limit
        ∧ Limits.score_threshold params
          = default (similarity_threshold cfg) score_threshold
    | inl e =>
        status_code e = 400%Z
        ∧ ¬ (limit_in_range limit ∧ threshold_in_range score_threshold)
    end).
  { intros validated_limit Hlimit Hdefault.
    destruct score_threshold as [t|]; simpl; [|done].
    destruct (Qle_bool 0 t) eqn:Hlow; destruct (Qle_bool t 1) eqn:Hhigh; simpl.
    - apply Qle_bool_iff in Hlow, Hhigh. done.
    - split; [reflexivity|]. intros [_ [_ Hle]].
      apply Qle_bool_iff in Hle. congruence.
    - split; [reflexivity|]. intros [_ [Hle _]].
      apply Qle_bool_iff in Hle. congruence.
    - split; [reflexivity|]. intros [_ [Hle _]].
      apply Qle_bool_iff in Hle. congruence. }
  destruct limit as [l|]; [|now apply Hthreshold].
  destruct (l <=? 0)%Z eqn:Hlow.
  { simpl. split; [reflexivity|]. intros [Hl _]. lia. }
  destruct (100 <? l)%Z eqn:Hhigh.
  { simpl. split; [reflexivity|]. intros [Hl _]. lia. }
  apply Hthreshold; [simpl; lia|reflexivity].
Qed.

End LimitRangeFacts.

(** ** From a document to a search result, and the batches *)

Module IndexingFacts.
Import PyStr Runtime EmbeddingCache Model VectorStore Indexing ServiceFacts.

(** *** A chunk read back from its payload *)

Section ReadBack.
Variable is_alnum : char → bool.
Variable lower : str → str.
Variables chunk_size chunk_overlap : Z.
Variable extract_text_from_docx : Processor.file → str * gmap str pyval.
Variable extract_text_from_pdf : Processor.file → str * gmap str pyval.
Variable extract_text_from_txt : Processor.file → str * gmap str pyval.
Variable stat : Processor.file → result (Z * str).
Variable now : str.

Local Abbreviation process_document :=
  (Processor.process_document is_alnum lower chunk_size chunk_overlap
     extract_text_from_docx extract_text_from_pdf extract_text_from_txt stat now).
Local Abbreviation extracted :=
  (Processor.extracted lower extract_text_from_docx extract_text_from_pdf
     extract_text_from_txt).

(** The chunk at a place, in full. *)
Lemma process_document_chunk (f : Processor.file)
    (chunks : list Processor.DocumentChunk) (i : nat) (c : Processor.DocumentChunk) :
  process_document f = Return chunks → chunks !! i = Some c →
  ∃ extracted_text doc_metadata st_size file_modified chunk_text,
    extracted f = Some (extracted_text, doc_metadata)
    ∧ c = Processor.new_DocumentChunk now chunk_text
            (Processor.chunk_id_of (Processor.stem f) i) (Processor.path f) i
            (<[py "file_modified" := PStr file_modified]>
               (<[py "file_size" := PInt st_size]>
                  (<[py "file_path" := PStr (Processor.path f)]>
                     (<[py "file_name" := PStr (Processor.name f)]> doc_metadata)))).
Proof.
  unfold Processor.process_document.
  destruct (extracted f) as [[extracted_text doc_metadata]|];
    [|intros [= <-] Hc; now rewrite lookup_nil in Hc].
  destruct (negb (truthy extracted_text));
    [intros [= <-] Hc; now rewrite lookup_nil in Hc|].
  intros Hcollect Hc. apply ProcessorFacts.collect_return in Hcollect.
  assert (Hi : imap (Processor.chunk_of stat now f doc_metadata)
                 (Chunker.split_into_chunks chunk_size chunk_overlap
                    (Chunker.clean_text is_alnum extracted_text)) !! i
               = Some (Return c)).
  { rewrite Hcollect. change (List.map Return chunks) with (Return <$> chunks).
    now rewrite list_lookup_fmap, Hc. }
  rewrite list_lookup_imap in Hi.
  destruct (Chunker.split_into_chunks chunk_size chunk_overlap
              (Chunker.clean_text is_alnum extracted_text) !! i)
    as [chunk_text|]; [|discriminate Hi].
  simpl in Hi. unfold Processor.chunk_of in Hi.
  destruct (stat f) as [[st_size file_modified]|e]; [|discriminate Hi].
  injection Hi as <-. eauto 10.
Qed.

(** X27. A chunk of a document, indexed and found again, comes back as
    itself: when the metadata the extractor gave holds none of the keys
    [text], [chunk_id] and [source_file], the result that [search_similar]
    builds from the payload of the chunk carries the chunk's id, made of the
    stem of the file and the place of the chunk, the chunk's text, the path
    of the file, the name of the file and the place of the chunk in its
    metadata, and the score of the hit clamped to the unit interval. *)
Theorem indexed_chunk_reads_back (f : Processor.file)
    (chunks : list Processor.DocumentChunk) (i : nat) (c : Processor.DocumentChunk)
    (extracted_text : str) (doc_metadata : gmap str pyval) (hit_score : Q) :
  process_document f = Return chunks → chunks !! i = Some c →
  extracted f = Some (extracted_text, doc_metadata) →
  doc_metadata !! py "text" = None →
  doc_metadata !! py "chunk_id" = None →
  doc_metadata !! py "source_file" = None →
  doc_metadata !! py "chunk_index" = None →
  let r := result_of_hit {| hit_score := hit_score; payload := payload_of c |} in
  chunk_id r = Processor.chunk_id_of (Processor.stem f) i
  ∧ text r = Processor.text c
  ∧ source_file r = Processor.path f
  ∧ score r = Ranking.unit_score hit_score
  ∧ metadata r !! py "file_name" = Some (PStr (Processor.name f))
  ∧ metadata r !! py "chunk_index" = Some (PInt (Z.of_nat i)).
Proof.
  intros Hf Hc Hextracted Htext Hid Hsource Hindex. cbv zeta.
  destruct (process_document_chunk f chunks i c Hf Hc)
    as (t & dm & st_size & file_modified & chunk_text & Hextracted' & ->).
  rewrite Hextracted in Hextracted'. injection Hextracted' as <- <-.
  set (chunk_metadata :=
         <[py "file_modified" := PStr file_modified]>
           (<[py "file_size" := PInt st_size]>
              (<[py "file_path" := PStr (Processor.path f)]>
                 (<[py "file_name" := PStr (Processor.name f)]> doc_metadata)))).
  assert (Hm : ∀ key, key ≠ py "file_modified" → key ≠ py "file_size" →
                      key ≠ py "file_path" → key ≠ py "file_name" →
                      chunk_metadata !! key = doc_metadata !! key).
  { intros key H1 H2 H3 H4. unfold chunk_metadata.
    now rewrite !lookup_insert_ne by done. }
  assert (Hname : chunk_metadata !! py "file_name" = Some (PStr (Processor.name f))).
  { unfold chunk_metadata. rewrite !lookup_insert_ne by (vm_compute; discriminate).
    apply lookup_insert_eq. }
  unfold result_of_hit, payload_string, new_SearchResult.
  cbn [payload Model.hit_score chunk_id text source_file score metadata].
  unfold payload_of.
  cbn [Processor.metadata Processor.text Processor.chunk_id Processor.source_file
       Processor.chunk_index Processor.word_count Processor.char_count
       Processor.created_at Processor.new_DocumentChunk].
  fold chunk_metadata.
  set (fields := <[py "text" := _]> _).
  assert (Hpayload : ∀ key, (chunk_metadata ∪ fields) !! key
                            = match chunk_metadata !! key with
                              | Some v => Some v
                              | None => fields !! key
                              end).
  { intros key. rewrite lookup_union.
    destruct (chunk_metadata !! key), (fields !! key); reflexivity. }
  rewrite !Hpayload.
  rewrite (Hm (py "chunk_id")), Hid by (vm_compute; discriminate).
  rewrite (Hm (py "text")), Htext by (vm_compute; discriminate).
  rewrite (Hm (py "source_file")), Hsource by (vm_compute; discriminate).
  replace (fields !! py "chunk_id")
    with (Some (PStr (Processor.chunk_id_of (Processor.stem f) i)))
    by (unfold fields; rewrite !lookup_insert_ne by (vm_compute; discriminate);
        now rewrite lookup_insert_eq).
  replace (fields !! py "text") with (Some (PStr chunk_text))
    by (unfold fields; now rewrite lookup_insert_eq).
  replace (fields !! py "source_file") with (Some (PStr (Processor.path f)))
    by (unfold fields; rewrite !lookup_insert_ne by (vm_compute; discriminate);
        now rewrite lookup_insert_eq).
  split; [reflexivity|]. split; [reflexivity|]. split; [reflexivity|].
  split; [reflexivity|].
  set (rest := delete (py "text") _).
  assert (Hrest : ∀ key, key ≠ py "text" → key ≠ py "chunk_id" →
                         key ≠ py "source_file" →
                         rest !! key = (chunk_metadata ∪ fields) !! key).
  { intros key H1 H2 H3. unfold rest. now rewrite !lookup_delete_ne by done. }
  assert (Hrest_name : rest !! py "file_name" = Some (PStr (Processor.name f))).
  { rewrite Hrest by (vm_compute; discriminate). now rewrite Hpayload, Hname. }
  rewrite Hrest_name. split; [exact Hrest_name|].
  rewrite Hrest by (vm_compute; discriminate).
  rewrite Hpayload, (Hm (py "chunk_index")), Hindex by (vm_compute; discriminate).
  unfold fields. rewrite !lookup_insert_ne by (vm_compute; discriminate).
  apply lookup_insert_eq.
Qed.

End ReadBack.

Lemma indexed_chunk_reads_back_witness :
  ∃ chunks c,
    SampleDocuments.sample_process_document SampleDocuments.report_txt
    = Return chunks
    ∧ chunks !! 1%nat = Some c
    ∧ chunk_id (result_of_hit {| hit_score := 7 # 10; payload := payload_of c |})
      = Processor.chunk_id_of (py "report") 1.
Proof.
  eexists _, _. split; [vm_compute; reflexivity|]. split; [reflexivity|].
  eapply (indexed_chunk_reads_back Chunker.ascii_alnum Samples.ascii_lower
            100 15 SampleDocuments.sample_extract SampleDocuments.sample_extract
            SampleDocuments.sample_extract SampleDocuments.sample_stat
            (py "2024-01-02T00:00:00") SampleDocuments.report_txt _ 1 _
            Chunker.two_sentences ∅ (7 # 10));
    [vm_compute; reflexivity|reflexivity|vm_compute; reflexivity
    |reflexivity|reflexivity|reflexivity|reflexivity].
Defined.

(** *** The batches *)

Section Batches.
Variable env : environment.
Variable uuid5 : str → str.
Variable upsert : list point → result bool.

Local Abbreviation batch_points := (batch_points uuid5).
Local Abbreviation index_batch := (index_batch uuid5 upsert).
Local Abbreviation index_document_chunks_batch :=
  (index_document_chunks_batch env uuid5 upsert).

Lemma batch_points_length (chunks : list Processor.DocumentChunk)
    (embeddings : list vector) (batch_size i : nat) :
  length chunks = length embeddings →
  length (batch_points chunks embeddings batch_size i)
  = Nat.min batch_size (length chunks - i).
Proof.
  intros Hlen. unfold Indexing.batch_points.
  rewrite length_zip_with, !length_take, !length_drop. lia.
Qed.

(** One pass returns, leaves the state alone, and counts the batch or not. *)
Lemma index_batch_outcome (chunks : list Processor.DocumentChunk)
    (embeddings : list vector) (batch_size : nat) (count : Z) (i : nat)
    (s : system) :
  ∃ count',
    index_batch chunks embeddings batch_size count i s = (Return count', s)
    ∧ (count' = count
       ∨ count' = (count + Z.of_nat (length (batch_points chunks embeddings
                                               batch_size i)))%Z)
    ∧ (upsert (batch_points chunks embeddings batch_size i) = Return true →
       count' = (count + Z.of_nat (length (batch_points chunks embeddings
                                             batch_size i)))%Z).
Proof.
  unfold Indexing.index_batch. run_M. cbv zeta.
  destruct (upsert (batch_points chunks embeddings batch_size i))
    as [[|]|e]; eexists; (split; [reflexivity|]); split; eauto; discriminate.
Qed.

Lemma index_loop (chunks : list Processor.DocumentChunk)
    (embeddings : list vector) (batch_size : nat) (m : nat) :
  length chunks = length embeddings →
  ∀ (a : nat) (count : Z) (s : system),
    ∃ count',
      EmbeddingBatch.foldM (index_batch chunks embeddings batch_size)
        (List.map (λ k, k * batch_size)%nat (seq a m)) count s
      = (Return count', s)
      ∧ (count <= count')%Z
      ∧ (count' <= count
                   + Z.of_nat (Nat.min ((a + m) * batch_size) (length chunks)
                               - Nat.min (a * batch_size) (length chunks)))%Z
      ∧ ((∀ points, upsert points = Return true) →
         count' = (count
                   + Z.of_nat (Nat.min ((a + m) * batch_size) (length chunks)
                               - Nat.min (a * batch_size) (length chunks)))%Z).
Proof.
  intros Hlen. induction m as [|m IH]; intros a count s.
  { exists count. simpl. rewrite Nat.add_0_r, Nat.sub_diag.
    repeat split; try reflexivity; lia. }
  cbn [seq List.map EmbeddingBatch.foldM].
  destruct (index_batch_outcome chunks embeddings batch_size count
              (a * batch_size) s) as (count1 & Hstep & Hcases & Hall).
  unfold mbind, M_bind at 1. rewrite Hstep.
  destruct (IH (S a) count1 s) as (count' & Hloop & Hlow & Hhigh & Hall').
  rewrite Hloop. exists count'. split; [reflexivity|].
  rewrite (batch_points_length chunks embeddings batch_size (a * batch_size) Hlen)
    in Hcases, Hall.
  replace ((a + S m) * batch_size)%nat with ((S a + m) * batch_size)%nat by lia.
  assert (Hstep_size :
    (Nat.min (S a * batch_size) (length chunks)
     - Nat.min (a * batch_size) (length chunks)
     = Nat.min batch_size (length chunks - a * batch_size))%nat) by lia.
  assert (Hmono :
    (Nat.min (a * batch_size) (length chunks)
     <= Nat.min (S a * batch_size) (length chunks)
     <= Nat.min ((S a + m) * batch_size) (length chunks))%nat) by lia.
  split; [destruct Hcases; lia|]. split; [destruct Hcases; lia|].
  intros Hupsert. rewrite (Hall' Hupsert), (Hall (Hupsert _)). lia.
Qed.

Lemma batches_cover (total batch_size : nat) :
  (0 < batch_size)%nat →
  (total <= (total + batch_size - 1) / batch_size * batch_size)%nat.
Proof.
  intros Hpos.
  pose proof (Nat.div_mod (total + batch_size - 1) batch_size ltac:(lia)) as Hdiv.
  pose proof (Nat.mod_upper_bound (total + batch_size - 1) batch_size ltac:(lia)).
  nia.
Qed.

End Batches.



End IndexingFacts.
